(** * FrameGen: the image-analysis core, embedded from the JavaScript sources

    Source files: [src/js/utils.js] (ImageUtils, CompositionUtils,
    AISuggestions), the AI composer ([AIComposer]) and the advanced tools
    ([AdvancedImageAnalysis], [CreativeFilters], [SocialMediaPresets]).

    Number model.  A JavaScript Number is an IEEE-754 binary64 value, and so
    is Rocq's primitive [float]: [+ - * /], [Math.sqrt] and [Math.abs] are the
    same correctly rounded operations, [NaN] and the infinities included.
    Loop counters and array indices that the code builds from integer
    literals by integer steps are kept in [Z]; they enter float arithmetic
    through [Z2F], which is exact below 2^53. *)

From Stdlib Require Import ZArith List Floats Lia String Ascii.
From Stdlib Require Uint63.
From Stdlib Require Import DecimalString Sorted.
From stdpp Require Import base list gmap.

Set Warnings "-inexact-float".
Local Open Scope Z_scope.

(* ===================================================================== *)
(** * JavaScript primitives *)
(* ===================================================================== *)

Module JS.

(** An integer as a Number (exact for |z| < 2^53). *)
Definition Z2F (z : Z) : float :=
  if z <? 0 then (- of_uint63 (Uint63.of_Z (- z)))%float
  else of_uint63 (Uint63.of_Z z).

(** A Number as an integer, when it is a finite integral value. *)
Definition F2Z (x : float) : option Z :=
  match Prim2SF x with
  | S754_zero _ => Some 0
  | S754_finite s m e =>
      if 0 <=? e then Some (cond_Zopp s (Z.pos m * 2 ^ e))
      else if Z.pos m mod 2 ^ (- e) =? 0
           then Some (cond_Zopp s (Z.pos m / 2 ^ (- e)))
           else None
  | _ => None
  end.

(** [Math.floor]. *)
Definition Math_floor (x : float) : float :=
  match Prim2SF x with
  | S754_finite s m e =>
      if 0 <=? e then x
      else Z2F (cond_Zopp s (Z.pos m) / 2 ^ (- e))
  | _ => x
  end.

(** [Math.max] and [Math.min] of two arguments: NaN is contagious. *)
Definition Math_max (a b : float) : float :=
  if is_nan a || is_nan b then nan
  else if (a <? b)%float then b
  else if (b <? a)%float then a
  else if get_sign a then b else a.

Definition Math_min (a b : float) : float :=
  if is_nan a || is_nan b then nan
  else if (a <? b)%float then a
  else if (b <? a)%float then b
  else if get_sign a then a else b.

Definition Math_abs : float -> float := PrimFloat.abs.
Definition Math_sqrt : float -> float := PrimFloat.sqrt.

(** [Math.pow(x, 2)]: the square, correctly rounded (ECMAScript leaves the
    precision of [Math.pow] to the implementation). *)
Definition Math_pow2 (x : float) : float := (x * x)%float.

Definition Math_PI : float := 3.141592653589793%float.

(** [a > b] on Numbers ([false] as soon as one side is NaN). *)
Definition gt (a b : float) : bool := (b <? a)%float.
Definition ge (a b : float) : bool := (b <=? a)%float.

(** Reading [arr[i]] at an integer index; [None] is [undefined]. *)
Definition get {A} (arr : list A) (i : Z) : option A :=
  if i <? 0 then None else arr !! Z.to_nat i.

(** Reading [arr[idx]] where the index is itself a Number: anything but a
    non-negative integer inside the array reads [undefined]. *)
Definition getF {A} (arr : list A) (idx : float) : option A :=
  match F2Z idx with
  | Some i => get arr i
  | None => None
  end.

(** [undefined] used as an operand of arithmetic or of a comparison. *)
Definition num (v : option float) : float :=
  match v with Some x => x | None => nan end.

(** Truthiness of a Number-or-undefined. *)
Definition truthy (v : option float) : bool :=
  match v with
  | Some x => negb (is_nan x || is_zero x)
  | None => false
  end.

(** An array with holes: [new Array(n)] has [n] empty slots. *)
Definition new_Array {A} (n : Z) : list (option A) :=
  replicate (Z.to_nat n) None.

(** [arr[i] = v] on an array with holes (an index past the end grows it). *)
Definition set {A} (arr : list (option A)) (i : Z) (v : A) : list (option A) :=
  if i <? 0 then arr
  else if i <? Z.of_nat (length arr) then <[Z.to_nat i := Some v]> arr
  else arr ++ replicate (Z.to_nat i - length arr) None ++ [Some v].

(** [for (let i = start; guard(i); i += step) body]: the guard is tested
    before every iteration; [fuel] bounds the number of iterations. *)
Fixpoint for_fuel {S} (fuel : nat) (guard : Z -> bool) (step : Z)
    (body : Z -> S -> S) (i : Z) (s : S) : S :=
  match fuel with
  | O => s
  | Datatypes.S fuel' =>
      if guard i then for_fuel fuel' guard step body (i + step) (body i s)
      else s
  end.

(** [for (let i = start; i < stop; i += step)], [step >= 1]. *)
Definition for_lt {S} (start stop step : Z) (body : Z -> S -> S) (s : S) : S :=
  for_fuel (Z.to_nat (stop - start)) (fun i => i <? stop) step body start s.

(** [for (let i = start; i <= stop; i++)]. *)
Definition for_le {S} (start stop : Z) (body : Z -> S -> S) (s : S) : S :=
  for_fuel (Z.to_nat (stop + 1 - start)) (fun i => i <=? stop) 1 body start s.

(** The same loop with a Number counter and a Number step. *)
Fixpoint forF_fuel {S} (fuel : nat) (stop step : float)
    (body : float -> S -> S) (i : float) (s : S) : S :=
  match fuel with
  | O => s
  | Datatypes.S fuel' =>
      if (i <? stop)%float
      then forF_fuel fuel' stop step body (i + step)%float (body i s)
      else s
  end.

(** [Array.prototype.sort(cmp)]: a stable sort (ECMAScript 2019); [x] is
    moved in front of [y] only when [cmp(y, x) > 0]. *)
Fixpoint sort_insert {A} (cmp : A -> A -> float) (x : A) (l : list A) : list A :=
  match l with
  | [] => [x]
  | y :: l' =>
      if gt (cmp y x) 0 then x :: y :: l'
      else y :: sort_insert cmp x l'
  end.

Definition sort {A} (cmp : A -> A -> float) (l : list A) : list A :=
  fold_left (fun acc x => sort_insert cmp x acc) l [].

(** [arr.slice(0, n)]. *)
Definition slice0 {A} (n : nat) (l : list A) : list A := take n l.

(** [arr.forEach((elem, index) => ...)] threading the state the callback
    mutates. *)
Definition forEach_i {A S} (f : S -> A -> nat -> S) (arr : list A) (s : S) : S :=
  fold_left (fun s ia => f s (snd ia) (fst ia))
    (combine (seq 0 (length arr)) arr) s.

(** A Number known to be integral, used as a loop counter. *)
Definition toZ (x : float) : Z := default 0 (F2Z x).

(** [String(x)] for the Numbers that reach a template string here:
    integral values print in decimal, NaN and the infinities by name. *)
Definition string_of_Z (z : Z) : string := NilZero.string_of_int (Z.to_int z).

Definition Number_toString (x : float) : string :=
  match F2Z x with
  | Some z => string_of_Z z
  | None =>
      if is_nan x then "NaN"
      else if (0 <? x)%float then "Infinity" else "-Infinity"
  end%string.

(** [Number(s)] on a decimal integer literal; anything else is NaN. *)
Definition Number_of_string (s : string) : float :=
  match NilZero.int_of_string s with
  | Some d => Z2F (Z.of_int d)
  | None => nan
  end.

(** [s.split(',')]. *)
Fixpoint split_comma_aux (cur : string) (s : string) : list string :=
  match s with
  | EmptyString => [cur]
  | String c s' =>
      if Ascii.eqb c ","%char then cur :: split_comma_aux EmptyString s'
      else split_comma_aux (cur ++ String c EmptyString)%string s'
  end.

Definition split_comma (s : string) : list string :=
  split_comma_aux EmptyString s.

(** A plain object used as a dictionary with string keys that are not
    array indices: [Object.entries] lists them in insertion order. *)
Definition obj (V : Type) : Type := list (string * V).

Fixpoint obj_get {V} (o : obj V) (k : string) : option V :=
  match o with
  | [] => None
  | (k', v) :: o' => if String.eqb k' k then Some v else obj_get o' k
  end.

Fixpoint obj_set {V} (o : obj V) (k : string) (v : V) : obj V :=
  match o with
  | [] => [(k, v)]
  | (k', v') :: o' =>
      if String.eqb k' k then (k', v) :: o' else (k', v') :: obj_set o' k v
  end.

(** The property names every plain object inherits from
    [Object.prototype].  [obj_get] reads own properties only: it is [o[k]]
    for every key outside this list. *)
Definition Object_prototype_names : list string :=
  ["constructor"; "__proto__"; "hasOwnProperty"; "isPrototypeOf";
   "propertyIsEnumerable"; "toLocaleString"; "toString"; "valueOf";
   "__defineGetter__"; "__defineSetter__"; "__lookupGetter__";
   "__lookupSetter__"]%string.

Definition inherited (k : string) : bool :=
  existsb (String.eqb k) Object_prototype_names.

(** Writing a Number into a slot of a [Uint8ClampedArray]: NaN is stored
    as 0, anything else is clamped to [0, 255] and rounded to the nearest
    integer, a tie to the even one. *)
Definition toUint8Clamp (x : float) : Z :=
  if is_nan x then 0
  else if (x <=? 0)%float then 0
  else if (255 <=? x)%float then 255
  else
    let f := Math_floor x in
    if (f + 0.5 <? x)%float then toZ f + 1
    else if (x <? f + 0.5)%float then toZ f
    else if Z.even (toZ f) then toZ f else toZ f + 1.

(** [data[i] = v] on a [Uint8ClampedArray]: a write outside the array is
    ignored. *)
Definition store (d : list Z) (i : Z) (v : float) : list Z :=
  if i <? 0 then d else <[Z.to_nat i := toUint8Clamp v]> d.

(** [a % b] on two integers. *)
Definition int_rem (a b : Z) : float :=
  if b =? 0 then nan else Z2F (Z.rem a b).

End JS.

(* ===================================================================== *)
(** * ImageData *)
(* ===================================================================== *)

(** The platform's [ImageData]: [data] is a [Uint8ClampedArray] of RGBA
    bytes. *)
Record ImageData := mkImageData {
  width : Z;
  height : Z;
  data : list Z
}.

(** A valid buffer: positive dimensions, [width*height*4] bytes. *)
Definition valid_buffer (img : ImageData) : Prop :=
  0 < width img /\ 0 < height img /\
  Z.of_nat (length (data img)) = width img * height img * 4 /\
  Forall (fun b => 0 <= b <= 255) (data img).

(** [data[i]] as an operand: a byte, or [undefined] (NaN in arithmetic). *)
Definition byte_at (d : list Z) (i : Z) : float :=
  JS.num (JS.Z2F <$> JS.get d i).

(** [(data[idx] + data[idx + 1] + data[idx + 2]) / 3]. *)
Definition gray_at (d : list Z) (idx : Z) : float :=
  ((byte_at d idx + byte_at d (idx + 1) + byte_at d (idx + 2)) / 3)%float.

(* ===================================================================== *)
(** * ImageUtils (utils.js) *)
(* ===================================================================== *)

Module ImageUtils.

Definition sobelX : list float := [-1; 0; 1; -2; 0; 2; -1; 0; 1]%float.
Definition sobelY : list float := [-1; -2; -1; 0; 0; 0; 1; 2; 1]%float.

(** The two inner loops of [detectEdges] at pixel [(x, y)]: the pair
    [(gx, gy)]. *)
Definition sobel_at (img : ImageData) (x y : Z) : float * float :=
  JS.for_le (-1) 1 (fun ky acc =>
    JS.for_le (-1) 1 (fun kx '(gx, gy) =>
      let idx := ((y + ky) * width img + (x + kx)) * 4 in
      let gray := gray_at (data img) idx in
      let kernelIdx := (ky + 1) * 3 + (kx + 1) in
      ((gx + gray * JS.num (JS.get sobelX kernelIdx))%float,
       (gy + gray * JS.num (JS.get sobelY kernelIdx))%float)) acc)
    (0%float, 0%float).

Definition magnitude_at (img : ImageData) (x y : Z) : float :=
  let '(gx, gy) := sobel_at img x y in
  JS.Math_sqrt (gx * gx + gy * gy)%float.

(** [detectEdges(imageData)]: an array of [width*height] slots; only the
    interior ones are assigned. *)
Definition detectEdges (img : ImageData) : list (option float) :=
  JS.for_lt 1 (height img - 1) 1 (fun y edges =>
    JS.for_lt 1 (width img - 1) 1 (fun x edges =>
      JS.set edges (y * width img + x) (magnitude_at img x y)) edges)
    (JS.new_Array (width img * height img)).


(** ** getDominantColors *)

Record RGB := mkRGB { r : float; g : float; b : float }.

(** [Math.floor(c / 32) * 32]. *)
Definition quantize (c : float) : float :=
  (JS.Math_floor (c / 32) * 32)%float.

Definition colorKey (qr qg qb : float) : string :=
  (JS.Number_toString qr ++ "," ++ JS.Number_toString qg ++ ","
     ++ JS.Number_toString qb)%string.

(** The histogram [colorCounts] after the sampling loop (one sample every
    40 bytes, that is every 10th pixel). *)
Definition colorCounts (img : ImageData) : JS.obj Z :=
  let d := data img in
  JS.for_lt 0 (Z.of_nat (length d)) 40 (fun i counts =>
    let r := byte_at d i in
    let g := byte_at d (i + 1) in
    let b := byte_at d (i + 2) in
    let key := colorKey (quantize r) (quantize g) (quantize b) in
    JS.obj_set counts key (default 0 (JS.obj_get counts key) + 1)) [].

(** [color.split(',').map(Number)] destructured as [[r, g, b]]. *)
Definition parseColor (color : string) : RGB :=
  let parts := map JS.Number_of_string (JS.split_comma color) in
  mkRGB (JS.num (parts !! 0%nat)) (JS.num (parts !! 1%nat))
        (JS.num (parts !! 2%nat)).

Definition getDominantColors (img : ImageData) (numColors : nat) : list RGB :=
  map (fun e => parseColor (fst e))
    (JS.slice0 numColors
       (JS.sort (fun e1 e2 => (JS.Z2F (snd e2) - JS.Z2F (snd e1))%float)
          (colorCounts img))).

(** ** getBrightness *)

Definition getBrightness (img : ImageData) : float :=
  let d := data img in
  let '(totalBrightness, pixelCount) :=
    JS.for_lt 0 (Z.of_nat (length d)) 4 (fun i '(total, count) =>
      let r := byte_at d i in
      let g := byte_at d (i + 1) in
      let b := byte_at d (i + 2) in
      let brightness := ((0.299 * r + 0.587 * g + 0.114 * b) / 255)%float in
      ((total + brightness)%float, count + 1)) (0%float, 0) in
  (totalBrightness / JS.Z2F pixelCount)%float.

(** ** findRegionsOfInterest *)

(** A crop rectangle; a region of interest carries its [score] as well. *)
Record Region := mkRegion {
  reg_x : float;
  reg_y : float;
  reg_width : float;
  reg_height : float;
  reg_score : option float
}.

(** One window at [(x, y)]: [edgeSum / pixelCount].  The counters [wy],
    [wx] are integers compared with the Number [windowSize]; at most
    [min(width, height)] iterations are needed since
    [windowSize <= min(width, height) / 4]. *)
Definition edgeDensity (img : ImageData) (edges : list (option float))
    (windowSize x y : float) : float :=
  let fuel := Z.to_nat (Z.min (width img) (height img)) in
  let inside := fun w => (JS.Z2F w <? windowSize)%float in
  let '(edgeSum, pixelCount) :=
    JS.for_fuel fuel inside 1 (fun wy acc =>
      JS.for_fuel fuel inside 1 (fun wx '(edgeSum, pixelCount) =>
        let idx := ((y + JS.Z2F wy) * JS.Z2F (width img)
                    + (x + JS.Z2F wx))%float in
        let e := mjoin (JS.getF edges idx) in
        ((if JS.truthy e then (edgeSum + JS.num e)%float else edgeSum),
         pixelCount + 1)) 0 acc) 0 (0%float, 0) in
  (edgeSum / JS.Z2F pixelCount)%float.

(** The window origin advances by [windowSize / 2 = min(width, height) / 8],
    so [8 * height] (resp. [8 * width]) iterations exhaust the range. *)
Definition findRegionsOfInterest (img : ImageData) : list Region :=
  let edges := detectEdges img in
  let w := JS.Z2F (width img) in
  let h := JS.Z2F (height img) in
  let windowSize := (JS.Math_min w h / 4)%float in
  let rois :=
    JS.forF_fuel (Z.to_nat (8 * height img)) (h - windowSize)%float
      (windowSize / 2)%float (fun y rois =>
      JS.forF_fuel (Z.to_nat (8 * width img)) (w - windowSize)%float
        (windowSize / 2)%float (fun x rois =>
        let density := edgeDensity img edges windowSize x y in
        if JS.gt density 10
        then rois ++ [mkRegion (x / w) (y / h) (windowSize / w)
                        (windowSize / h) (Some density)]
        else rois) 0%float rois) 0%float [] in
  JS.slice0 5
    (JS.sort (fun a b => (JS.num (reg_score b) - JS.num (reg_score a))%float)
       rois).

End ImageUtils.

(* ===================================================================== *)
(** * CompositionUtils (utils.js) *)
(* ===================================================================== *)

Module CompositionUtils.

Record Point := mkPoint { pt_x : float; pt_y : float; pt_type : string }.

Definition fib : list float :=
  [1; 1; 2; 3; 5; 8; 13; 21; 34; 55; 89; 144]%float.

(** [generateFibonacciGrid(width, height)]: the loop starts at index 1. *)
Definition generateFibonacciGrid (width height : float) : list Point :=
  let last := JS.num (JS.get fib (Z.of_nat (length fib) - 1)) in
  JS.for_lt 1 (Z.of_nat (length fib)) 1 (fun i points =>
    let ratio := (JS.num (JS.get fib i) / last)%float in
    points ++ [mkPoint (ratio * width) (ratio * height) "fibonacci"]) [].

Section Spiral.
(** [Math.exp], [Math.cos] and [Math.sin]: implementation-approximated in
    ECMAScript, so any three functions on Numbers. *)
Variables Math_exp Math_cos Math_sin : float -> float.

(** The body of the loop of [generateGoldenSpiral]. *)
Definition spiralStep (width height : float) (angle : float)
    (points : list Point) : list Point :=
  let centerX := (width / 2)%float in
  let centerY := (height / 2)%float in
  let maxRadius := (JS.Math_min width height / 2)%float in
  let radius := (maxRadius * Math_exp (0.306349 * angle))%float in
  let x := (centerX + radius * Math_cos angle)%float in
  let y := (centerY + radius * Math_sin angle)%float in
  if JS.ge x 0 && (x <=? width)%float && JS.ge y 0 && (y <=? height)%float
  then points ++ [mkPoint x y "spiral"]
  else points.

(** [generateGoldenSpiral(width, height)]: the counter [angle] goes up from
    0 by 0.1 while it is below [4 * Math.PI]. *)
Definition generateGoldenSpiral (width height : float) : list Point :=
  JS.forF_fuel 200 (4 * JS.Math_PI)%float 0.1%float
    (spiralStep width height) 0%float [].
End Spiral.

(** A crop selection [{x, y, width, height}]. *)
Record Rect := mkRect {
  rect_x : float;
  rect_y : float;
  rect_width : float;
  rect_height : float
}.

(** [calculateCompositionScore(cropSelection, compositionPoints)]; [None]
    is a [null] selection. *)
Definition calculateCompositionScore (cropSelection : option Rect)
    (compositionPoints : list Point) : float :=
  match cropSelection with
  | None => 0%float
  | Some c =>
      if (length compositionPoints =? 0)%nat then 0%float
      else
        let cropCenterX := (rect_x c + rect_width c / 2)%float in
        let cropCenterY := (rect_y c + rect_height c / 2)%float in
        let score :=
          fold_left (fun score point =>
            let distance :=
              JS.Math_sqrt (JS.Math_pow2 (cropCenterX - pt_x point)
                            + JS.Math_pow2 (cropCenterY - pt_y point))%float in
            let maxDistance :=
              (JS.Math_min (rect_width c) (rect_height c) / 2)%float in
            if (distance <? maxDistance)%float
            then (score + (1 - distance / maxDistance) * 25)%float
            else score) compositionPoints 0%float in
        let aspectRatio := (rect_width c / rect_height c)%float in
        let goldenRatio := 1.618%float in
        let ratioDiff := JS.Math_abs (aspectRatio - goldenRatio) in
        let score := if (ratioDiff <? 0.1)%float then (score + 20)%float
                     else score in
        JS.Math_min 100 score
  end.

End CompositionUtils.

(* ===================================================================== *)
(** * AISuggestions (utils.js) *)
(* ===================================================================== *)

Module AISuggestions.
Import ImageUtils.

Record Suggestion := mkSuggestion {
  name : string;
  description : string;
  crop : Region;
  score : float
}.

Definition plainCrop (x y w h : float) : Region := mkRegion x y w h None.

(** The suggestions in the order they are pushed, before the final sort. *)
Definition pushedSuggestions (img : ImageData) : list Suggestion :=
  let brightness := getBrightness img in
  let dominantColors := getDominantColors img 5 in
  let rois := findRegionsOfInterest img in
  let s0 := [mkSuggestion "Balanced Composition"
               "Centered crop with balanced elements"
               (plainCrop 0.2 0.2 0.6 0.6) 75] in
  let s1 := match rois with
            | bestROI :: _ =>
                s0 ++ [mkSuggestion "Focus on Interest"
                         "Crop focused on the most interesting region"
                         bestROI 85]
            | [] => s0
            end in
  let s2 := if (brightness <? 0.4)%float
            then s1 ++ [mkSuggestion "Dark Image Enhancement"
                          "Crop to emphasize brighter areas"
                          (plainCrop 0.1 0.1 0.8 0.8) 70]
            else s1 in
  let s3 := s2 ++ [mkSuggestion "Rule of Thirds"
                     "Classic composition following rule of thirds"
                     (plainCrop 0.33 0.33 0.34 0.34) 80] in
  let goldenRatio := 1.618%float in
  let cropWidth := 0.6%float in
  let cropHeight := (cropWidth / goldenRatio)%float in
  s3 ++ [mkSuggestion "Golden Ratio" "Crop following the golden ratio"
           (plainCrop 0.2 0.2 cropWidth cropHeight) 90].

(** [generateCropSuggestions(imageData, width, height)]; the two last
    parameters are not used by the code. *)
Definition generateCropSuggestions (img : ImageData) (width height : float)
    : list Suggestion :=
  JS.sort (fun a b => (score b - score a)%float) (pushedSuggestions img).

End AISuggestions.

(* ===================================================================== *)
(** * AIComposer *)
(* ===================================================================== *)

Module AIComposer.

(** The crop selection handed over by the cropping surface; [None] is the
    default [null]. *)
Record CropSelection := mkCrop {
  sel_x : float;
  sel_y : float;
  sel_width : float;
  sel_height : float
}.

(** The composer's own [detectEdges] is, line for line, the method of
    [ImageUtils]. *)
Definition detectEdges : ImageData -> list (option float) :=
  ImageUtils.detectEdges.

(** [data[idx]] as an operand when the index is a Number. *)
Definition byte_atF (d : list Z) (idx : float) : float :=
  JS.num (JS.Z2F <$> JS.getF d idx).

(** ** The six composition rules *)

Definition ruleOfThirdsAnalysis (img : ImageData) (cropSelection : option CropSelection)
    : float :=
  match cropSelection with
  | None => 0.5%float
  | Some c =>
      let width := JS.Z2F (width img) in
      let height := JS.Z2F (height img) in
      let thirdX := (width / 3)%float in
      let thirdY := (height / 3)%float in
      let cropCenterX := (sel_x c + sel_width c / 2)%float in
      let cropCenterY := (sel_y c + sel_height c / 2)%float in
      let intersections :=
        [(thirdX, thirdY); ((2 * thirdX)%float, thirdY);
         (thirdX, (2 * thirdY)%float); ((2 * thirdX)%float, (2 * thirdY)%float)] in
      fold_left (fun bestScore p =>
        let distance :=
          JS.Math_sqrt (JS.Math_pow2 (cropCenterX - fst p)
                        + JS.Math_pow2 (cropCenterY - snd p))%float in
        let score :=
          JS.Math_max 0 (1 - distance / (JS.Math_min width height / 4))%float in
        JS.Math_max bestScore score) intersections 0%float
  end.

Definition goldenRatioAnalysis (img : ImageData) (cropSelection : option CropSelection)
    : float :=
  match cropSelection with
  | None => 0.5%float
  | Some c =>
      let goldenRatio := 1.618%float in
      let cropRatio := (sel_width c / sel_height c)%float in
      let ratioDifference := JS.Math_abs (cropRatio - goldenRatio) in
      JS.Math_max 0 (1 - ratioDifference / goldenRatio)%float
  end.

Definition symmetryAnalysis (img : ImageData) (cropSelection : option CropSelection)
    : float :=
  let w := width img in
  let d := data img in
  let '(symmetryScore, totalPixels) :=
    JS.for_lt 0 (height img) 1 (fun y acc =>
      JS.for_fuel (Z.to_nat w) (fun x => (JS.Z2F x <? JS.Z2F w / 2)%float) 1
        (fun x '(symmetryScore, totalPixels) =>
          let leftIdx := (y * w + x) * 4 in
          let rightIdx := (y * w + (w - 1 - x)) * 4 in
          let leftBrightness := gray_at d leftIdx in
          let rightBrightness := gray_at d rightIdx in
          let difference :=
            (JS.Math_abs (leftBrightness - rightBrightness) / 255)%float in
          ((symmetryScore + (1 - difference))%float, totalPixels + 1)) 0 acc)
      (0%float, 0) in
  (symmetryScore / JS.Z2F totalPixels)%float.

(** [edges[i] > t]: an empty slot reads [undefined] and compares false. *)
Definition edge_gt (edges : list (option float)) (i : Z) (t : float) : bool :=
  JS.gt (JS.num (mjoin (JS.get edges i))) t.

(** The two counters of the scan loops of [leadingLinesAnalysis] and
    [analyzeVisualInterest]: entries above [t], entries visited. *)
Definition countAbove (img : ImageData) (edges : list (option float)) (t : float)
    : Z * Z :=
  JS.for_lt 0 (height img) 1 (fun y acc =>
    JS.for_lt 0 (width img) 1 (fun x '(hits, totalPixels) =>
      ((if edge_gt edges (y * width img + x) t then hits + 1 else hits),
       totalPixels + 1)) acc) (0, 0).

Definition leadingLinesAnalysis (img : ImageData) (cropSelection : option CropSelection)
    : float :=
  let edges := detectEdges img in
  let '(leadingLinePixels, totalPixels) := countAbove img edges 50 in
  JS.Math_min 1 (JS.Z2F leadingLinePixels / (JS.Z2F totalPixels * 0.1))%float.

(** [calculateVisualWeight(data, x, y, width, height)]: the row stride is
    taken to be [Math.sqrt(data.length / 4)]. *)
Definition calculateVisualWeight (d : list Z) (x y width height : float) : float :=
  let startX := JS.toZ (JS.Math_floor x) in
  let startY := JS.toZ (JS.Math_floor y) in
  let endX := JS.toZ (JS.Math_floor (x + width)) in
  let endY := JS.toZ (JS.Math_floor (y + height)) in
  let len := JS.Z2F (Z.of_nat (length d)) in
  JS.for_lt startY endY 1 (fun py weight =>
    JS.for_lt startX endX 1 (fun px weight =>
      let idx := ((JS.Z2F py * JS.Math_sqrt (len / 4) + JS.Z2F px) * 4)%float in
      if (idx <? len - 3)%float then
        let brightness :=
          ((byte_atF d idx + byte_atF d (idx + 1) + byte_atF d (idx + 2)) / 3)%float in
        (weight + brightness)%float
      else weight) weight) 0%float.

Definition balanceAnalysis (img : ImageData) (cropSelection : option CropSelection)
    : float :=
  let width := JS.Z2F (width img) in
  let height := JS.Z2F (height img) in
  let d := data img in
  let leftWeight := calculateVisualWeight d 0 0 (width / 2) height in
  let rightWeight := calculateVisualWeight d (width / 2) 0 (width / 2) height in
  let topWeight := calculateVisualWeight d 0 0 width (height / 2) in
  let bottomWeight := calculateVisualWeight d 0 (height / 2) width (height / 2) in
  let horizontalBalance :=
    (1 - JS.Math_abs (leftWeight - rightWeight)
         / JS.Math_max leftWeight rightWeight)%float in
  let verticalBalance :=
    (1 - JS.Math_abs (topWeight - bottomWeight)
         / JS.Math_max topWeight bottomWeight)%float in
  ((horizontalBalance + verticalBalance) / 2)%float.

Definition depthAnalysis (img : ImageData) (cropSelection : option CropSelection)
    : float :=
  let d := data img in
  let '(sharpPixels, totalPixels) :=
    JS.for_lt 0 (Z.of_nat (length d)) 4 (fun i '(sharpPixels, totalPixels) =>
      let r := byte_at d i in
      let g := byte_at d (i + 1) in
      let b := byte_at d (i + 2) in
      let contrast :=
        (JS.Math_abs (r - g) + JS.Math_abs (g - b) + JS.Math_abs (b - r))%float in
      ((if JS.gt contrast 30 then sharpPixels + 1 else sharpPixels),
       totalPixels + 1)) (0, 0) in
  (JS.Z2F sharpPixels / JS.Z2F totalPixels)%float.

(** The rule registry built by the constructor, in key order. *)
Definition compositionRules
    : JS.obj (ImageData -> option CropSelection -> float) :=
  [("ruleOfThirds", ruleOfThirdsAnalysis);
   ("goldenRatio", goldenRatioAnalysis);
   ("symmetry", symmetryAnalysis);
   ("leadingLines", leadingLinesAnalysis);
   ("balance", balanceAnalysis);
   ("depth", depthAnalysis)]%string.

(** The loop of [analyzeCompositionRules]: the local [scores] object and
    the running [totalScore]. *)
Definition ruleScores (img : ImageData) (cropSelection : option CropSelection)
    : JS.obj float * float :=
  fold_left (fun '(scores, totalScore) entry =>
    let scores := JS.obj_set scores (fst entry) (snd entry img cropSelection) in
    (scores, (totalScore + JS.num (JS.obj_get scores (fst entry)))%float))
    compositionRules ([], 0%float).

Definition analyzeCompositionRules (img : ImageData)
    (cropSelection : option CropSelection) : float :=
  (snd (ruleScores img cropSelection)
   / JS.Z2F (Z.of_nat (length compositionRules)))%float.

(** ** Technical and artistic aspects *)

Definition analyzeTechnicalAspects (img : ImageData) : float :=
  let d := data img in
  let n := (JS.Z2F (Z.of_nat (length d)) / 4)%float in
  let edges := detectEdges img in
  (* [filter] skips the empty slots *)
  let edgePixels :=
    length (filter (fun e => JS.gt (JS.num e) 30 = true) edges) in
  let sharpness :=
    (JS.Z2F (Z.of_nat edgePixels) / JS.Z2F (Z.of_nat (length edges)))%float in
  let totalBrightness :=
    JS.for_lt 0 (Z.of_nat (length d)) 4 (fun i total =>
      (total + gray_at d i)%float) 0%float in
  let exposure := (totalBrightness / n / 255)%float in
  let avgBrightness := (totalBrightness / n)%float in
  let brightnessVariance :=
    JS.for_lt 0 (Z.of_nat (length d)) 4 (fun i var =>
      (var + JS.Math_pow2 (gray_at d i - avgBrightness))%float) 0%float in
  let noise := (JS.Math_sqrt (brightnessVariance / n) / 255)%float in
  (sharpness * 0.4 + (1 - JS.Math_abs (exposure - 0.5) * 2) * 0.4
   + (1 - noise) * 0.2)%float.

Definition analyzeColorHarmony (d : list Z) : float :=
  let colors :=
    JS.for_lt 0 (Z.of_nat (length d)) 16 (fun i colors =>
      colors ++ [(byte_at d i, byte_at d (i + 1), byte_at d (i + 2))]) [] in
  let n := Z.of_nat (length colors) in
  let color := fun i => default (nan, nan, nan) (JS.get colors i) in
  let harmonyScore :=
    JS.for_lt 0 n 1 (fun i acc =>
      JS.for_lt (i + 1) n 1 (fun j harmonyScore =>
        let '(r1, g1, b1) := color i in
        let '(r2, g2, b2) := color j in
        let distance :=
          JS.Math_sqrt (JS.Math_pow2 (r1 - r2) + JS.Math_pow2 (g1 - g2)
                        + JS.Math_pow2 (b1 - b2))%float in
        if (distance <? 50)%float || JS.gt distance 200
        then harmonyScore + 1 else harmonyScore) acc) 0 in
  JS.Math_min 1
    (JS.Z2F harmonyScore / (JS.Z2F n * (JS.Z2F n - 1) / 2))%float.

Definition analyzeMood (d : list Z) : float :=
  let '(warmColors, coolColors, totalPixels) :=
    JS.for_lt 0 (Z.of_nat (length d)) 4 (fun i '(warm, cool, total) =>
      let r := byte_at d i in
      let g := byte_at d (i + 1) in
      let b := byte_at d (i + 2) in
      if JS.gt r g && JS.gt r b then (warm + 1, cool, total + 1)
      else if JS.gt b r && JS.gt b g then (warm, cool + 1, total + 1)
      else (warm, cool, total + 1)) (0, 0, 0) in
  let warmRatio := (JS.Z2F warmColors / JS.Z2F totalPixels)%float in
  let coolRatio := (JS.Z2F coolColors / JS.Z2F totalPixels)%float in
  (1 - JS.Math_abs (warmRatio - coolRatio))%float.

Definition analyzeVisualInterest (img : ImageData) : float :=
  let edges := detectEdges img in
  let '(interestingPixels, totalPixels) := countAbove img edges 20 in
  JS.Math_min 1 (JS.Z2F interestingPixels / (JS.Z2F totalPixels * 0.3))%float.

Definition analyzeArtisticAspects (img : ImageData) : float :=
  let colorHarmony := analyzeColorHarmony (data img) in
  let mood := analyzeMood (data img) in
  let visualInterest := analyzeVisualInterest img in
  (colorHarmony * 0.4 + mood * 0.3 + visualInterest * 0.3)%float.

(** ** analyzeComposition *)

Record Analysis := mkAnalysis {
  overallScore : float;
  strengths : list string;
  weaknesses : list string;
  suggestions : list string;
  technicalScore : float;
  artisticScore : float;
  compositionScore : float
}.

Definition generateFeedback (a : Analysis) : Analysis :=
  let push3 := fun (a : Analysis) (low : bool) (weak sugg strong : string) =>
    if low
    then mkAnalysis (overallScore a) (strengths a) (weaknesses a ++ [weak])
           (suggestions a ++ [sugg]) (technicalScore a) (artisticScore a)
           (compositionScore a)
    else mkAnalysis (overallScore a) (strengths a ++ [strong]) (weaknesses a)
           (suggestions a) (technicalScore a) (artisticScore a)
           (compositionScore a) in
  let a := push3 a (technicalScore a <? 0.6)%float
             "Image could benefit from better technical quality"%string
             "Consider improving focus and exposure"%string
             "Good technical quality"%string in
  let a := push3 a (artisticScore a <? 0.6)%float
             "Color harmony could be improved"%string
             "Try adjusting color balance or applying filters"%string
             "Strong artistic appeal"%string in
  let a := push3 a (compositionScore a <? 0.6)%float
             "Composition could be enhanced"%string
             "Consider using rule of thirds or golden ratio"%string
             "Excellent composition"%string in
  let overall :=
    if JS.ge (overallScore a) 0.8 then "This is a well-composed image!"%string
    else if JS.ge (overallScore a) 0.6 then "Good image with room for improvement"%string
    else "Consider recomposing or editing the image"%string in
  mkAnalysis (overallScore a) (strengths a) (weaknesses a)
    (suggestions a ++ [overall]) (technicalScore a) (artisticScore a)
    (compositionScore a).

Definition analyzeComposition (img : ImageData)
    (cropSelection : option CropSelection) : Analysis :=
  let technical := analyzeTechnicalAspects img in
  let artistic := analyzeArtisticAspects img in
  let composition := analyzeCompositionRules img cropSelection in
  let overall :=
    (technical * 0.3 + artistic * 0.3 + composition * 0.4)%float in
  generateFeedback (mkAnalysis overall [] [] [] technical artistic composition).

(** ** getIntelligentCropSuggestions *)

(** [analyzeComposition] is called without a crop selection.  The object
    it returns has no [balance] property, so [analysis.balance] reads
    [undefined]. *)
Definition getIntelligentCropSuggestions (img : ImageData)
    : list AISuggestions.Suggestion :=
  let width := JS.Z2F (width img) in
  let height := JS.Z2F (height img) in
  let analysis := analyzeComposition img None in
  let s0 : list AISuggestions.Suggestion := [] in
  let s1 :=
    if (compositionScore analysis <? 0.5)%float
    then s0 ++ [AISuggestions.mkSuggestion "Rule of Thirds Crop"
                  "Improve composition by following rule of thirds"
                  (AISuggestions.plainCrop (width * 0.33) (height * 0.33)
                     (width * 0.34) (height * 0.34))%float 85]
    else s0 in
  let balance : option float := None in
  let s2 :=
    if (JS.num balance <? 0.6)%float
    then s1 ++ [AISuggestions.mkSuggestion "Balanced Crop"
                  "Create better visual balance"
                  (AISuggestions.plainCrop (width * 0.2) (height * 0.2)
                     (width * 0.6) (height * 0.6))%float 80]
    else s1 in
  let goldenRatio := 1.618%float in
  let cropWidth := (width * 0.6)%float in
  let cropHeight := (cropWidth / goldenRatio)%float in
  let s3 :=
    s2 ++ [AISuggestions.mkSuggestion "Golden Ratio Crop"
             "Apply golden ratio for harmonious composition"
             (AISuggestions.plainCrop (width * 0.2) (height * 0.2)
                cropWidth cropHeight)%float 90] in
  JS.sort (fun a b => (AISuggestions.score b - AISuggestions.score a)%float) s3.

End AIComposer.

(* ===================================================================== *)
(** * AdvancedImageAnalysis *)
(* ===================================================================== *)

Module AdvancedImageAnalysis.

(** The class carries its own copy of [detectEdges], the same text
    again. *)
Definition detectEdges : ImageData -> list (option float) :=
  ImageUtils.detectEdges.

(** ** groupRegions *)

(** A classified sample point. *)
Record Sample := mkSample { x : float; y : float; score : float }.

Record Bounds := mkBounds { minX : float; minY : float; maxX : float; maxY : float }.

Record Group := mkGroup {
  regions : list Sample;
  center : float * float;
  bounds : Bounds;
  totalScore : float;
  averageScore : option float
}.

(** The callback of the inner [forEach] for the seed [region]: an unvisited
    point within [maxDistance] of the seed joins the group. *)
Definition absorbStep (maxDistance : float) (region : Sample)
    (st : Group * gset nat) (otherRegion : Sample) (otherIndex : nat)
    : Group * gset nat :=
  let '(group, visited) := st in
  if decide (otherIndex ∈ visited) then (group, visited)
  else
    let distance :=
      JS.Math_sqrt (JS.Math_pow2 (x region - x otherRegion)
                    + JS.Math_pow2 (y region - y otherRegion))%float in
    if (distance <=? maxDistance)%float then
      let bd := bounds group in
      (mkGroup (regions group ++ [otherRegion]) (center group)
         (mkBounds (JS.Math_min (minX bd) (x otherRegion))
                   (JS.Math_min (minY bd) (y otherRegion))
                   (JS.Math_max (maxX bd) (x otherRegion))
                   (JS.Math_max (maxY bd) (y otherRegion)))
         (totalScore group + score otherRegion)%float
         (averageScore group),
       {[otherIndex]} ∪ visited)
    else (group, visited).

Definition absorb (all : list Sample) (maxDistance : float) (region : Sample)
    (st : Group * gset nat) : Group * gset nat :=
  JS.forEach_i (absorbStep maxDistance region) all st.

(** The last statements of the outer callback: centre and average. *)
Definition finish (group : Group) : Group :=
  let bd := bounds group in
  mkGroup (regions group)
    (((minX bd + maxX bd) / 2)%float, ((minY bd + maxY bd) / 2)%float)
    bd (totalScore group)
    (Some (totalScore group / JS.Z2F (Z.of_nat (length (regions group))))%float).

Definition groupStep (all : list Sample) (maxDistance : float)
    (st : list Group * gset nat) (region : Sample) (index : nat)
    : list Group * gset nat :=
  let '(groups, visited) := st in
  if decide (index ∈ visited) then (groups, visited)
  else
    let group :=
      mkGroup [region] (x region, y region)
        (mkBounds (x region) (y region) (x region) (y region))
        (score region) None in
    let '(group, visited) :=
      absorb all maxDistance region (group, {[index]} ∪ visited) in
    (groups ++ [finish group], visited).

Definition groupRegions (regions : list Sample) (maxDistance : float)
    : list Group :=
  fst (JS.forEach_i (groupStep regions maxDistance) regions ([], ∅)).

(** ** calculateBalance *)

(** The scan of one quadrant [{x, y, w, h}]: [quad.weight] afterwards.
    The counters start at [quad.x], [quad.y], which are halves of the
    dimensions. *)
Definition quadrantWeight (img : ImageData) (qx qy qw qh : float) : float :=
  let d := data img in
  let w := JS.Z2F (width img) in
  JS.forF_fuel (Z.to_nat (height img)) (qy + qh)%float 1 (fun y weight =>
    JS.forF_fuel (Z.to_nat (width img)) (qx + qw)%float 1 (fun x weight =>
      let idx := ((y * w + x) * 4)%float in
      let brightness :=
        ((AIComposer.byte_atF d idx + AIComposer.byte_atF d (idx + 1)
          + AIComposer.byte_atF d (idx + 2)) / 3)%float in
      (weight + brightness)%float) qx weight) qy 0%float.

Definition calculateBalance (img : ImageData) : float :=
  let w := JS.Z2F (width img) in
  let h := JS.Z2F (height img) in
  let quadrants :=
    [(0, 0, w / 2, h / 2); (w / 2, 0, w / 2, h / 2);
     (0, h / 2, w / 2, h / 2); (w / 2, h / 2, w / 2, h / 2)]%float in
  let weights :=
    map (fun '(qx, qy, qw, qh) => quadrantWeight img qx qy qw qh) quadrants in
  let totalWeight := fold_left (fun sum q => (sum + q)%float) weights 0%float in
  let balanceScore :=
    fold_left (fun balanceScore weight =>
      let normalizedWeight := (weight / totalWeight)%float in
      (balanceScore + (1 - JS.Math_abs (normalizedWeight - 0.25)))%float)
      weights 0%float in
  (balanceScore / 4)%float.

(** ** detectLeadingLines *)

Record Line := mkLine { angle : Z; distance : Z; votes : Z }.

Record LeadingLines := mkLeadingLines { lines : list Line; lscore : float }.

Section Hough.
(** [Math.cos] and [Math.sin]: implementation-approximated in
    ECMAScript, so any pair of functions on Numbers. *)
Variables Math_cos Math_sin : float -> float.

(** The votes for the line [(angle, distance)]. *)
Definition lineVotes (img : ImageData) (edges : list (option float))
    (angle distance : Z) : Z :=
  JS.for_lt 0 (height img) 2 (fun y votes =>
    JS.for_lt 0 (width img) 2 (fun x votes =>
      if AIComposer.edge_gt edges (y * width img + x) 20 then
        let theta := (JS.Z2F angle * JS.Math_PI / 180)%float in
        let lineDistance :=
          (JS.Z2F x * Math_cos theta + JS.Z2F y * Math_sin theta)%float in
        if (JS.Math_abs (lineDistance - JS.Z2F distance) <? 5)%float
        then votes + 1 else votes
      else votes) votes) 0.

(** All lines with more than 50 votes, in scan order.  The distance
    counter is an integer compared with the Number [distances]; the
    diagonal is at most [width + height]. *)
Definition votedLines (img : ImageData) : list Line :=
  let edges := detectEdges img in
  let w := JS.Z2F (width img) in
  let h := JS.Z2F (height img) in
  let distances := JS.Math_sqrt (w * w + h * h)%float in
  JS.for_lt 0 180 5 (fun angle lines =>
    JS.for_fuel (Z.to_nat (width img + height img))
      (fun distance => (JS.Z2F distance <? distances)%float) 10
      (fun distance lines =>
        let votes := lineVotes img edges angle distance in
        if votes >? 50 then lines ++ [mkLine angle distance votes]
        else lines) 0 lines) [].

(** The returned object: [sort] reorders [lines] in place before
    [score] reads [lines[0]]. *)
Definition detectLeadingLines (img : ImageData) : LeadingLines :=
  let sorted :=
    JS.sort (fun a b => (JS.Z2F (votes b) - JS.Z2F (votes a))%float)
      (votedLines img) in
  mkLeadingLines (JS.slice0 5 sorted)
    match sorted with
    | top :: _ => JS.Math_min (JS.Z2F (votes top) / 100)%float 1
    | [] => 0%float
    end.
End Hough.

(** ** detectSubjects *)

(** [calculateSkinToneScore(r, g, b)]: a test in the YCrCb colour space. *)
Definition calculateSkinToneScore (r g b : float) : float :=
  let y := (0.299 * r + 0.587 * g + 0.114 * b)%float in
  let cr := (0.713 * (r - y) + 128)%float in
  let cb := (0.564 * (b - y) + 128)%float in
  let skinToneY := JS.ge y 80 && (y <=? 250)%float in
  let skinToneCr := JS.ge cr 133 && (cr <=? 173)%float in
  let skinToneCb := JS.ge cb 77 && (cb <=? 127)%float in
  if skinToneY && skinToneCr && skinToneCb then 0.8%float else 0.1%float.

(** The sampling loop of [detectSubjects]: every fourth pixel of every
    fourth row. *)
Definition skinToneRegions (img : ImageData) : list Sample :=
  let d := data img in
  let skinToneThreshold := 0.6%float in
  JS.for_lt 0 (height img) 4 (fun y regions =>
    JS.for_lt 0 (width img) 4 (fun x regions =>
      let idx := (y * width img + x) * 4 in
      let r := byte_at d idx in
      let g := byte_at d (idx + 1) in
      let b := byte_at d (idx + 2) in
      let skinToneScore := calculateSkinToneScore r g b in
      if JS.gt skinToneScore skinToneThreshold
      then regions ++ [mkSample (JS.Z2F x) (JS.Z2F y) skinToneScore]
      else regions) regions) [].

(** [calculateFocusScore]: [forEach] does not visit the empty slots. *)
Definition calculateFocusScore (img : ImageData) : float :=
  let edges := detectEdges img in
  let totalPixels := Z.of_nat (length edges) in
  let sharpPixels :=
    fold_left (fun sharpPixels slot =>
      match slot with
      | Some edge => if JS.gt edge 30 then sharpPixels + 1 else sharpPixels
      | None => sharpPixels
      end) edges 0 in
  (JS.Z2F sharpPixels / JS.Z2F totalPixels)%float.

(** [calculateSymmetry] is, line for line, [symmetryAnalysis] of the
    composer. *)
Definition calculateSymmetry (img : ImageData) : float :=
  AIComposer.symmetryAnalysis img None.

Record CompositionAnalysis := mkCompositionAnalysis {
  symmetry : float;
  balance : float;
  leadingLines : LeadingLines;
  overallScore : float
}.

Record Subject := mkSubject {
  subj_center : float * float;
  subj_bounds : Bounds;
  confidence : option float;
  subj_type : string
}.

Record SubjectAnalysis := mkSubjectAnalysis {
  subjects : list Subject;
  focusScore : float;
  compositionAnalysis : CompositionAnalysis
}.

Section Subjects.
Variables Math_cos Math_sin : float -> float.

Definition analyzeComposition (img : ImageData) : CompositionAnalysis :=
  let symmetryScore := calculateSymmetry img in
  let balanceScore := calculateBalance img in
  let leadingLines := detectLeadingLines Math_cos Math_sin img in
  mkCompositionAnalysis symmetryScore balanceScore leadingLines
    ((symmetryScore + balanceScore + lscore leadingLines) / 3)%float.

Definition detectSubjects (img : ImageData) : SubjectAnalysis :=
  let subjectGroups := groupRegions (skinToneRegions img) 50 in
  mkSubjectAnalysis
    (map (fun group =>
       mkSubject (center group) (bounds group) (averageScore group) "face")
       subjectGroups)
    (calculateFocusScore img)
    (analyzeComposition img).
End Subjects.

End AdvancedImageAnalysis.

(* ===================================================================== *)
(** * CreativeFilters *)
(* ===================================================================== *)

(** The filters overwrite [imageData.data] and return the same object; here
    they return the buffer after the loop. *)
Module CreativeFilters.

(** The three colour bytes read at the top of an iteration. *)
Definition pixelAt (data : list Z) (i : Z) : float * float * float :=
  (byte_at data i, byte_at data (i + 1), byte_at data (i + 2)).

(** The three assignments [data[i] = ..; data[i + 1] = ..; data[i + 2] = ..]. *)
Definition storePixel (data : list Z) (i : Z) (rgb : float * float * float)
    : list Z :=
  let '(r, g, b) := rgb in
  JS.store (JS.store (JS.store data i r) (i + 1) g) (i + 2) b.

(** ** applyVintageEffect *)

Record VintageOptions := mkVintageOptions {
  sepia : option float;
  vignette : option float;
  grain : option float
}.

Section Vintage.
(** [Math.random()]: the value of the call made while the pixel at byte
    offset [i] is processed. *)
Variable Math_random : Z -> float.

(** One iteration; [i] is a multiple of 4, so [i / 4] is the pixel
    number. *)
Definition vintageStep (width height : Z) (sepia vignette grain : float)
    (i : Z) (data : list Z) : list Z :=
  let x := JS.int_rem (i / 4) width in
  let y := JS.Math_floor (JS.Z2F (i / 4) / JS.Z2F width)%float in
  let '(r, g, b) := pixelAt data i in
  let newR := (r * 0.393 + g * 0.769 + b * 0.189)%float in
  let newG := (r * 0.349 + g * 0.686 + b * 0.168)%float in
  let newB := (r * 0.272 + g * 0.534 + b * 0.131)%float in
  let data :=
    storePixel data i
      (JS.Math_min 255 (r * (1 - sepia) + newR * sepia)%float,
       JS.Math_min 255 (g * (1 - sepia) + newG * sepia)%float,
       JS.Math_min 255 (b * (1 - sepia) + newB * sepia)%float) in
  let centerX := (JS.Z2F width / 2)%float in
  let centerY := (JS.Z2F height / 2)%float in
  let distance :=
    JS.Math_sqrt (JS.Math_pow2 (x - centerX) + JS.Math_pow2 (y - centerY))%float in
  let maxDistance := JS.Math_sqrt (centerX * centerX + centerY * centerY)%float in
  let vignetteFactor := (1 - distance / maxDistance * vignette)%float in
  let data := JS.store data i (byte_at data i * vignetteFactor)%float in
  let data := JS.store data (i + 1) (byte_at data (i + 1) * vignetteFactor)%float in
  let data := JS.store data (i + 2) (byte_at data (i + 2) * vignetteFactor)%float in
  if JS.gt grain 0 then
    let grainValue := ((Math_random i - 0.5) * 50 * grain)%float in
    let data :=
      JS.store data i
        (JS.Math_max 0 (JS.Math_min 255 (byte_at data i + grainValue)%float)) in
    let data :=
      JS.store data (i + 1)
        (JS.Math_max 0 (JS.Math_min 255 (byte_at data (i + 1) + grainValue)%float)) in
    JS.store data (i + 2)
      (JS.Math_max 0 (JS.Math_min 255 (byte_at data (i + 2) + grainValue)%float))
  else data.

Definition applyVintageEffect (img : ImageData) (options : VintageOptions)
    : ImageData :=
  let sepia := default 0.3%float (sepia options) in
  let vignette := default 0.4%float (vignette options) in
  let grain := default 0.2%float (grain options) in
  mkImageData (width img) (height img)
    (JS.for_lt 0 (Z.of_nat (length (data img))) 4
       (vintageStep (width img) (height img) sepia vignette grain) (data img)).
End Vintage.

(** ** applyDramaticLighting *)

Record LightingOptions := mkLightingOptions {
  contrast : option float;
  brightness : option float;
  highlights : option float;
  shadows : option float
}.

(** The new colour of a pixel, before it is stored. *)
Definition lightPixel (contrast brightness highlights shadows : float)
    (rgb : float * float * float) : float * float * float :=
  let '(r, g, b) := rgb in
  let luminance := (0.299 * r + 0.587 * g + 0.114 * b)%float in
  let newR := ((r - 128) * contrast + 128)%float in
  let newG := ((g - 128) * contrast + 128)%float in
  let newB := ((b - 128) * contrast + 128)%float in
  let newR := (newR + brightness * 255)%float in
  let newG := (newG + brightness * 255)%float in
  let newB := (newB + brightness * 255)%float in
  let '(newR, newG, newB) :=
    if JS.gt luminance 128
    then ((newR + highlights * 255)%float, (newG + highlights * 255)%float,
          (newB + highlights * 255)%float)
    else ((newR + shadows * 255)%float, (newG + shadows * 255)%float,
          (newB + shadows * 255)%float) in
  (JS.Math_max 0 (JS.Math_min 255 newR), JS.Math_max 0 (JS.Math_min 255 newG),
   JS.Math_max 0 (JS.Math_min 255 newB)).

Definition applyDramaticLighting (img : ImageData) (options : LightingOptions)
    : ImageData :=
  let contrast := default 1.3%float (contrast options) in
  let brightness := default 0.1%float (brightness options) in
  let highlights := default 0.2%float (highlights options) in
  let shadows := default (-0.3)%float (shadows options) in
  mkImageData (width img) (height img)
    (JS.for_lt 0 (Z.of_nat (length (data img))) 4 (fun i data =>
       storePixel data i
         (lightPixel contrast brightness highlights shadows (pixelAt data i)))
       (data img)).

(** ** applyColorGrading *)

Record Grading := mkGrading {
  gr : float;
  gg : float;
  gb : float;
  saturation : float
}.

Definition cinematic : Grading := mkGrading 1.1 0.9 0.8 1.2.

Definition presets : JS.obj Grading :=
  [("cinematic", cinematic);
   ("warm", mkGrading 1.2 1.1 0.8 1.1);
   ("cool", mkGrading 0.8 0.9 1.2 1.1);
   ("dramatic", mkGrading 1.3 0.7 0.6 1.4);
   ("vintage", mkGrading 1.1 0.8 0.7 0.8)]%string%float.



End CreativeFilters.

(* ===================================================================== *)
(** * SocialMediaPresets *)
(* ===================================================================== *)

Module SocialMediaPresets.

Record Preset := mkPreset {
  pwidth : float;
  pheight : float;
  pname : string
}.

(** [getPresets()]: platform, then format. *)
Definition getPresets : JS.obj (JS.obj Preset) :=
  [("instagram",
    [("square", mkPreset 1 1 "Instagram Square");
     ("portrait", mkPreset 4 5 "Instagram Portrait");
     ("landscape", mkPreset 1.91 1 "Instagram Landscape");
     ("story", mkPreset 9 16 "Instagram Story")]);
   ("facebook",
    [("post", mkPreset 1.91 1 "Facebook Post");
     ("cover", mkPreset 2.7 1 "Facebook Cover");
     ("profile", mkPreset 1 1 "Facebook Profile")]);
   ("twitter",
    [("post", mkPreset 16 9 "Twitter Post");
     ("header", mkPreset 3 1 "Twitter Header");
     ("profile", mkPreset 1 1 "Twitter Profile")]);
   ("linkedin",
    [("post", mkPreset 1.91 1 "LinkedIn Post");
     ("cover", mkPreset 4 1 "LinkedIn Cover");
     ("profile", mkPreset 1 1 "LinkedIn Profile")]);
   ("youtube",
    [("thumbnail", mkPreset 16 9 "YouTube Thumbnail");
     ("banner", mkPreset 6.2 1 "YouTube Banner")])]%string%float.

(** [applyPreset(cropSelection, platform, format)];
    [presets[platform]?.[format]] is read with [obj_get] (own properties,
    see [JS.Object_prototype_names]). *)
Definition applyPreset (cropSelection : AIComposer.CropSelection)
    (platform format : string) : AIComposer.CropSelection :=
  let presets := getPresets in
  match JS.obj_get presets platform ≫= fun p => JS.obj_get p format with
  | None => cropSelection
  | Some preset =>
      let w := AIComposer.sel_width cropSelection in
      let h := AIComposer.sel_height cropSelection in
      let currentRatio := (w / h)%float in
      let targetRatio := (pwidth preset / pheight preset)%float in
      let '(newWidth, newHeight) :=
        if JS.gt currentRatio targetRatio
        then (w, (w / targetRatio)%float)
        else ((h * targetRatio)%float, h) in
      AIComposer.mkCrop
        (AIComposer.sel_x cropSelection + (w - newWidth) / 2)%float
        (AIComposer.sel_y cropSelection + (h - newHeight) / 2)%float
        newWidth newHeight
  end.

End SocialMediaPresets.


(* ===================================================================== *)
(** * Notions used in the statements *)
(* ===================================================================== *)

(** ** Binary64 values by shape *)

(** The shape of a float that is finite, of sign [s], below [2^K]. *)
Definition finite_below (s : bool) (K : Z) (x : spec_float) : Prop :=
  match x with
  | S754_zero s' => s' = s
  | S754_finite s' m e => s' = s /\ Zdigits2 (Z.pos m) + e <= K
  | _ => False
  end.

(** Not NaN, and of sign [s]. *)
Definition has_sign (s : bool) (x : spec_float) : Prop :=
  match x with
  | S754_zero s' | S754_infinity s' | S754_finite s' _ _ => s' = s
  | S754_nan => False
  end.

(** Finite, of magnitude below [2^K], whatever the sign. *)
Definition mag_below (K : Z) (x : spec_float) : Prop :=
  match x with
  | S754_zero _ => True
  | S754_finite _ m e => Zdigits2 (Z.pos m) + e <= K
  | _ => False
  end.

(** A Number that is finite and of magnitude below [2^K]. *)
Definition fin (K : Z) (x : float) : Prop := mag_below K (Prim2SF x).

(** The same as a test. *)
Definition finb (K : Z) (x : float) : bool :=
  match Prim2SF x with
  | S754_zero _ => true
  | S754_finite _ m e => Zdigits2 (Z.pos m) + e <=? K
  | _ => false
  end.

(** A loop that assigns [arr[f k] = g k] for the keys [ks] in turn. *)
Definition fill {K A} (f : K -> Z) (g : K -> A) (ks : list K)
    (arr : list (option A)) : list (option A) :=
  fold_left (fun e k => JS.set e (f k) (g k)) ks arr.

(** The pixels that have a full 3x3 neighbourhood. *)
Definition interior (img : ImageData) (x y : Z) : bool :=
  (1 <=? x) && (x <? width img - 1) && (1 <=? y) && (y <? height img - 1).

(** The [(y, x)] pairs the two loops of [detectEdges] run through. *)
Definition edge_keys (img : ImageData) : list (Z * Z) :=
  seqZ 1 (height img - 1 - 1) ≫= fun y => pair y <$> seqZ 1 (width img - 1 - 1).

(** A score inside [0, 1] (NaN is outside). *)
Definition in_unit_interval (s : float) : bool :=
  ((0 <=? s) && (s <=? 1))%float.

(** The entry of one rule in the [scores] object of
    [analyzeCompositionRules]. *)
Definition subScore (rule : string) (img : ImageData)
    (cropSelection : option AIComposer.CropSelection) : option float :=
  JS.obj_get (fst (AIComposer.ruleScores img cropSelection)) rule.

(** The arithmetic mean of a list of Numbers: they are added from left to
    right and the sum is divided by their count. *)
Definition mean (xs : list float) : float :=
  match xs with
  | [] => nan
  | x :: rest =>
      (fold_left PrimFloat.add rest x / JS.Z2F (Z.of_nat (length xs)))%float
  end.

(** An array with the index of each element, as [forEach] hands them to
    its callback. *)
Definition indexed {A} (arr : list A) : list (nat * A) :=
  combine (seq 0 (length arr)) arr.

(** The elements whose index is in [V]. *)
Definition pick {A} (V : gset nat) (ixs : list (nat * A)) : list A :=
  snd <$> filter (fun ia => fst ia ∈ V) ixs.

(** [other] lies within [maxDistance] of the seed [region]. *)
Definition near (maxDistance : float) (region other : AdvancedImageAnalysis.Sample)
    : bool :=
  (JS.Math_sqrt
     (JS.Math_pow2 (AdvancedImageAnalysis.x region - AdvancedImageAnalysis.x other)
      + JS.Math_pow2 (AdvancedImageAnalysis.y region - AdvancedImageAnalysis.y other))
   <=? maxDistance)%float.

(** The summed brightness [(r + g + b) / 3] of the pixels of the rectangle
    [x0 <= x < x1], [y0 <= y < y1] of a buffer with [n] pixels per row, added
    row by row. *)
Definition regionGray (d : list Z) (n x0 x1 y0 y1 : Z) : float :=
  fold_left (fun weight y =>
    fold_left (fun weight x => (weight + gray_at d ((y * n + x) * 4))%float)
      (seqZ x0 (x1 - x0)) weight) (seqZ y0 (y1 - y0)) 0%float.

(** The Number arithmetic that [calculateVisualWeight] does on indices is
    exact for the pixel [(px, py)] of an [n] by [n] buffer: the three byte
    offsets are the integers expected and pass the bound test. *)
Definition index_exact_at (n py px : Z) : bool :=
  let len := JS.Z2F (4 * n * n) in
  let idx :=
    ((JS.Z2F py * JS.Math_sqrt (len / 4) + JS.Z2F px) * 4)%float in
  (idx <? len - 3)%float
  && bool_decide (JS.F2Z idx = Some ((py * n + px) * 4))
  && bool_decide (JS.F2Z (idx + 1)%float = Some ((py * n + px) * 4 + 1))
  && bool_decide (JS.F2Z (idx + 2)%float = Some ((py * n + px) * 4 + 2)).

(** The same for every pixel, and for the bounds of the four half-image
    rectangles [balanceAnalysis] passes. *)
Definition index_exact (n : Z) : bool :=
  forallb (fun py => forallb (fun px => index_exact_at n py px) (seqZ 0 n))
    (seqZ 0 n)
  && bool_decide (JS.toZ (JS.Math_floor 0) = 0)
  && bool_decide (JS.toZ (JS.Math_floor (0 + JS.Z2F n / 2)) = n / 2)
  && bool_decide (JS.toZ (JS.Math_floor (JS.Z2F n / 2)) = n / 2)
  && bool_decide (JS.toZ (JS.Math_floor (JS.Z2F n / 2 + JS.Z2F n / 2)) = n)
  && bool_decide (JS.toZ (JS.Math_floor (0 + JS.Z2F n)) = n).

(** Every pixel of the buffer has the colour [(r, g, b)]. *)
Definition all_pixels (img : ImageData) (r g b : Z) : Prop :=
  forall p, 0 <= p < width img * height img ->
    JS.get (data img) (4 * p) = Some r /\
    JS.get (data img) (4 * p + 1) = Some g /\
    JS.get (data img) (4 * p + 2) = Some b.

(** ** The statements as the specification words them *)

(** The edge map: a non-negative Number in every slot, exactly [0] along
    the border rows and columns. *)
Definition edgeMap_claimed (img : ImageData) : Prop :=
  let w := width img in
  let h := height img in
  forall x y, 0 <= x < w -> 0 <= y < h ->
    exists m, JS.get (ImageUtils.detectEdges img) (y * w + x) = Some (Some m) /\
      (0 <=? m)%float = true /\
      (x = 0 \/ y = 0 \/ x = w - 1 \/ y = h - 1 -> m = 0%float).

(** The balance sub-score is the quadrant formula (the one
    [calculateBalance] implements). *)
Definition balance_claimed (img : ImageData) : Prop :=
  subScore "balance" img None
  = Some (AdvancedImageAnalysis.calculateBalance img).

(** The leading-lines sub-score is the score of the Hough-style vote. *)
Definition leadingLines_claimed (Math_cos Math_sin : float -> float)
    (img : ImageData) : Prop :=
  subScore "leadingLines" img None
  = Some (AdvancedImageAnalysis.lscore
            (AdvancedImageAnalysis.detectLeadingLines Math_cos Math_sin img)).

(** ** Sample buffers *)

(** A 3x3 buffer: two black columns and one white column. *)
Definition img3 : ImageData :=
  mkImageData 3 3 (concat (map (fun v => [v; v; v; 255])
                     [0; 0; 255; 0; 0; 255; 0; 0; 255])).

(** A 2x2 buffer: white left column, black right column. *)
Definition img2 : ImageData :=
  mkImageData 2 2 [255; 255; 255; 255;  0; 0; 0; 255;
                   255; 255; 255; 255;  0; 0; 0; 255].

(** A buffer of one colour. *)
Definition uniform (w h : Z) (r g b : Z) : ImageData :=
  mkImageData w h (concat (replicate (Z.to_nat (w * h)) [r; g; b; 255])).

(** A 4x4 buffer, all black. *)
Definition black4 : ImageData := uniform 4 4 0 0 0.

(** ** The order of Numbers by shape *)

(** [x <= y] on binary64 values by shape. *)
Definition SFle (x y : spec_float) : Prop :=
  match SFcompare x y with
  | Some Lt | Some Eq => True
  | _ => False
  end.

Definition SFlt (x y : spec_float) : Prop := SFcompare x y = Some Lt.

(** ** Loops *)

(** The values the counter of [for (i = start; i < stop; i += step)]
    takes, in turn. *)
Definition counters (start stop step : Z) : list Z :=
  (fun k => start + k * step) <$> seqZ 0 ((stop - start + step - 1) / step).

(** ** Identity of Numbers *)

(** Two binary64 values are the same value, bit for bit ([+0] and [-0]
    differ, NaN is NaN). *)
Definition sf_eqb (a b : spec_float) : bool :=
  match a, b with
  | S754_zero s1, S754_zero s2 => Bool.eqb s1 s2
  | S754_infinity s1, S754_infinity s2 => Bool.eqb s1 s2
  | S754_nan, S754_nan => true
  | S754_finite s1 m1 e1, S754_finite s2 m2 e2 =>
      Bool.eqb s1 s2 && Pos.eqb m1 m2 && Z.eqb e1 e2
  | _, _ => false
  end.

Definition same (x y : float) : bool := sf_eqb (Prim2SF x) (Prim2SF y).

(** ** The colour histogram *)

(** The key under which the sample at byte offset [i] is counted. *)
Definition sampleKey (d : list Z) (i : Z) : string :=
  ImageUtils.colorKey (ImageUtils.quantize (byte_at d i))
    (ImageUtils.quantize (byte_at d (i + 1)))
    (ImageUtils.quantize (byte_at d (i + 2))).

(** The sum of the counts of a histogram. *)
Definition total (counts : JS.obj Z) : Z := foldr Z.add 0 (snd <$> counts).

(** A channel value reduced to a multiple of 32. *)
Definition step32 (c : Z) : Z := c / 32 * 32.

(** The number of counter values [0, step, 2*step, ...] below [n]. *)
Definition strides (n step : Z) : Z := Z.of_nat (length (counters 0 n step)).

(** ** Leading lines *)

(** What the scan loops of [detectLeadingLines] guarantee of a line they
    push. *)
Definition voted (img : ImageData) (l : AdvancedImageAnalysis.Line) : Prop :=
  50 < AdvancedImageAnalysis.votes l
     <= strides (height img) 2 * strides (width img) 2 /\
  0 <= AdvancedImageAnalysis.angle l < 180 /\
  AdvancedImageAnalysis.angle l mod 5 = 0 /\
  0 <= AdvancedImageAnalysis.distance l /\
  AdvancedImageAnalysis.distance l mod 10 = 0.

(** ** Subjects *)

(** Every pixel of the buffer is a grey: three equal channel bytes. *)
Definition greyscale (img : ImageData) : Prop :=
  forall p, 0 <= p < width img * height img ->
    exists v, 0 <= v <= 255 /\
      JS.get (data img) (4 * p) = Some v /\
      JS.get (data img) (4 * p + 1) = Some v /\
      JS.get (data img) (4 * p + 2) = Some v.

(** The sample [m] lies inside the bounding box [bd]. *)
Definition in_box (bd : AdvancedImageAnalysis.Bounds)
    (m : AdvancedImageAnalysis.Sample) : Prop :=
  (AdvancedImageAnalysis.minX bd <=? AdvancedImageAnalysis.x m)%float = true /\
  (AdvancedImageAnalysis.x m <=? AdvancedImageAnalysis.maxX bd)%float = true /\
  (AdvancedImageAnalysis.minY bd <=? AdvancedImageAnalysis.y m)%float = true /\
  (AdvancedImageAnalysis.y m <=? AdvancedImageAnalysis.maxY bd)%float = true.

(** A sample whose two coordinates are numbers (not NaN). *)
Definition located (m : AdvancedImageAnalysis.Sample) : Prop :=
  is_nan (AdvancedImageAnalysis.x m) = false /\
  is_nan (AdvancedImageAnalysis.y m) = false.

(** ** A loop with a Number counter *)

(** The values the counter of [JS.forF_fuel] takes. *)
Fixpoint forF_counters (fuel : nat) (stop step i : float) : list float :=
  match fuel with
  | O => []
  | S fuel' =>
      if (i <? stop)%float then i :: forF_counters fuel' stop step (i + step)%float
      else []
  end.

(** ** Presets *)

(** The platform and format names of [getPresets]. *)
Definition preset_names : list (string * string) :=
  [("instagram", "square"); ("instagram", "portrait");
   ("instagram", "landscape"); ("instagram", "story");
   ("facebook", "post"); ("facebook", "cover"); ("facebook", "profile");
   ("twitter", "post"); ("twitter", "header"); ("twitter", "profile");
   ("linkedin", "post"); ("linkedin", "cover"); ("linkedin", "profile");
   ("youtube", "thumbnail"); ("youtube", "banner")]%string.

(** ** Filters *)

(** [out] is [img] with the colour of every pixel replaced by [f] of it,
    stored byte by byte; the alpha bytes and the dimensions are those of
    [img]. *)
Definition pixelwise (f : float * float * float -> float * float * float)
    (img out : ImageData) : Prop :=
  width out = width img /\ height out = height img /\
  length (data out) = length (data img) /\
  forall p, 0 <= p < width img * height img ->
    JS.get (data out) (4 * p + 3) = JS.get (data img) (4 * p + 3) /\
    let '(r, g, b) := f (CreativeFilters.pixelAt (data img) (4 * p)) in
    JS.get (data out) (4 * p) = Some (JS.toUint8Clamp r) /\
    JS.get (data out) (4 * p + 1) = Some (JS.toUint8Clamp g) /\
    JS.get (data out) (4 * p + 2) = Some (JS.toUint8Clamp b).


(** ** Blank buffers *)

(** A Number that is [+0] or NaN. *)
Definition zero_or_nan (x : float) : Prop := x = 0%float \/ x = nan.

(** ** Sign of a rounded result *)

(** A binary64 value that is not NaN, not a zero, and of sign [s]. *)
Definition strictly (s : bool) (x : spec_float) : Prop :=
  match x with
  | S754_infinity s' | S754_finite s' _ _ => s' = s
  | _ => False
  end.

(* ===================================================================== *)
(** * Loops as folds *)
(* ===================================================================== *)

Section LoopFacts.
Context {S : Type}.
Implicit Types (body : Z -> S -> S) (s : S).

Lemma for_fuel_lt_fold body (n : nat) : forall start stop s,
  (stop - start <= Z.of_nat n) ->
  JS.for_fuel n (fun i => i <? stop) 1 body start s
  = fold_left (fun s i => body i s) (seqZ start (stop - start)) s.
Proof.
  induction n as [|n IH]; intros start stop s Hn; simpl.
  - rewrite seqZ_nil by lia. reflexivity.
  - destruct (Z.ltb_spec start stop) as [Hlt|Hge].
    + rewrite seqZ_cons by lia. simpl.
      rewrite IH by lia. do 2 f_equal; lia.
    + rewrite seqZ_nil by lia. reflexivity.
Qed.

(** A [for (i = start; i < stop; i++)] loop visits [start .. stop-1]. *)
Lemma for_lt_fold body start stop s :
  JS.for_lt start stop 1 body s
  = fold_left (fun s i => body i s) (seqZ start (stop - start)) s.
Proof. unfold JS.for_lt. apply for_fuel_lt_fold. lia. Qed.

Lemma for_le_fold body start stop s :
  JS.for_le start stop body s
  = fold_left (fun s i => body i s) (seqZ start (stop + 1 - start)) s.
Proof.
  unfold JS.for_le.
  assert (E : forall (n : nat) a s0, stop + 1 - a <= Z.of_nat n ->
    JS.for_fuel n (fun i => i <=? stop) 1 body a s0
    = fold_left (fun s i => body i s) (seqZ a (stop + 1 - a)) s0).
  { induction n as [|n IH]; intros a s0 Hn; simpl.
    - rewrite seqZ_nil by lia. reflexivity.
    - destruct (Z.leb_spec a stop) as [Hle|Hgt].
      + rewrite seqZ_cons by lia. simpl.
        rewrite IH by lia. do 2 f_equal; lia.
      + rewrite seqZ_nil by lia. reflexivity. }
  apply E. lia.
Qed.

(** Invariant rule for a stepped loop: [P i s] relates the counter to the
    state; on exit the counter has reached [stop]. *)
Lemma for_lt_invariant (P : Z -> S -> Prop) body start stop step s :
  1 <= step ->
  P start s ->
  (forall i s, start <= i < stop -> P i s -> P (i + step) (body i s)) ->
  exists i, start <= i /\ stop <= i /\ (i = start \/ i < stop + step) /\
            P i (JS.for_lt start stop step body s).
Proof.
  intros Hstep H0 Hbody. unfold JS.for_lt.
  assert (E : forall (n : nat) a s0, start <= a -> stop - a <= Z.of_nat n ->
    (a = start \/ a < stop + step) -> P a s0 ->
    exists i, start <= i /\ stop <= i /\ (i = start \/ i < stop + step) /\
      P i (JS.for_fuel n (fun i => i <? stop) step body a s0)).
  { induction n as [|n IH]; intros a s0 Ha Hn Hor HP; simpl.
    - exists a. repeat split; auto; lia.
    - destruct (Z.ltb_spec a stop) as [Hlt|Hge].
      + apply IH; try lia. apply Hbody; auto; lia.
      + exists a. repeat split; auto. }
  apply E; auto; lia.
Qed.

Lemma fold_left_ext_in {K} (F G : S -> K -> S) (ks : list K) : forall s,
  (forall s k, k ∈ ks -> F s k = G s k) ->
  fold_left F ks s = fold_left G ks s.
Proof.
  induction ks as [|k ks IH]; intros s HFG; simpl; [reflexivity|].
  rewrite HFG by left. apply IH. intros s' k' Hk'. apply HFG. now right.
Qed.

(** Two nested folds are one fold over the pairs, row by row. *)
Lemma fold_left_nested {K1 K2} (F : K1 -> K2 -> S -> S) (xs : list K2) :
  forall (ys : list K1) s,
  fold_left (fun s y => fold_left (fun s x => F y x s) xs s) ys s
  = fold_left (fun s p => F (fst p) (snd p) s)
      (ys ≫= fun y => pair y <$> xs) s.
Proof.
  induction ys as [|y ys IH]; intros s; simpl; [reflexivity|].
  rewrite fold_left_app, <- IH. f_equal.
  generalize s. clear. induction xs as [|x xs IHx]; intros s; simpl; auto.
Qed.
End LoopFacts.

(* ===================================================================== *)
(** * Arrays with holes *)
(* ===================================================================== *)

Section ArrayFacts.
Context {A : Type}.
Implicit Types (arr : list (option A)).

Lemma length_set_in arr i v :
  0 <= i < Z.of_nat (length arr) -> length (JS.set arr i v) = length arr.
Proof.
  intros Hi. unfold JS.set.
  destruct (Z.ltb_spec i 0); [lia|].
  destruct (Z.ltb_spec i (Z.of_nat (length arr))); [|lia].
  apply length_insert.
Qed.

Lemma get_set_eq arr i v :
  0 <= i < Z.of_nat (length arr) -> JS.get (JS.set arr i v) i = Some (Some v).
Proof.
  intros Hi. unfold JS.set, JS.get.
  destruct (Z.ltb_spec i 0); [lia|].
  destruct (Z.ltb_spec i (Z.of_nat (length arr))); [|lia].
  apply list_lookup_insert_eq. lia.
Qed.

Lemma get_set_ne arr i j v :
  0 <= i < Z.of_nat (length arr) -> i <> j -> JS.get (JS.set arr i v) j = JS.get arr j.
Proof.
  intros Hi Hne. unfold JS.set, JS.get.
  destruct (Z.ltb_spec i 0); [lia|].
  destruct (Z.ltb_spec i (Z.of_nat (length arr))); [|lia].
  destruct (Z.ltb_spec j 0); [reflexivity|].
  apply list_lookup_insert_ne. lia.
Qed.

Lemma get_new_Array n i :
  0 <= i < n -> JS.get (@JS.new_Array A n) i = Some None.
Proof.
  intros Hi. unfold JS.get, JS.new_Array.
  destruct (Z.ltb_spec i 0); [lia|].
  apply lookup_replicate_2. lia.
Qed.

(** A loop that assigns [arr[f k] = g k] for the keys [ks], all inside
    the array. *)
Section Fill.
Context {K : Type} (f : K -> Z) (g : K -> A).

Lemma length_fill ks : forall arr,
  (forall k, k ∈ ks -> 0 <= f k < Z.of_nat (length arr)) ->
  length (fill f g ks arr) = length arr.
Proof.
  induction ks as [|k ks IH]; intros arr Hin; simpl; [reflexivity|].
  unfold fill in *. simpl.
  rewrite IH.
  - apply length_set_in, Hin. left.
  - intros k' Hk'. rewrite length_set_in by (apply Hin; left).
    apply Hin. now right.
Qed.

Lemma get_fill_miss ks i : forall arr,
  (forall k, k ∈ ks -> 0 <= f k < Z.of_nat (length arr)) ->
  (forall k, k ∈ ks -> f k <> i) ->
  JS.get (fill f g ks arr) i = JS.get arr i.
Proof.
  induction ks as [|k ks IH]; intros arr Hin Hne; [reflexivity|].
  unfold fill in *. simpl.
  rewrite IH.
  - apply get_set_ne; [apply Hin; left | apply Hne; left].
  - intros k' Hk'. rewrite length_set_in by (apply Hin; left).
    apply Hin. now right.
  - intros k' Hk'. apply Hne. now right.
Qed.

Lemma get_fill_hit ks k arr :
  (forall k', k' ∈ ks -> 0 <= f k' < Z.of_nat (length arr)) ->
  (forall k', k' ∈ ks -> f k' = f k -> g k' = g k) ->
  k ∈ ks ->
  JS.get (fill f g ks arr) (f k) = Some (Some (g k)).
Proof.
  revert k. induction ks as [|k1 ks IH] using rev_ind; intros k Hin Hg Hk.
  - inversion Hk.
  - unfold fill in *. rewrite fold_left_app. simpl.
    assert (Hlen : length (fold_left (fun e k => JS.set e (f k) (g k)) ks arr)
                   = length arr).
    { apply length_fill. intros k' Hk'. apply Hin.
      apply elem_of_app. now left. }
    assert (Hk1 : 0 <= f k1 < Z.of_nat (length arr)).
    { apply Hin. apply elem_of_app. right. left. }
    destruct (Z.eq_dec (f k1) (f k)) as [E|NE].
    + rewrite <- E. rewrite get_set_eq by (rewrite Hlen; exact Hk1).
      do 2 f_equal. apply Hg; [|exact E].
      apply elem_of_app. right. left.
    + rewrite get_set_ne by (rewrite ?Hlen; auto).
      apply IH.
      * intros k' Hk'. apply Hin. apply elem_of_app. now left.
      * intros k' Hk'. apply Hg. apply elem_of_app. now left.
      * apply elem_of_app in Hk. destruct Hk as [Hk|Hk]; [exact Hk|].
        apply list_elem_of_singleton in Hk. congruence.
Qed.
End Fill.
End ArrayFacts.

(* ===================================================================== *)
(** * Magnitude of binary64 values, from the specification of the format *)
(* ===================================================================== *)

Lemma digits2_pos_bounds p :
  2 ^ (Z.pos (digits2_pos p) - 1) <= Z.pos p < 2 ^ Z.pos (digits2_pos p).
Proof.
  induction p as [p IH|p IH|]; simpl digits2_pos.
  - rewrite Pos2Z.inj_succ.
    replace (Z.succ (Z.pos (digits2_pos p)) - 1) with (Z.succ (Z.pos (digits2_pos p) - 1)) by lia.
    rewrite !Z.pow_succ_r by lia. lia.
  - rewrite Pos2Z.inj_succ.
    replace (Z.succ (Z.pos (digits2_pos p)) - 1) with (Z.succ (Z.pos (digits2_pos p) - 1)) by lia.
    rewrite !Z.pow_succ_r by lia. lia.
  - simpl. lia.
Qed.

(** A non-negative integer has at most [k] binary digits iff it is below
    [2^k]. *)
Lemma Zdigits2_le m k : 0 <= m -> 0 <= k -> Zdigits2 m <= k <-> m < 2 ^ k.
Proof.
  intros Hm Hk. destruct m as [|p|p]; [|clear Hm|lia].
  - simpl. split; [intros _; apply Z.pow_pos_nonneg; lia | lia].
  - simpl Zdigits2. pose proof (digits2_pos_bounds p) as [Hlo Hhi]. split.
    + intros Hd. eapply Z.lt_le_trans; [exact Hhi|].
      apply Z.pow_le_mono_r; lia.
    + intros Hlt. destruct (Z_le_gt_dec (Z.pos (digits2_pos p)) k) as [|Hgt]; [assumption|].
      exfalso. assert (2 ^ k <= 2 ^ (Z.pos (digits2_pos p) - 1))
        by (apply Z.pow_le_mono_r; lia). lia.
Qed.

Lemma Zdigits2_nonneg m : 0 <= Zdigits2 m.
Proof. destruct m; simpl; lia. Qed.

Lemma Zdigits2_mono m n : 0 <= m <= n -> Zdigits2 m <= Zdigits2 n.
Proof.
  intros [Hm Hmn]. apply Zdigits2_le; [lia|apply Zdigits2_nonneg|].
  eapply Z.le_lt_trans; [exact Hmn|].
  apply Zdigits2_le; [lia|apply Zdigits2_nonneg|lia].
Qed.

(** Halving drops a digit. *)
Lemma Zdigits2_div_pow2 m n :
  0 <= m -> 0 <= n -> Zdigits2 (m / 2 ^ n) <= Z.max 0 (Zdigits2 m - n).
Proof.
  intros Hm Hn.
  assert (H0 : 0 <= m / 2 ^ n) by (apply Z.div_pos; [lia|apply Z.pow_pos_nonneg; lia]).
  apply Zdigits2_le; [exact H0|lia|].
  assert (Hlt : m < 2 ^ Zdigits2 m)
    by (apply Zdigits2_le; [lia|apply Zdigits2_nonneg|lia]).
  apply Z.div_lt_upper_bound; [apply Z.pow_pos_nonneg; lia|].
  rewrite <- Z.pow_add_r by lia.
  eapply Z.lt_le_trans; [exact Hlt|]. apply Z.pow_le_mono_r; lia.
Qed.

Lemma Zdigits2_succ m : 0 <= m -> Zdigits2 (m + 1) <= Zdigits2 m + 1.
Proof.
  intros Hm. apply Zdigits2_le; [lia|pose proof (Zdigits2_nonneg m); lia|].
  assert (Hlt : m < 2 ^ Zdigits2 m)
    by (apply Zdigits2_le; [lia|apply Zdigits2_nonneg|lia]).
  rewrite Z.pow_add_r by (pose proof (Zdigits2_nonneg m); lia).
  assert (0 < 2 ^ Zdigits2 m) by (apply Z.pow_pos_nonneg; [lia|apply Zdigits2_nonneg]).
  change (2 ^ 1) with 2. lia.
Qed.

(** ** Shifting right *)

Lemma shr_1_m mrs : 0 <= shr_m mrs -> shr_m (shr_1 mrs) = shr_m mrs / 2.
Proof.
  destruct mrs as [m r s]. simpl. intros Hm.
  destruct m as [|[p|p|]|p]; simpl shr_m; try reflexivity; try lia.
  - apply Z.div_unique with (r := 1); lia.
  - apply Z.div_unique with (r := 0); lia.
Qed.

Lemma iter_pos_shr_1_m p : forall mrs,
  0 <= shr_m mrs ->
  shr_m (SpecFloat.iter_pos shr_1 p mrs) = shr_m mrs / 2 ^ Z.pos p.
Proof.
  assert (Hnn : forall mrs, 0 <= shr_m mrs -> 0 <= shr_m (shr_1 mrs)).
  { intros mrs H. rewrite shr_1_m by exact H. apply Z.div_pos; lia. }
  induction p as [p IH|p IH|]; intros mrs Hm; simpl SpecFloat.iter_pos.
  - assert (H1 := Hnn mrs Hm).
    assert (H2 : 0 <= shr_m (SpecFloat.iter_pos shr_1 p (shr_1 mrs))).
    { rewrite IH by exact H1. apply Z.div_pos; [lia|apply Z.pow_pos_nonneg; lia]. }
    rewrite IH by exact H2. rewrite IH by exact H1. rewrite shr_1_m by exact Hm.
    assert (E : 2 ^ Z.pos p~1 = 2 * (2 ^ Z.pos p * 2 ^ Z.pos p)).
    { replace (Z.pos p~1) with (1 + (Z.pos p + Z.pos p)) by lia.
      rewrite !Z.pow_add_r by lia. reflexivity. }
    rewrite E, !Z.div_div by (try apply Z.pow_pos_nonneg; lia).
    reflexivity.
  - assert (H2 : 0 <= shr_m (SpecFloat.iter_pos shr_1 p mrs)).
    { rewrite IH by exact Hm. apply Z.div_pos; [lia|apply Z.pow_pos_nonneg; lia]. }
    rewrite IH by exact H2. rewrite IH by exact Hm.
    assert (E : 2 ^ Z.pos p~0 = 2 ^ Z.pos p * 2 ^ Z.pos p).
    { replace (Z.pos p~0) with (Z.pos p + Z.pos p) by lia.
      rewrite !Z.pow_add_r by lia. reflexivity. }
    rewrite E, !Z.div_div by (try apply Z.pow_pos_nonneg; lia).
    reflexivity.
  - rewrite shr_1_m by exact Hm. reflexivity.
Qed.

Lemma shr_record_of_loc_m m l : shr_m (shr_record_of_loc m l) = m.
Proof. destruct l as [|[| |]]; reflexivity. Qed.

(** [shr_fexp] keeps the mantissa non-negative and does not raise the
    magnitude; its exponent is the old one or the canonical one. *)
Lemma shr_fexp_bounds m e l :
  0 <= m ->
  let '(mrs, e') := shr_fexp prec emax m e l in
  0 <= shr_m mrs /\
  Zdigits2 (shr_m mrs) + e' <= Z.max (Zdigits2 m + e) (-1074) /\
  (e' = e \/ e' = fexp prec emax (Zdigits2 m + e)).
Proof.
  intros Hm. unfold shr_fexp, shr.
  set (n := fexp prec emax (Zdigits2 m + e) - e).
  destruct n as [|p|p] eqn:En.
  - rewrite shr_record_of_loc_m. repeat split; auto; lia.
  - rewrite iter_pos_shr_1_m by (rewrite shr_record_of_loc_m; exact Hm).
    rewrite shr_record_of_loc_m.
    split; [apply Z.div_pos; [lia|apply Z.pow_pos_nonneg; lia]|].
    split; [|right; lia].
    pose proof (Zdigits2_div_pow2 m (Z.pos p) Hm ltac:(lia)).
    pose proof (Zdigits2_nonneg m).
    unfold fexp, SpecFloat.emin, prec, emax in n. lia.
  - rewrite shr_record_of_loc_m. repeat split; auto; lia.
Qed.

Lemma round_nearest_even_bounds m l :
  m <= round_nearest_even m l <= m + 1.
Proof.
  unfold round_nearest_even. destruct l as [|[| |]]; try lia.
  destruct (Z.even m); lia.
Qed.

(** Rounding raises the magnitude by one binade at most, and stays finite
    while that is below [2^1024]. *)
Lemma binary_round_aux_finite s m e l K :
  0 <= m -> e <= 971 -> Zdigits2 m + e <= K -> -1074 <= K -> K + 1 <= 1024 ->
  finite_below s (K + 1) (binary_round_aux prec emax s m e l).
Proof.
  intros Hm He HT HK0 HK. unfold binary_round_aux.
  pose proof (shr_fexp_bounds m e l Hm) as H1.
  destruct (shr_fexp prec emax m e l) as [mrs' e'].
  destruct H1 as (Hm' & HT' & He').
  set (m1 := round_nearest_even (shr_m mrs') (loc_of_shr_record mrs')).
  pose proof (round_nearest_even_bounds (shr_m mrs') (loc_of_shr_record mrs')) as Hr.
  fold m1 in Hr.
  assert (Hm1 : 0 <= m1) by lia.
  pose proof (shr_fexp_bounds m1 e' loc_Exact Hm1) as H2.
  destruct (shr_fexp prec emax m1 e' loc_Exact) as [mrs'' e''].
  destruct H2 as (Hm'' & HT'' & He'').
  assert (Hd1 : Zdigits2 m1 <= Zdigits2 (shr_m mrs') + 1).
  { etransitivity; [apply (Zdigits2_mono m1 (shr_m mrs' + 1)); lia|].
    apply Zdigits2_succ. exact Hm'. }
  assert (He'b : e' <= 971).
  { destruct He' as [->| ->]; [exact He|].
    unfold fexp, SpecFloat.emin, prec, emax. lia. }
  destruct (shr_m mrs'') as [|p|p] eqn:Ep; simpl; [reflexivity| |lia].
  assert (He''b : e'' <= 971).
  { destruct He'' as [->| ->]; [exact He'b|].
    unfold fexp, SpecFloat.emin, prec, emax. lia. }
  match goal with |- context [?a <=? ?b] =>
    destruct (Z.leb_spec a b) as [_|Hgt]; [|unfold emax, prec in Hgt; lia]
  end.
  simpl. split; [reflexivity|]. simpl in HT''. lia.
Qed.

(** Rounding a non-negative mantissa never yields NaN, and keeps the
    sign. *)
Lemma binary_round_aux_sign s m e l :
  0 <= m -> has_sign s (binary_round_aux prec emax s m e l).
Proof.
  intros Hm. unfold binary_round_aux.
  pose proof (shr_fexp_bounds m e l Hm) as H1.
  destruct (shr_fexp prec emax m e l) as [mrs' e'].
  destruct H1 as (Hm' & _ & _).
  pose proof (round_nearest_even_bounds (shr_m mrs') (loc_of_shr_record mrs')) as Hr.
  pose proof (shr_fexp_bounds (round_nearest_even (shr_m mrs') (loc_of_shr_record mrs'))
                e' loc_Exact ltac:(lia)) as H2.
  destruct (shr_fexp prec emax _ e' loc_Exact) as [mrs'' e''].
  destruct H2 as (Hm'' & _ & _).
  destruct (shr_m mrs'') as [|p|p]; [reflexivity| |simpl in Hm''; lia].
  destruct (e'' <=? emax - prec); reflexivity.
Qed.

(** ** Operations *)

Lemma finite_below_mag s K x : finite_below s K x -> mag_below K x.
Proof. destruct x; simpl; tauto. Qed.

Lemma mag_below_mono K K' x : K <= K' -> mag_below K x -> mag_below K' x.
Proof. destruct x; simpl; auto; lia. Qed.

Lemma valid_exponent s m e :
  valid_binary (S754_finite s m e) = true ->
  e <= 971 /\ e = Z.max (Zdigits2 (Z.pos m) + e - 53) (-1074).
Proof.
  unfold valid_binary, bounded, canonical_mantissa, fexp, SpecFloat.emin, prec, emax.
  intros H. apply andb_prop in H as [H1 H2].
  apply Z.eqb_eq in H1. apply Z.leb_le in H2.
  change (Zdigits2 (Z.pos m)) with (Z.pos (digits2_pos m)).
  change (IntDef.Z.max ?a ?b) with (Z.max a b) in H1. lia.
Qed.

Lemma iter_xO_spec m d :
  Z.pos (Pos.iter xO m d) = Z.pos m * 2 ^ Z.pos d.
Proof.
  induction d as [|d IH] using Pos.peano_ind.
  - change (2 ^ 1) with 2. simpl. lia.
  - rewrite Pos.iter_succ, Pos2Z.inj_xO, IH, Pos2Z.inj_succ.
    rewrite Z.pow_succ_r by lia. lia.
Qed.

Lemma Zdigits2_mul_pow2 m d :
  0 < m -> 0 <= d -> Zdigits2 (m * 2 ^ d) = Zdigits2 m + d.
Proof.
  intros Hm Hd.
  assert (Hp : 0 < 2 ^ d) by (apply Z.pow_pos_nonneg; lia).
  destruct m as [|p|p]; try lia.
  pose proof (digits2_pos_bounds p) as [Hlo Hhi].
  assert (Hprod : 0 < Z.pos p * 2 ^ d) by lia.
  destruct (Z.pos p * 2 ^ d) as [|q|q] eqn:Eq; try lia.
  pose proof (digits2_pos_bounds q) as [Hlo' Hhi']. rewrite <- Eq in Hlo', Hhi'.
  simpl Zdigits2.
  destruct (Z.lt_trichotomy (Z.pos (digits2_pos q)) (Z.pos (digits2_pos p) + d))
    as [Hlt|[Heq|Hgt]]; [exfalso|exact Heq|exfalso].
  - assert (2 ^ Z.pos (digits2_pos q)
            <= 2 ^ (Z.pos (digits2_pos p) - 1 + d))
      by (apply Z.pow_le_mono_r; lia).
    rewrite Z.pow_add_r in * by lia. nia.
  - assert (2 ^ (Z.pos (digits2_pos p) + d)
            <= 2 ^ (Z.pos (digits2_pos q) - 1))
      by (apply Z.pow_le_mono_r; lia).
    rewrite Z.pow_add_r in * by lia. nia.
Qed.

Lemma shl_align_spec mx ex ex' :
  let '(mz, ez) := shl_align mx ex ex' in
  ez <= ex /\ Z.pos mz = Z.pos mx * 2 ^ (ex - ez) /\
  Zdigits2 (Z.pos mz) + ez = Zdigits2 (Z.pos mx) + ex /\
  (ex' <= ex -> ez = ex').
Proof.
  unfold shl_align. destruct (ex' - ex) as [|d|d] eqn:Ed.
  - rewrite Z.sub_diag. simpl. repeat split; lia.
  - rewrite Z.sub_diag. simpl. repeat split; lia.
  - assert (Hd : ex - ex' = Z.pos d) by lia.
    rewrite Hd, iter_xO_spec. repeat split; try lia.
    rewrite Zdigits2_mul_pow2 by lia. lia.
Qed.

Lemma binary_round_finite s m e K :
  e <= 971 -> Zdigits2 (Z.pos m) + e <= K -> -1074 <= K -> K + 1 <= 1024 ->
  finite_below s (K + 1) (binary_round prec emax s m e).
Proof.
  intros He HT HK0 HK. unfold binary_round.
  pose proof (shl_align_spec m e (fexp prec emax (Z.pos (digits2_pos m) + e))) as H.
  destruct (shl_align m e _) as [mz ez]. destruct H as (Hez & _ & HTz & _).
  apply binary_round_aux_finite; lia.
Qed.

Lemma binary_round_sign s m e : has_sign s (binary_round prec emax s m e).
Proof.
  unfold binary_round. destruct (shl_align m e _) as [mz ez].
  apply binary_round_aux_sign. lia.
Qed.

(** Addition of two finite values. *)
Lemma SFadd_finite K x y :
  valid_binary x = true -> valid_binary y = true ->
  mag_below K x -> mag_below K y -> -1074 <= K -> K + 2 <= 1024 ->
  mag_below (K + 2) (SF64add x y).
Proof.
  intros Vx Vy Hx Hy HK0 HK.
  destruct x as [sx|sx| |sx mx ex]; try contradiction;
  destruct y as [sy|sy| |sy my ey]; try contradiction.
  - destruct sx, sy; exact I.
  - unfold SF64add, SFadd, mag_below in *. lia.
  - unfold SF64add, SFadd, mag_below in *. lia.
  - apply valid_exponent in Vx as [Vx _], Vy as [Vy _].
    unfold mag_below in Hx, Hy. unfold SF64add, SFadd.
    set (ez := Z.min ex ey).
    pose proof (shl_align_spec mx ex ez) as Ax.
    pose proof (shl_align_spec my ey ez) as Ay.
    destruct (shl_align mx ex ez) as [mx' ex'].
    destruct (shl_align my ey ez) as [my' ey'].
    simpl fst.
    destruct Ax as (_ & _ & Ax3 & Ax4), Ay as (_ & _ & Ay3 & Ay4).
    assert (Ex : ex' = ez) by (apply Ax4; subst ez; lia).
    assert (Ey : ey' = ez) by (apply Ay4; subst ez; lia).
    subst ex' ey'.
    assert (Hez : ez <= 971) by (subst ez; lia).
    pose proof (Zdigits2_nonneg (Z.pos mx')).
    assert (Hbx : Z.pos mx' < 2 ^ (K - ez)) by (apply Zdigits2_le; lia).
    assert (Hby : Z.pos my' < 2 ^ (K - ez)) by (apply Zdigits2_le; lia).
    assert (Hpow : 2 ^ (K - ez + 1) = 2 * 2 ^ (K - ez))
      by (rewrite Z.pow_add_r by lia; change (2 ^ 1) with 2; lia).
    set (sum := cond_Zopp sx (Z.pos mx') + cond_Zopp sy (Z.pos my')).
    assert (HZ : Z.abs sum < 2 ^ (K - ez + 1)).
    { subst sum. destruct sx, sy; simpl cond_Zopp; lia. }
    clearbody sum. unfold binary_normalize.
    destruct sum as [|p|p]; [exact I| |].
    + eapply finite_below_mag.
      replace (K + 2) with (K + 1 + 1) by lia.
      apply binary_round_finite; try lia.
      assert (Zdigits2 (Z.pos p) <= K - ez + 1) by (apply Zdigits2_le; lia).
      lia.
    + eapply finite_below_mag.
      replace (K + 2) with (K + 1 + 1) by lia.
      apply binary_round_finite; try lia.
      assert (Zdigits2 (Z.pos p) <= K - ez + 1) by (apply Zdigits2_le; lia).
      lia.
Qed.

(** Multiplication of two finite values. *)
Lemma SFmul_finite K1 K2 x y :
  valid_binary x = true -> valid_binary y = true ->
  mag_below K1 x -> mag_below K2 y ->
  0 <= K1 <= 500 -> 0 <= K2 <= 500 ->
  mag_below (K1 + K2 + 1) (SF64mul x y).
Proof.
  intros Vx Vy Hx Hy HK1 HK2.
  destruct x as [sx|sx| |sx mx ex]; try contradiction;
  destruct y as [sy|sy| |sy my ey]; try contradiction; try exact I.
  apply valid_exponent in Vx as [Vx Cx], Vy as [Vy Cy].
  unfold mag_below in Hx, Hy. unfold SF64mul, SFmul.
  eapply finite_below_mag. apply binary_round_aux_finite; try lia.
  pose proof (Zdigits2_nonneg (Z.pos mx)). pose proof (Zdigits2_nonneg (Z.pos my)).
  assert (Hbx : Z.pos mx < 2 ^ Zdigits2 (Z.pos mx)) by (apply Zdigits2_le; lia).
  assert (Hby : Z.pos my < 2 ^ Zdigits2 (Z.pos my)) by (apply Zdigits2_le; lia).
  assert (Zdigits2 (Z.pos (mx * my)) <= Zdigits2 (Z.pos mx) + Zdigits2 (Z.pos my)).
  { apply Zdigits2_le; try lia. rewrite Z.pow_add_r by lia.
    rewrite Pos2Z.inj_mul. nia. }
  lia.
Qed.

(** Division of a finite value by a finite, non-zero one. *)
Lemma SFdiv_finite K x sy my ey :
  valid_binary x = true ->
  mag_below K x -> -1074 <= K -> K - ey + 1 <= 1024 -> 0 <= K - ey ->
  mag_below (K - ey + 1) (SF64div x (S754_finite sy my ey)).
Proof.
  intros Vx Hx HK0 HK HKe.
  destruct x as [sx|sx| |sx mx ex]; try contradiction; [exact I|].
  apply valid_exponent in Vx as [Vx Cx]. unfold mag_below in Hx.
  unfold SF64div, SFdiv, SFdiv_core_binary.
  set (e' := Z.min _ (ex - ey)).
  set (s := ex - ey - e').
  assert (Hs : 0 <= s) by (subst s e'; lia).
  set (m' := match s with Z.pos _ => Z.shiftl (Z.pos mx) s | 0 => Z.pos mx | Z.neg _ => 0 end).
  assert (Hm' : m' = Z.pos mx * 2 ^ s).
  { subst m'. destruct s as [|p|p] eqn:Es; try lia.
    apply Z.shiftl_mul_pow2. lia. }
  pose proof (Z_div_mod m' (Z.pos my) ltac:(lia)) as Hdm.
  destruct (Z.div_eucl m' (Z.pos my)) as [q r]. destruct Hdm as [Hdm Hr].
  assert (Hp : 0 < 2 ^ s) by (apply Z.pow_pos_nonneg; lia).
  assert (Hq : 0 <= q <= m') by nia.
  eapply finite_below_mag. apply binary_round_aux_finite; try lia.
  - subst e'. unfold fexp, SpecFloat.emin, prec, emax.
    pose proof (Zdigits2_nonneg (Z.pos my)).
    change (IntDef.Z.max ?a ?b) with (Z.max a b). 
    change (Zdigits2 (Z.pos my)) with (Z.pos (digits2_pos my)) in *.
    lia.
  - pose proof (Zdigits2_mono q m' Hq) as Hd.
    rewrite Hm', Zdigits2_mul_pow2 in Hd by lia.
    subst s. lia.
Qed.

(* ===================================================================== *)
(** * detectEdges *)
(* ===================================================================== *)

Lemma detectEdges_fill (img : ImageData) :
  ImageUtils.detectEdges img
  = fill (fun p => fst p * width img + snd p)
      (fun p => ImageUtils.magnitude_at img (snd p) (fst p))
      (edge_keys img) (JS.new_Array (width img * height img)).
Proof.
  unfold ImageUtils.detectEdges, fill, edge_keys.
  rewrite for_lt_fold.
  rewrite <- (fold_left_nested
    (fun y x e => JS.set e (y * width img + x) (ImageUtils.magnitude_at img x y))).
  apply fold_left_ext_in. intros e y _. apply for_lt_fold.
Qed.

Lemma elem_of_edge_keys (img : ImageData) p :
  p ∈ edge_keys img <-> interior img (snd p) (fst p) = true.
Proof.
  unfold edge_keys, interior. rewrite list_elem_of_bind.
  split.
  - intros (y & Hp & Hy). apply list_elem_of_fmap in Hp as (x & -> & Hx).
    apply elem_of_seqZ in Hx, Hy. simpl.
    repeat (apply andb_true_intro; split); lia.
  - intros H. destruct p as [y x]. simpl in H.
    repeat (apply andb_prop in H as [H ?]).
    exists y. split.
    + apply list_elem_of_fmap. exists x. split; [reflexivity|].
      apply elem_of_seqZ. lia.
    + apply elem_of_seqZ. lia.
Qed.

(* ===================================================================== *)
(** * Finite Numbers in the Sobel sums *)
(* ===================================================================== *)

Lemma finb_fin K x : finb K x = true -> fin K x.
Proof.
  unfold finb, fin, mag_below. destruct (Prim2SF x); try discriminate; auto.
  apply Z.leb_le.
Qed.

Lemma fin_mono K K' x : K <= K' -> fin K x -> fin K' x.
Proof. unfold fin. apply mag_below_mono. Qed.

Lemma fin_add K x y :
  fin K x -> fin K y -> -1074 <= K -> K + 2 <= 1024 -> fin (K + 2) (x + y)%float.
Proof.
  unfold fin. intros. rewrite add_spec.
  apply SFadd_finite; auto using Prim2SF_valid.
Qed.

Lemma fin_mul K1 K2 x y :
  fin K1 x -> fin K2 y -> 0 <= K1 <= 500 -> 0 <= K2 <= 500 ->
  fin (K1 + K2 + 1) (x * y)%float.
Proof.
  unfold fin. intros. rewrite mul_spec.
  apply SFmul_finite; auto using Prim2SF_valid.
Qed.

Lemma fin_div_3 K x : fin K x -> 0 <= K <= 900 -> fin (K + 52) (x / 3)%float.
Proof.
  unfold fin. intros Hx HK. rewrite div_spec.
  change (Prim2SF 3) with (S754_finite false 6755399441055744 (-51)).
  replace (K + 52) with (K - -51 + 1) by lia.
  apply SFdiv_finite; auto using Prim2SF_valid; lia.
Qed.

(** A byte is a Number below [2^8]. *)
Lemma fin_byte b : 0 <= b <= 255 -> fin 8 (JS.Z2F b).
Proof.
  intros Hb. apply finb_fin.
  assert (H : forallb (fun b => finb 8 (JS.Z2F b)) (seqZ 0 256) = true)
    by (vm_compute; reflexivity).
  rewrite forallb_forall in H. apply H.
  apply list_elem_of_In, elem_of_seqZ. lia.
Qed.

(** The brightness of a pixel whose three bytes are in the buffer. *)
Lemma gray_at_fin (d : list Z) idx :
  Forall (fun b => 0 <= b <= 255) d ->
  0 <= idx -> idx + 2 < Z.of_nat (length d) ->
  fin 64 (gray_at d idx).
Proof.
  intros Hd H0 H2.
  assert (Hb : forall c, 0 <= c <= 2 -> fin 8 (byte_at d (idx + c))).
  { intros c Hc. unfold byte_at, JS.get.
    destruct (Z.ltb_spec (idx + c) 0); [lia|].
    destruct (d !! Z.to_nat (idx + c)) as [b|] eqn:E.
    - simpl. apply fin_byte.
      rewrite Forall_forall in Hd. apply Hd.
      eapply list_elem_of_lookup_2. exact E.
    - apply lookup_ge_None in E. lia. }
  unfold gray_at. replace 64 with (12 + 52) by lia.
  apply fin_div_3; [|lia].
  replace 12 with (10 + 2) by lia.
  apply fin_add; try lia.
  - replace 10 with (8 + 2) by lia. apply fin_add; try lia.
    + rewrite <- (Z.add_0_r idx). apply Hb. lia.
    + apply Hb. lia.
  - apply (fin_mono 8); [lia|]. apply Hb. lia.
Qed.

Lemma kernel_fin i :
  0 <= i < 9 ->
  fin 2 (JS.num (JS.get ImageUtils.sobelX i)) /\
  fin 2 (JS.num (JS.get ImageUtils.sobelY i)).
Proof.
  intros Hi.
  assert (H : forallb (fun i =>
      finb 2 (JS.num (JS.get ImageUtils.sobelX i))
      && finb 2 (JS.num (JS.get ImageUtils.sobelY i))) (seqZ 0 9) = true)
    by (vm_compute; reflexivity).
  rewrite forallb_forall in H.
  specialize (H i ltac:(apply list_elem_of_In, elem_of_seqZ; lia)).
  apply andb_prop in H as [HX HY]. split; apply finb_fin; assumption.
Qed.

(** A fold that counts its steps. *)
Lemma fold_left_counted {S A} (P : Z -> S -> Prop) (f : S -> A -> S) (l : list A) :
  forall k s,
  P k s ->
  (forall k' s a, k <= k' < k + Z.of_nat (length l) -> a ∈ l -> P k' s ->
     P (k' + 1) (f s a)) ->
  P (k + Z.of_nat (length l)) (fold_left f l s).
Proof.
  induction l as [|a l IH]; intros k s H0 Hstep.
  - simpl. now rewrite Z.add_0_r.
  - simpl length in *. rewrite Nat2Z.inj_succ in *. simpl fold_left.
    replace (k + Z.succ (Z.of_nat (length l)))
      with (k + 1 + Z.of_nat (length l)) by lia.
    apply IH.
    + apply Hstep; [lia|left|exact H0].
    + intros k' s' a' Hk' Ha'. apply Hstep; [lia|now right].
Qed.

(** Both Sobel sums of an interior pixel are finite. *)
Lemma sobel_at_fin img x y :
  valid_buffer img -> interior img x y = true ->
  fin 85 (fst (ImageUtils.sobel_at img x y)) /\
  fin 85 (snd (ImageUtils.sobel_at img x y)).
Proof.
  intros (Hw & Hh & Hlen & Hbytes) Hint.
  unfold interior in Hint. repeat (apply andb_prop in Hint as [Hint ?]).
  set (P := fun (k : Z) (st : float * float) =>
    fin (67 + 2 * k) (fst st) /\ fin (67 + 2 * k) (snd st)).
  change (P 9 (ImageUtils.sobel_at img x y)).
  unfold ImageUtils.sobel_at. rewrite for_le_fold.
  set (step := fun (ky kx : Z) (st : float * float) =>
    let idx := ((y + ky) * width img + (x + kx)) * 4 in
    let gray := gray_at (data img) idx in
    let kernelIdx := (ky + 1) * 3 + (kx + 1) in
    ((fst st + gray * JS.num (JS.get ImageUtils.sobelX kernelIdx))%float,
     (snd st + gray * JS.num (JS.get ImageUtils.sobelY kernelIdx))%float)).
  rewrite (fold_left_ext_in _
    (fun st ky => fold_left (fun st kx => step ky kx st) (seqZ (-1) 3) st)).
  2:{ intros st ky _. rewrite for_le_fold. apply fold_left_ext_in.
      intros [gx gy] kx _. reflexivity. }
  rewrite (fold_left_nested step).
  set (keys := seqZ (-1) (1 + 1 - -1) ≫= fun ky => pair ky <$> seqZ (-1) 3).
  change 9 with (0 + Z.of_nat (length keys)).
  apply fold_left_counted.
  - split; exact I.
  - intros k st [ky kx] Hk Hin [Hgx Hgy].
    change (Z.of_nat (length keys)) with 9 in Hk.
    subst keys. apply list_elem_of_bind in Hin as (ky' & Hkx & Hky).
    apply list_elem_of_fmap in Hkx as (kx' & E & Hkx). inversion E; subst ky' kx'.
    apply elem_of_seqZ in Hky, Hkx. simpl fst. simpl snd.
    assert (Hgray : fin 64 (gray_at (data img)
                      (((y + ky) * width img + (x + kx)) * 4))).
    { apply gray_at_fin; [exact Hbytes|nia|nia]. }
    destruct (kernel_fin ((ky + 1) * 3 + (kx + 1)) ltac:(lia)) as [HX HY].
    unfold P, step. simpl fst. simpl snd.
    replace (67 + 2 * (k + 1)) with (67 + 2 * k + 2) by lia.
    split; (apply fin_add; try lia; [assumption|]);
      (apply (fin_mono 67); [lia|]); replace 67 with (64 + 2 + 1) by lia;
      apply fin_mul; auto; lia.
Qed.

(** A finite Number is not NaN, and squares to a Number of positive sign. *)
Lemma fin_square K x : fin K x -> has_sign false (Prim2SF (x * x)%float).
Proof.
  unfold fin. rewrite mul_spec. unfold SF64mul, SFmul.
  destruct (Prim2SF x) as [s|s| |s m e]; simpl; try contradiction.
  - intros _. now destruct s.
  - intros _. replace (xorb s s) with false by now destruct s.
    apply binary_round_aux_sign. lia.
Qed.

Lemma add_positive_sign x y :
  has_sign false (Prim2SF x) -> has_sign false (Prim2SF y) ->
  has_sign false (Prim2SF (x + y)%float).
Proof.
  rewrite add_spec. unfold SF64add, SFadd.
  destruct (Prim2SF x) as [sx|sx| |sx mx ex]; simpl; try contradiction;
  destruct (Prim2SF y) as [sy|sy| |sy my ey]; simpl; try contradiction;
  intros -> ->; try reflexivity.
  destruct (shl_align mx ex (Z.min ex ey)) as [mx' ex'].
  destruct (shl_align my ey (Z.min ex ey)) as [my' ey'].
  simpl. apply binary_round_sign.
Qed.

Lemma sqrt_positive_sign x :
  has_sign false (Prim2SF x) -> (0 <=? JS.Math_sqrt x)%float = true.
Proof.
  intros Hx. unfold JS.Math_sqrt. rewrite leb_spec, sqrt_spec.
  change (Prim2SF 0) with (S754_zero false).
  unfold SF64sqrt, SFsqrt.
  destruct (Prim2SF x) as [s|s| |s m e]; simpl in Hx; try contradiction;
    subst; try reflexivity.
  unfold SFsqrt_core_binary.
  set (m' := match _ with Z.pos _ => _ | 0 => _ | Z.neg _ => _ end).
  assert (Hm' : 0 <= m').
  { subst m'. destruct (e - 2 * _) eqn:E; try lia.
    apply Z.shiftl_nonneg. lia. }
  pose proof (Z.sqrtrem_spec m' Hm') as Hsq.
  destruct (Z.sqrtrem m') as [q r]. destruct Hsq as [_ Hr].
  pose proof (binary_round_aux_sign false q
    (Z.min (fexp prec emax (Z.div2 (Zdigits2 (Z.pos m) + e + 1))) (Z.div2 e))
    (if r =? 0 then loc_Exact else loc_Inexact (if r <=? q then Lt else Gt))
    ltac:(lia)) as Hs.
  destruct (binary_round_aux prec emax false q _ _) as [s|s| |s m0 e0];
    simpl in Hs; try contradiction; subst; reflexivity.
Qed.

(** The Sobel magnitude of an interior pixel is a non-negative Number. *)
Lemma magnitude_nonneg img x y :
  valid_buffer img -> interior img x y = true ->
  (0 <=? ImageUtils.magnitude_at img x y)%float = true.
Proof.
  intros Hv Hint. unfold ImageUtils.magnitude_at.
  destruct (sobel_at_fin img x y Hv Hint) as [Hgx Hgy].
  destruct (ImageUtils.sobel_at img x y) as [gx gy]. simpl in Hgx, Hgy.
  apply sqrt_positive_sign, add_positive_sign; eapply fin_square; eassumption.
Qed.

Section DetectEdgesFacts.
Variable img : ImageData.
Hypothesis Hw : 0 < width img.
Hypothesis Hh : 0 < height img.

Let f := fun p : Z * Z => fst p * width img + snd p.
Let g := fun p : Z * Z => ImageUtils.magnitude_at img (snd p) (fst p).

Lemma edge_keys_in_range k :
  k ∈ edge_keys img ->
  0 <= f k < Z.of_nat (length (@JS.new_Array float (width img * height img))).
Proof.
  destruct k as [y x]. intros Hk. apply elem_of_edge_keys in Hk.
  unfold interior in Hk. simpl in Hk.
  unfold JS.new_Array. rewrite length_replicate. unfold f. simpl.
  repeat (apply andb_prop in Hk as [Hk ?]). nia.
Qed.

Lemma detectEdges_length :
  length (ImageUtils.detectEdges img) = Z.to_nat (width img * height img).
Proof.
  rewrite detectEdges_fill, length_fill by exact edge_keys_in_range.
  apply length_replicate.
Qed.

(** Every slot of the result: the magnitude inside, a hole on the border. *)
Lemma detectEdges_get x y :
  0 <= x < width img -> 0 <= y < height img ->
  JS.get (ImageUtils.detectEdges img) (y * width img + x)
  = Some (if interior img x y
          then Some (ImageUtils.magnitude_at img x y) else None).
Proof.
  intros Hx Hy. rewrite detectEdges_fill.
  destruct (interior img x y) eqn:Hint.
  - change (y * width img + x) with (f (y, x)).
    change (ImageUtils.magnitude_at img x y) with (g (y, x)).
    apply get_fill_hit; [exact edge_keys_in_range| |].
    + intros [y' x'] Hk' Hf. apply elem_of_edge_keys in Hk'.
      unfold interior in Hk', Hint. unfold f in Hf. simpl in Hk', Hf.
      repeat (apply andb_prop in Hk' as [Hk' ?]).
      repeat (apply andb_prop in Hint as [Hint ?]).
      assert (y' = y) by nia. assert (x' = x) by nia. now subst.
    + apply elem_of_edge_keys. exact Hint.
  - rewrite get_fill_miss.
    + apply get_new_Array. nia.
    + exact edge_keys_in_range.
    + intros [y' x'] Hk' Hf. apply elem_of_edge_keys in Hk'.
      simpl in Hf, Hk'.
      assert (y' = y) by (unfold interior in Hk';
        repeat (apply andb_prop in Hk' as [Hk' ?]); nia).
      assert (x' = x) by nia. subst. congruence.
Qed.

(** No pixel has a 3x3 neighbourhood in a buffer narrower than 3. *)
Lemma detectEdges_degenerate :
  width img < 3 \/ height img < 3 ->
  ImageUtils.detectEdges img = JS.new_Array (width img * height img).
Proof.
  intros Hsmall. rewrite detectEdges_fill.
  assert (E : edge_keys img = []).
  { unfold edge_keys. destruct Hsmall.
    - rewrite (seqZ_nil 1 (width img - 1 - 1)) by lia.
      induction (seqZ 1 (height img - 1 - 1)); simpl; auto.
    - rewrite (seqZ_nil 1 (height img - 1 - 1)) by lia. reflexivity. }
  rewrite E. reflexivity.
Qed.
End DetectEdgesFacts.

(** C1 (as amended).  For every valid buffer, [detectEdges] returns an array
    of [width*height] slots in which every interior slot
    ([1 <= x < width-1], [1 <= y < height-1]) holds the Sobel magnitude
    [Math.sqrt(gx*gx + gy*gy)] of that pixel, a non-negative Number, and
    every slot of the border rows and columns is left empty (it reads
    [undefined], not [0]); when [width < 3] or [height < 3] the whole array
    is empty slots. *)
Theorem detectEdges_interior_and_border (img : ImageData) :
  valid_buffer img ->
  let w := width img in
  let h := height img in
  let edges := ImageUtils.detectEdges img in
  length edges = Z.to_nat (w * h) /\
  (forall x y, 0 <= x < w -> 0 <= y < h ->
     JS.get edges (y * w + x)
     = Some (if interior img x y
             then Some (ImageUtils.magnitude_at img x y) else None)) /\
  (forall x y, interior img x y = true ->
     (0 <=? ImageUtils.magnitude_at img x y)%float = true) /\
  (w < 3 \/ h < 3 -> edges = JS.new_Array (w * h)).
Proof.
  intros Hv w h edges. pose proof Hv as (Hw & Hh & _ & _).
  split; [|split; [|split]].
  - apply detectEdges_length; assumption.
  - intros x y. apply detectEdges_get; assumption.
  - intros x y. apply magnitude_nonneg. exact Hv.
  - apply detectEdges_degenerate.
Qed.

Lemma img3_valid : valid_buffer img3.
Proof.
  unfold valid_buffer. simpl. repeat split; try lia.
  repeat (constructor; [lia|]). constructor.
Qed.

(** The theorem applied to a 3x3 buffer with one bright column. *)
Lemma detectEdges_interior_and_border_witness :
  valid_buffer img3 /\
  JS.get (ImageUtils.detectEdges img3) 4 = Some (Some 1020%float) /\
  JS.get (ImageUtils.detectEdges img3) 0 = Some None.
Proof.
  split; [exact img3_valid|].
  destruct (detectEdges_interior_and_border img3 img3_valid)
    as (_ & Hget & _ & _).
  split.
  - exact (Hget 1 1 ltac:(simpl; lia) ltac:(simpl; lia)).
  - exact (Hget 0 0 ltac:(simpl; lia) ltac:(simpl; lia)).
Defined.

(** C1 (as stated) fails: on a valid 3x3 buffer the corner slot of the edge
    map is empty, so it is not the Number 0 the claim requires there. *)
Lemma detectEdges_border_not_zero :
  valid_buffer img3 /\
  ImageUtils.detectEdges img3
  = [None; None; None; None; Some 1020%float; None; None; None; None] /\
  ~ edgeMap_claimed img3.
Proof.
  split; [exact img3_valid|]. split; [vm_compute; reflexivity|].
  intros Hclaim.
  destruct (Hclaim 0 0 ltac:(simpl; lia) ltac:(simpl; lia)) as (m & Hm & _).
  vm_compute in Hm. discriminate.
Qed.

Lemma uniform_valid w h r g b :
  0 < w -> 0 < h -> 0 <= r <= 255 -> 0 <= g <= 255 -> 0 <= b <= 255 ->
  valid_buffer (uniform w h r g b).
Proof.
  intros Hw Hh Hr Hg Hb. unfold valid_buffer, uniform. simpl.
  repeat split; try lia.
  - induction (Z.to_nat (w * h)) as [|n IH] eqn:E in w, h, Hw, Hh |- *.
    + nia.
    + assert (L : forall n : nat,
        length (concat (replicate n [r; g; b; 255])) = (4 * n)%nat).
      { clear. induction n as [|n IH]; simpl; [reflexivity|]. rewrite IH. lia. }
      rewrite L. nia.
  - apply Forall_concat. apply Forall_replicate.
    repeat (constructor; [lia|]). constructor.
Qed.

(* ===================================================================== *)
(** * The composition score *)
(* ===================================================================== *)

(** The [scores] object holds the six analysers' results under the keys of
    the registry. *)
Lemma ruleScores_entries img crop :
  fst (AIComposer.ruleScores img crop)
  = [("ruleOfThirds", AIComposer.ruleOfThirdsAnalysis img crop);
     ("goldenRatio", AIComposer.goldenRatioAnalysis img crop);
     ("symmetry", AIComposer.symmetryAnalysis img crop);
     ("leadingLines", AIComposer.leadingLinesAnalysis img crop);
     ("balance", AIComposer.balanceAnalysis img crop);
     ("depth", AIComposer.depthAnalysis img crop)]%string.
Proof. reflexivity. Qed.

(** C2 (the code departs from it).  On the all-black 4x4 buffer, with no
    crop, [balanceAnalysis] divides 0 by 0: the balance sub-score, the
    composition score and the overall score are NaN, outside [0, 1]. *)
Lemma analyzeComposition_black_is_NaN :
  valid_buffer black4 /\
  subScore "balance" black4 None = Some nan /\
  AIComposer.compositionScore (AIComposer.analyzeComposition black4 None) = nan /\
  AIComposer.overallScore (AIComposer.analyzeComposition black4 None) = nan /\
  in_unit_interval
    (AIComposer.overallScore (AIComposer.analyzeComposition black4 None)) = false /\
  in_unit_interval
    (AIComposer.technicalScore (AIComposer.analyzeComposition black4 None)) = true /\
  in_unit_interval
    (AIComposer.artisticScore (AIComposer.analyzeComposition black4 None)) = true.
Proof.
  split; [apply uniform_valid; lia|].
  repeat split; vm_compute; reflexivity.
Qed.

(** C3 (as stated) fails: on a 2x2 buffer with a white left column and a
    black right column the balance sub-score is 0.5, the quadrant formula
    gives 0.75. *)
Lemma balance_is_not_quadrant_formula :
  subScore "balance" img2 None = Some 0.5%float /\
  AdvancedImageAnalysis.calculateBalance img2 = 0.75%float /\
  ~ balance_claimed img2.
Proof.
  split; [vm_compute; reflexivity|]. split; [vm_compute; reflexivity|].
  unfold balance_claimed. vm_compute. discriminate.
Qed.

(** With exact index arithmetic, [calculateVisualWeight] adds up the
    brightness of the pixels of the rectangle it is given. *)
Lemma calculateVisualWeight_exact (d : list Z) (n : Z) (fx fy fw fh : float)
    (x0 x1 y0 y1 : Z) :
  Z.of_nat (length d) = 4 * n * n ->
  forallb (fun py => forallb (fun px => index_exact_at n py px) (seqZ 0 n))
    (seqZ 0 n) = true ->
  JS.toZ (JS.Math_floor fx) = x0 -> JS.toZ (JS.Math_floor (fx + fw)) = x1 ->
  JS.toZ (JS.Math_floor fy) = y0 -> JS.toZ (JS.Math_floor (fy + fh)) = y1 ->
  0 <= x0 -> x1 <= n -> 0 <= y0 -> y1 <= n ->
  AIComposer.calculateVisualWeight d fx fy fw fh = regionGray d n x0 x1 y0 y1.
Proof.
  intros Hlen Hidx Hx0 Hx1 Hy0 Hy1 Bx0 Bx1 By0 By1.
  unfold AIComposer.calculateVisualWeight, regionGray.
  rewrite Hx0, Hx1, Hy0, Hy1, Hlen, for_lt_fold.
  apply fold_left_ext_in. intros weight py Hpy.
  rewrite for_lt_fold. apply fold_left_ext_in. intros weight' px Hpx.
  apply elem_of_seqZ in Hpy, Hpx.
  assert (Hat : index_exact_at n py px = true).
  { rewrite forallb_forall in Hidx.
    specialize (Hidx py ltac:(apply list_elem_of_In, elem_of_seqZ; lia)).
    rewrite forallb_forall in Hidx.
    apply Hidx. apply list_elem_of_In, elem_of_seqZ. lia. }
  unfold index_exact_at in Hat. cbv zeta in Hat.
  repeat (apply andb_prop in Hat as [Hat ?]).
  repeat match goal with
  | H : bool_decide _ = true |- _ => apply bool_decide_eq_true in H
  end.
  rewrite Hat. unfold AIComposer.byte_atF, JS.getF, gray_at, byte_at.
  repeat match goal with H : JS.F2Z _ = Some _ |- _ => rewrite H end.
  reflexivity.
Qed.

(** C3 (as amended).  For every buffer, with or without a crop, the balance
    sub-score that enters the composition score is [balanceAnalysis]: the
    mean of the horizontal balance [1 - |L - R| / max(L, R)] and of the
    vertical balance [1 - |T - B| / max(T, B)], where [L], [R], [T], [B] are
    the visual weights [calculateVisualWeight] returns for the left, right,
    top and bottom half of the image.  On a valid square buffer on which
    the index arithmetic is exact these weights are the summed brightness
    [(r + g + b) / 3] of the pixels of each half. *)
Theorem balance_subscore_is_half_balance img crop :
  let w := JS.Z2F (width img) in
  let h := JS.Z2F (height img) in
  let L := AIComposer.calculateVisualWeight (data img) 0 0 (w / 2) h in
  let R := AIComposer.calculateVisualWeight (data img) (w / 2) 0 (w / 2) h in
  let T := AIComposer.calculateVisualWeight (data img) 0 0 w (h / 2) in
  let B := AIComposer.calculateVisualWeight (data img) 0 (h / 2) w (h / 2) in
  subScore "balance" img crop
  = Some (((1 - JS.Math_abs (L - R) / JS.Math_max L R)
           + (1 - JS.Math_abs (T - B) / JS.Math_max T B)) / 2)%float /\
  (valid_buffer img -> height img = width img ->
   index_exact (width img) = true ->
   let n := width img in
   L = regionGray (data img) n 0 (n / 2) 0 n /\
   R = regionGray (data img) n (n / 2) n 0 n /\
   T = regionGray (data img) n 0 n 0 (n / 2) /\
   B = regionGray (data img) n 0 n (n / 2) n).
Proof.
  intros w h L R T B. split.
  - unfold subScore. rewrite ruleScores_entries. reflexivity.
  - intros (Hw & _ & Hlen & _) Hsq Hex n. subst L R T B w h. fold n.
    rewrite Hsq in *. fold n in Hlen, Hw.
    unfold index_exact in Hex. fold n in Hex.
    repeat (apply andb_prop in Hex as [Hex ?]).
    repeat match goal with
    | H : bool_decide _ = true |- _ => apply bool_decide_eq_true in H
    end.
    assert (0 <= n / 2 <= n).
    { split; [apply Z.div_pos; lia|]. apply Z.div_le_upper_bound; lia. }
    repeat split; apply calculateVisualWeight_exact;
      try assumption; try lia.
Qed.

(** The theorem on the 2x2 buffer: the four half weights are pixel sums. *)
Lemma balance_subscore_is_half_balance_witness :
  subScore "balance" img2 None = Some 0.5%float /\
  AIComposer.calculateVisualWeight (data img2) 0 0 (2 / 2) 2
  = regionGray (data img2) 2 0 1 0 2.
Proof.
  destruct (balance_subscore_is_half_balance img2 None) as [Hs Hw].
  split; [exact Hs|].
  refine (proj1 (Hw _ eq_refl eq_refl)).
  unfold valid_buffer. simpl. repeat split; try lia.
  repeat (constructor; [lia|]). constructor.
Defined.

(** C4 (as stated) fails: on the 3x3 buffer the leading-lines sub-score is
    1, while the Hough-style vote finds no line and scores 0, whatever
    [Math.cos] and [Math.sin] return. *)
Lemma leadingLines_is_not_hough_vote :
  subScore "leadingLines" img3 None = Some 1%float /\
  (forall Math_cos Math_sin,
     AdvancedImageAnalysis.lscore
       (AdvancedImageAnalysis.detectLeadingLines Math_cos Math_sin img3)
     = 0%float) /\
  ~ (exists Math_cos Math_sin, leadingLines_claimed Math_cos Math_sin img3).
Proof.
  assert (H1 : subScore "leadingLines" img3 None = Some 1%float)
    by (vm_compute; reflexivity).
  assert (H2 : forall Math_cos Math_sin,
     AdvancedImageAnalysis.lscore
       (AdvancedImageAnalysis.detectLeadingLines Math_cos Math_sin img3)
     = 0%float) by (intros; vm_compute; reflexivity).
  repeat split; auto.
  intros (c & s & H). unfold leadingLines_claimed in H.
  rewrite H1, H2 in H. vm_compute in H. discriminate.
Qed.

(* ===================================================================== *)
(** * Scanning an array row by row *)
(* ===================================================================== *)

(** The indices [y * w + x] of a [h] by [w] scan are [0 .. w*h - 1]. *)
Lemma row_major_indices w h :
  0 <= w -> 0 <= h ->
  (seqZ 0 h ≫= fun y => (fun x => y * w + x) <$> seqZ 0 w) = seqZ 0 (w * h).
Proof.
  intros Hw Hh. rewrite <- (Z2Nat.id h) by exact Hh.
  induction (Z.to_nat h) as [|n IH].
  - simpl. rewrite Z.mul_0_r. reflexivity.
  - rewrite seqZ_S, bind_app, IH. simpl. rewrite app_nil_r.
    replace (w * Z.of_nat (S n)) with (w * Z.of_nat n + w) by lia.
    rewrite seqZ_app by lia. f_equal.
    replace (0 + w * Z.of_nat n) with (w * Z.of_nat n + 0) by lia.
    rewrite <- (fmap_add_seqZ (w * Z.of_nat n) 0).
    apply list_fmap_ext. intros _ x _. lia.
Qed.

Section Scan.
Context {A S : Type}.

(** Reading [arr[0], ..., arr[length - 1]] by index is a fold over the
    array. *)
Lemma fold_indices (F : S -> option A -> S) (arr : list A) : forall s,
  fold_left (fun s i => F s (JS.get arr i)) (seqZ 0 (Z.of_nat (length arr))) s
  = fold_left (fun s a => F s (Some a)) arr s.
Proof.
  induction arr as [|a arr IH] using rev_ind; intros s; [reflexivity|].
  rewrite length_app. simpl length.
  replace (length arr + 1)%nat with (Datatypes.S (length arr)) by lia.
  rewrite seqZ_S, !fold_left_app. simpl.
  rewrite <- IH. f_equal.
  - apply fold_left_ext_in. intros s' i Hi. f_equal.
    apply elem_of_seqZ in Hi. unfold JS.get.
    destruct (Z.ltb_spec i 0); [lia|].
    apply lookup_app_l. lia.
  - unfold JS.get. rewrite Z.add_0_l.
    destruct (Z.ltb_spec (Z.of_nat (length arr)) 0); [lia|].
    rewrite Nat2Z.id. rewrite lookup_app_r by lia.
    now rewrite Nat.sub_diag.
Qed.
End Scan.

(** The scan of [countAbove] counts the entries above the threshold and
    visits every slot once. *)
Lemma countAbove_filter img (edges : list (option float)) t :
  0 < width img -> 0 < height img ->
  length edges = Z.to_nat (width img * height img) ->
  AIComposer.countAbove img edges t
  = (Z.of_nat (length (filter (fun e => JS.gt (JS.num e) t = true) edges)),
     width img * height img).
Proof.
  intros Hw Hh Hlen. unfold AIComposer.countAbove.
  assert (Hwh : width img * height img = Z.of_nat (length edges)) by nia.
  set (step := fun (st : Z * Z) (e : option (option float)) =>
    ((if JS.gt (JS.num (mjoin e)) t then fst st + 1 else fst st), snd st + 1)).
  transitivity (fold_left (fun st i => step st (JS.get edges i))
                  (seqZ 0 (width img * height img)) (0, 0)).
  - rewrite <- row_major_indices by lia.
    rewrite for_lt_fold, Z.sub_0_r.
    transitivity (fold_left
      (fun st p => step st (JS.get edges (fst p * width img + snd p)))
      (seqZ 0 (height img) ≫= fun y => pair y <$> seqZ 0 (width img)) (0, 0)).
    + rewrite <- (fold_left_nested
        (fun y x st => step st (JS.get edges (y * width img + x)))).
      apply fold_left_ext_in. intros st y _.
      rewrite for_lt_fold, Z.sub_0_r.
      apply fold_left_ext_in. intros [hits total] x _. reflexivity.
    + generalize (0, 0). generalize (seqZ 0 (height img)).
      induction l as [|y l IH]; intros st; [reflexivity|].
      simpl. rewrite !fold_left_app, <- IH. f_equal.
      generalize st. generalize (seqZ 0 (width img)).
      induction l0 as [|x l0 IHx]; intros st0; simpl; auto.
  - rewrite Hwh. rewrite (fold_indices step).
    assert (E : forall a c,
      fold_left (fun st e => step st (Some e)) edges (a, c)
      = (a + Z.of_nat (length (filter (fun e => JS.gt (JS.num e) t = true) edges)),
         c + Z.of_nat (length edges))).
    { clear. induction edges as [|e edges IH]; intros a c.
      - simpl. f_equal; lia.
      - simpl fold_left. rewrite filter_cons. unfold step at 2.
        simpl fst. simpl snd. simpl mjoin.
        destruct (JS.gt (JS.num e) t) eqn:E.
        + rewrite decide_True by reflexivity. rewrite IH.
          simpl length. f_equal; lia.
        + rewrite decide_False by discriminate. rewrite IH.
          simpl length. f_equal; lia. }
    rewrite E. f_equal.
Qed.

(** C4 (as amended).  For every valid buffer, the leading-lines sub-score
    that enters the composition score is [min(1, N / (total * 0.1))], where
    [N] is the number of edge-map entries above 50 (empty slots never
    count) and [total = width * height]; no line vote takes part in it. *)
Theorem leadingLines_subscore_is_edge_density img crop :
  valid_buffer img ->
  let N := length (filter (fun e => JS.gt (JS.num e) 50 = true)
                     (ImageUtils.detectEdges img)) in
  subScore "leadingLines" img crop
  = Some (JS.Math_min 1
            (JS.Z2F (Z.of_nat N)
             / (JS.Z2F (width img * height img) * 0.1))%float).
Proof.
  intros Hv N. pose proof Hv as (Hw & Hh & _ & _).
  unfold subScore. rewrite ruleScores_entries. simpl. f_equal.
  unfold AIComposer.leadingLinesAnalysis, AIComposer.detectEdges.
  rewrite countAbove_filter; auto.
  apply detectEdges_length; lia.
Qed.

Lemma leadingLines_subscore_is_edge_density_witness :
  valid_buffer img3 /\
  subScore "leadingLines" img3 None
  = Some (JS.Math_min 1 (JS.Z2F 1 / (JS.Z2F 9 * 0.1))%float).
Proof.
  split; [exact img3_valid|].
  exact (leadingLines_subscore_is_edge_density img3 None img3_valid).
Defined.

(** C8.  With no crop rectangle, the rule-of-thirds and the golden-ratio
    analysers return the neutral 0.5, and 0.5 is what the composition score
    records for both rules. *)
Theorem no_crop_gives_neutral_scores (img : ImageData) :
  AIComposer.ruleOfThirdsAnalysis img None = 0.5%float /\
  AIComposer.goldenRatioAnalysis img None = 0.5%float /\
  subScore "ruleOfThirds" img None = Some 0.5%float /\
  subScore "goldenRatio" img None = Some 0.5%float.
Proof.
  unfold subScore. rewrite ruleScores_entries. repeat split.
Qed.

(* ===================================================================== *)
(** * The Fibonacci grid *)
(* ===================================================================== *)

(** C9.  For [width = height = 144] the grid has one point per entry
    [fib[1] .. fib[11]]; the x-fraction [x / 144] and the y-fraction
    [y / 144] of each point are exactly [fib[i] / 144], and every entry of
    [fib] (the leading, repeated 1 included) is matched by a point. *)
Theorem fibonacciGrid_144_fractions :
  let points := CompositionUtils.generateFibonacciGrid 144 144 in
  let fractions := map (fun f => (f / 144)%float) CompositionUtils.fib in
  map (fun p => (CompositionUtils.pt_x p / 144)%float) points = tail fractions /\
  map (fun p => (CompositionUtils.pt_y p / 144)%float) points = tail fractions /\
  Forall (fun q => In q (tail fractions)) fractions.
Proof.
  split; [vm_compute; reflexivity|]. split; [vm_compute; reflexivity|].
  vm_compute. repeat (constructor; [intuition reflexivity|]). constructor.
Qed.

(* ===================================================================== *)
(** * Array.prototype.sort *)
(* ===================================================================== *)

Section SortFacts.
Context {A : Type} (cmp : A -> A -> float).

Lemma sort_insert_Permutation x l : JS.sort_insert cmp x l ≡ₚ x :: l.
Proof.
  induction l as [|y l IH]; simpl; [reflexivity|].
  destruct (JS.gt (cmp y x) 0); [reflexivity|].
  rewrite IH. apply Permutation_swap.
Qed.

(** The result of [sort] holds the elements of its argument. *)
Lemma sort_Permutation l : JS.sort cmp l ≡ₚ l.
Proof.
  unfold JS.sort.
  assert (E : forall acc,
    fold_left (fun acc x => JS.sort_insert cmp x acc) l acc ≡ₚ acc ++ l).
  { induction l as [|x l IH]; intros acc; simpl.
    - now rewrite app_nil_r.
    - rewrite IH, sort_insert_Permutation. simpl. apply Permutation_middle. }
  apply (E []).
Qed.
End SortFacts.

(* ===================================================================== *)
(** * Crop suggestions *)
(* ===================================================================== *)

(** C5.  The suggestions come out sorted by descending score, they are the
    pushed suggestions, and suggestions of equal score keep the order in
    which they were pushed. *)
Theorem cropSuggestions_sorted_stable (img : ImageData) (w h : float) :
  let pushed := AISuggestions.pushedSuggestions img in
  let out := AISuggestions.generateCropSuggestions img w h in
  out ≡ₚ pushed /\
  StronglySorted
    (fun a b => (AISuggestions.score b <=? AISuggestions.score a)%float = true)
    out /\
  forall a, a ∈ pushed ->
    List.filter (fun b => (AISuggestions.score b =? AISuggestions.score a)%float) out
    = List.filter (fun b => (AISuggestions.score b =? AISuggestions.score a)%float)
        pushed.
Proof.
  intros pushed out. split; [apply sort_Permutation|].
  subst pushed out.
  unfold AISuggestions.generateCropSuggestions, AISuggestions.pushedSuggestions.
  cbv zeta.
  generalize (ImageUtils.getBrightness img).
  generalize (ImageUtils.findRegionsOfInterest img).
  intros rois brightness.
  destruct rois as [|bestROI rois]; destruct (brightness <? 0.4)%float;
    (split;
     [ vm_compute; repeat constructor
     | intros a Ha; simpl in Ha;
       repeat (apply elem_of_cons in Ha as [->|Ha]);
       [ vm_compute; reflexivity .. | inversion Ha ] ]).
Qed.

(** C6.  Whatever the buffer, the result holds the golden-ratio suggestion
    (score 90, crop width 0.6, crop height 0.6 / 1.618, within 1e-4 of
    0.3708) and the balanced-composition suggestion (score 75). *)
Theorem cropSuggestions_fixed_entries (img : ImageData) (w h : float) :
  let out := AISuggestions.generateCropSuggestions img w h in
  (exists s, s ∈ out /\
     AISuggestions.name s = "Golden Ratio"%string /\
     AISuggestions.score s = 90%float /\
     ImageUtils.reg_width (AISuggestions.crop s) = 0.6%float /\
     ImageUtils.reg_height (AISuggestions.crop s) = (0.6 / 1.618)%float /\
     (JS.Math_abs (ImageUtils.reg_height (AISuggestions.crop s) - 0.3708)
        <? 0.0001)%float = true) /\
  (exists s, s ∈ out /\
     AISuggestions.name s = "Balanced Composition"%string /\
     AISuggestions.score s = 75%float).
Proof.
  intros out. subst out. unfold AISuggestions.generateCropSuggestions.
  split.
  - eexists. split.
    + rewrite sort_Permutation. unfold AISuggestions.pushedSuggestions.
      cbv zeta. apply elem_of_app. right. left.
    + repeat split; vm_compute; reflexivity.
  - eexists. split.
    + rewrite sort_Permutation. unfold AISuggestions.pushedSuggestions.
      cbv zeta.
      apply elem_of_app. left. apply elem_of_app. left.
      destruct (ImageUtils.getBrightness img <? 0.4)%float;
        destruct (ImageUtils.findRegionsOfInterest img);
        repeat (apply elem_of_app; left); left.
    + repeat split.
Qed.

(* ===================================================================== *)
(** * Dominant colours *)
(* ===================================================================== *)

(** One sample of a pixel of colour (200, 100, 50) lands in the bucket
    "192,96,32". *)
Lemma colorKey_200_100_50 :
  ImageUtils.colorKey (ImageUtils.quantize (JS.Z2F 200))
    (ImageUtils.quantize (JS.Z2F 100)) (ImageUtils.quantize (JS.Z2F 50))
  = "192,96,32"%string.
Proof. vm_compute. reflexivity. Qed.

(** C7.  In a valid buffer whose pixels all have the colour (200, 100, 50)
    the histogram has the single bucket "192,96,32", which counts every
    one of the [ceil(length / 40)] samples, and [getDominantColors] returns
    exactly the colour (192, 96, 32). *)
Theorem dominantColors_single_colour (img : ImageData) :
  valid_buffer img ->
  all_pixels img 200 100 50 ->
  let samples := (Z.of_nat (length (data img)) + 39) / 40 in
  1 <= samples /\
  ImageUtils.colorCounts img = [("192,96,32"%string, samples)] /\
  ImageUtils.getDominantColors img 5 = [ImageUtils.mkRGB 192 96 32].
Proof.
  intros (Hw & Hh & Hlen & _) Hpix samples.
  set (len := Z.of_nat (length (data img))) in *.
  assert (Hpos : 0 < len) by nia.
  assert (Hs : 1 <= samples) by (subst samples; apply Z.div_le_lower_bound; lia).
  assert (Hcounts :
    ImageUtils.colorCounts img = [("192,96,32"%string, samples)]).
  { unfold ImageUtils.colorCounts. fold len.
    set (body := fun (i : Z) (counts : JS.obj Z) => _).
    set (P := fun (i : Z) (counts : JS.obj Z) =>
      0 <= i /\ i mod 40 = 0 /\
      counts = if i =? 0 then [] else [("192,96,32"%string, i / 40)]).
    assert (Hinit : P 0 []) by (repeat split; lia).
    assert (Hstep : forall i counts, 0 <= i < len -> P i counts ->
              P (i + 40) (body i counts)).
    { intros i counts Hi (Hi0 & Himod & ->).
      assert (Hp : 0 <= i / 4 < width img * height img).
      { split; [apply Z.div_pos; lia|].
        apply Z.div_lt_upper_bound; lia. }
      assert (Ei : i = 4 * (i / 4)).
      { pose proof (Z.div_mod i 40 ltac:(lia)).
        pose proof (Z.div_mod i 4 ltac:(lia)).
        pose proof (Z.mod_pos_bound i 4 ltac:(lia)). lia. }
      destruct (Hpix (i / 4) Hp) as (Hr & Hg & Hb).
      rewrite <- Ei in Hr, Hg, Hb.
      subst body. cbv beta zeta.
      unfold byte_at. rewrite Hr, Hg, Hb. simpl JS.num.
      rewrite colorKey_200_100_50.
      repeat split; [lia| |].
      + rewrite <- Zplus_mod_idemp_l, Himod. reflexivity.
      + destruct (Z.eqb_spec (i + 40) 0); [lia|].
        replace ((i + 40) / 40) with (i / 40 + 1)
          by (rewrite <- (Z.div_add i 1 40) by lia; f_equal; lia).
        destruct (Z.eqb_spec i 0) as [->|Hne]; reflexivity. }
    destruct (for_lt_invariant P body 0 len 40 [] ltac:(lia) Hinit Hstep)
      as (i & Hi0 & Hi1 & Hi2 & _ & Himod & Hres).
    etransitivity; [exact Hres|].
    destruct (Z.eqb_spec i 0); [lia|].
    do 2 f_equal. subst samples.
    destruct Hi2 as [->|Hi2]; [lia|].
    assert (Ei : i = 40 * (i / 40))
      by (pose proof (Z.div_mod i 40 ltac:(lia)); lia).
    apply Z.div_unique with (r := len + 39 - i); lia. }
  split; [exact Hs|]. split; [exact Hcounts|].
  unfold ImageUtils.getDominantColors. rewrite Hcounts. reflexivity.
Qed.

Lemma uniform_all_pixels w h r g b :
  0 <= w * h -> all_pixels (uniform w h r g b) r g b.
Proof.
  intros Hwh p Hp. simpl in *. unfold JS.get.
  assert (L : forall (n : nat) (k : nat), (k < n)%nat ->
    concat (replicate n [r; g; b; 255]) !! (4 * k)%nat = Some r /\
    concat (replicate n [r; g; b; 255]) !! (4 * k + 1)%nat = Some g /\
    concat (replicate n [r; g; b; 255]) !! (4 * k + 2)%nat = Some b).
  { induction n as [|n IH]; intros k Hk; [lia|].
    destruct k as [|k]; [simpl; auto|].
    replace (4 * Datatypes.S k)%nat
      with (Datatypes.S (Datatypes.S (Datatypes.S (Datatypes.S (4 * k))))) by lia.
    simpl. apply IH. lia. }
  destruct (L (Z.to_nat (w * h)) (Z.to_nat p) ltac:(lia)) as (Hr & Hg & Hb).
  destruct (Z.ltb_spec (4 * p) 0); [lia|].
  destruct (Z.ltb_spec (4 * p + 1) 0); [lia|].
  destruct (Z.ltb_spec (4 * p + 2) 0); [lia|].
  replace (Z.to_nat (4 * p)) with (4 * Z.to_nat p)%nat by lia.
  replace (Z.to_nat (4 * p + 1)) with (4 * Z.to_nat p + 1)%nat by lia.
  replace (Z.to_nat (4 * p + 2)) with (4 * Z.to_nat p + 2)%nat by lia.
  auto.
Qed.

(** The theorem applied to a 7x5 buffer of that colour: 4 samples. *)
Lemma dominantColors_single_colour_witness :
  ImageUtils.colorCounts (uniform 7 5 200 100 50) = [("192,96,32"%string, 4)] /\
  ImageUtils.getDominantColors (uniform 7 5 200 100 50) 5
  = [ImageUtils.mkRGB 192 96 32].
Proof.
  refine (proj2 (dominantColors_single_colour (uniform 7 5 200 100 50) _ _)).
  - apply uniform_valid; lia.
  - apply uniform_all_pixels. lia.
Defined.

(* ===================================================================== *)
(** * groupRegions *)
(* ===================================================================== *)

Section PickFacts.
Context {A : Type}.
Implicit Types (ixs : list (nat * A)) (V W : gset nat).

Lemma indexed_fst (arr : list A) : fst <$> indexed arr = seq 0 (length arr).
Proof.
  unfold indexed. generalize 0%nat.
  induction arr as [|a arr IH]; intros k; simpl; [reflexivity|].
  f_equal. apply IH.
Qed.

Lemma indexed_snd (arr : list A) : snd <$> indexed arr = arr.
Proof.
  unfold indexed. generalize 0%nat.
  induction arr as [|a arr IH]; intros k; simpl; [reflexivity|].
  f_equal. apply IH.
Qed.

Lemma indexed_NoDup (arr : list A) : NoDup (fst <$> indexed arr).
Proof. rewrite indexed_fst. apply NoDup_seq. Qed.

Lemma filter_ext_in (P Q : nat * A -> Prop)
    `{!forall x, Decision (P x)} `{!forall x, Decision (Q x)} ixs :
  (forall x, x ∈ ixs -> P x <-> Q x) -> filter P ixs = filter Q ixs.
Proof.
  induction ixs as [|x ixs IH]; intros Hext; [reflexivity|].
  rewrite !filter_cons.
  rewrite IH by (intros y Hy; apply Hext; now right).
  destruct (decide (P x)) as [HP|HP];
    [rewrite decide_True | rewrite decide_False]; auto;
    rewrite <- (Hext x) by left; auto.
Qed.

Lemma filter_or_Permutation (P Q : nat * A -> Prop)
    `{!forall x, Decision (P x)} `{!forall x, Decision (Q x)} ixs :
  (forall x, x ∈ ixs -> P x -> Q x -> False) ->
  filter (fun x => P x \/ Q x) ixs ≡ₚ filter P ixs ++ filter Q ixs.
Proof.
  induction ixs as [|x ixs IH]; intros Hdisj; [reflexivity|].
  assert (IH' := IH (fun y Hy => Hdisj y (list_elem_of_further _ _ _ Hy))).
  rewrite !filter_cons.
  destruct (decide (P x)) as [HP|HP]; destruct (decide (Q x)) as [HQ|HQ].
  - exfalso. apply (Hdisj x); [left|assumption..].
  - rewrite decide_True by auto. simpl. now rewrite IH'.
  - rewrite decide_True by auto. rewrite IH'. apply Permutation_middle.
  - rewrite decide_False by tauto. exact IH'.
Qed.

Lemma pick_all V ixs :
  (forall ia, ia ∈ ixs -> fst ia ∈ V) -> pick V ixs = snd <$> ixs.
Proof.
  intros Hall. unfold pick. f_equal.
  induction ixs as [|x ixs IH]; [reflexivity|].
  rewrite filter_cons_True by (apply Hall; left).
  f_equal. apply IH. intros ia Hia. apply Hall. now right.
Qed.

Lemma filter_index_singleton ixs i a :
  NoDup (fst <$> ixs) -> (i, a) ∈ ixs ->
  filter (fun ia : nat * A => fst ia = i) ixs = [(i, a)].
Proof.
  induction ixs as [|[j b] ixs IH]; intros Hnd Hin; [inversion Hin|].
  simpl in Hnd. pose proof (proj1 (NoDup_cons _ _) Hnd) as [Hj Hnd'].
  clear Hnd. rename Hnd' into Hnd.
  rewrite filter_cons. simpl.
  assert (Hnone : forall l : list (nat * A), j ∉ fst <$> l ->
            filter (fun ia : nat * A => fst ia = j) l = []).
  { clear. induction l as [|[k c] l IHl]; intros Hk; [reflexivity|].
    simpl in Hk. apply not_elem_of_cons in Hk as [Hne Hk].
    rewrite filter_cons_False by (simpl; congruence). auto. }
  apply elem_of_cons in Hin as [Heq|Hin].
  - inversion Heq; subst. rewrite decide_True by reflexivity.
    f_equal. apply Hnone. exact Hj.
  - destruct (decide (j = i)) as [->|Hne].
    + exfalso. apply Hj. apply list_elem_of_fmap. exists (i, a). auto.
    + apply IH; assumption.
Qed.
Lemma NoDup_fst_inj ixs ia ib :
  NoDup (fst <$> ixs) -> ia ∈ ixs -> ib ∈ ixs -> fst ia = fst ib -> ia = ib.
Proof.
  induction ixs as [|x ixs IH]; intros Hnd Ha Hb Heq; [inversion Ha|].
  simpl in Hnd. pose proof (proj1 (NoDup_cons _ _) Hnd) as [Hx Hnd'].
  apply elem_of_cons in Ha as [->|Ha]; apply elem_of_cons in Hb as [->|Hb].
  - reflexivity.
  - exfalso. apply Hx. rewrite Heq. apply list_elem_of_fmap. eauto.
  - exfalso. apply Hx. rewrite <- Heq. apply list_elem_of_fmap. eauto.
  - apply IH; assumption.
Qed.
End PickFacts.

Section GroupRegions.
Import AdvancedImageAnalysis.
Variable all : list Sample.
Variable maxDistance : float.

(** The points the inner loop adds to the group seeded by [region] when it
    starts from the visited set [V]. *)
Let absorbed (V : gset nat) (region : Sample) (l : list (nat * Sample)) :=
  filter (fun ia => (fst ia ∉ V) /\ near maxDistance region (snd ia) = true) l.

(** The inner loop in closed form. *)
Lemma inner_loop region : forall l group V,
  NoDup (fst <$> l) ->
  let res := fold_left (fun s ia => absorbStep maxDistance region s (snd ia) (fst ia))
               l (group, V) in
  regions (fst res) = regions group ++ (snd <$> absorbed V region l) /\
  snd res = list_to_set (fst <$> absorbed V region l) ∪ V /\
  totalScore (fst res)
  = fold_left PrimFloat.add (score <$> (snd <$> absorbed V region l))
      (totalScore group).
Proof.
  induction l as [|[j a] l IH]; intros group V Hnd.
  - simpl. rewrite app_nil_r. repeat split. now rewrite (left_id_L ∅ (∪)).
  - simpl in Hnd. pose proof (proj1 (NoDup_cons _ _) Hnd) as [Hj Hnd'].
    clear Hnd. rename Hnd' into Hnd.
    simpl fold_left.
    unfold absorbed. rewrite filter_cons. simpl fst. simpl snd.
    destruct (decide (j ∈ V)) as [HjV|HjV].
    + rewrite decide_False by tauto. apply IH. exact Hnd.
    + fold (near maxDistance region a).
      destruct (near maxDistance region a) eqn:Hnear.
      * rewrite decide_True by auto.
        assert (E : absorbed ({[j]} ∪ V) region l = absorbed V region l).
        { unfold absorbed. apply filter_ext_in. intros [k b] Hk. simpl.
          assert (k <> j).
          { intros ->. apply Hj. apply list_elem_of_fmap. exists (j, b). auto. }
          set_solver. }
        specialize (IH (mkGroup (regions group ++ [a]) (center group)
            (mkBounds (JS.Math_min (minX (bounds group)) (x a))
                      (JS.Math_min (minY (bounds group)) (y a))
                      (JS.Math_max (maxX (bounds group)) (x a))
                      (JS.Math_max (maxY (bounds group)) (y a)))
            (totalScore group + score a)%float (averageScore group))
          ({[j]} ∪ V) Hnd).
        cbv zeta in IH. rewrite E in IH. fold (absorbed V region l).
        destruct IH as (IH1 & IH2 & IH3).
        split; [|split].
        -- rewrite IH1. simpl. now rewrite <- app_assoc.
        -- rewrite IH2. simpl. set_solver.
        -- rewrite IH3. reflexivity.
      * rewrite decide_False by (intros [_ ?]; discriminate).
        apply IH. exact Hnd.
Qed.

Let ixs := indexed all.

Let avg_ok (g : Group) : Prop :=
  averageScore g = Some (mean (score <$> regions g)).

Let Inv (pre : list (nat * Sample)) (st : list Group * gset nat) : Prop :=
  concat (regions <$> fst st) ≡ₚ pick (snd st) ixs /\
  (forall ia, ia ∈ pre -> fst ia ∈ snd st) /\
  Forall avg_ok (fst st) /\
  Forall (fun g => regions g <> []) (fst st).

(** One turn of the outer loop keeps the invariant. *)
Lemma groupStep_invariant pre st i region :
  (i, region) ∈ ixs ->
  Inv pre st ->
  Inv (pre ++ [(i, region)]) (groupStep all maxDistance st region i).
Proof.
  intros Hin (Hperm & Hpre & Havg & Hne). destruct st as [groups V].
  simpl in Hperm, Hpre, Havg, Hne. unfold groupStep.
  destruct (decide (i ∈ V)) as [HiV|HiV].
  - repeat split; auto. simpl. intros ia Hia.
    apply elem_of_app in Hia as [Hia|Hia]; [auto|].
    apply list_elem_of_singleton in Hia. now subst.
  - unfold absorb, JS.forEach_i. fold (indexed all). fold ixs.
    set (group0 := mkGroup [region] (x region, y region)
           (mkBounds (x region) (y region) (x region) (y region))
           (score region) None).
    pose proof (inner_loop region ixs group0 ({[i]} ∪ V) (indexed_NoDup all))
      as Hinner.
    cbv zeta in Hinner.
    destruct (fold_left _ ixs (group0, {[i]} ∪ V)) as [g' V'].
    simpl in Hinner. destruct Hinner as (Hreg & HV' & Htot).
    set (added := absorbed ({[i]} ∪ V) region ixs) in *.
    assert (HinV' : forall ia, ia ∈ ixs ->
      fst ia ∈ V' <->
      fst ia ∈ V \/ (fst ia = i \/
        ((fst ia ∉ {[i]} ∪ V) /\ near maxDistance region (snd ia) = true))).
    { intros ia Hia. rewrite HV'. split.
      - intros H. apply elem_of_union in H as [H|H].
        + apply elem_of_list_to_set, list_elem_of_fmap in H as (ib & Heq & Hib).
          subst added. unfold absorbed in Hib.
          apply list_elem_of_filter in Hib as [HR Hib].
          assert (ia = ib) by (eapply NoDup_fst_inj; eauto using indexed_NoDup).
          subst ib. auto.
        + apply elem_of_union in H as [H|H]; [|auto].
          apply elem_of_singleton in H. auto.
      - intros [H|[H|HR]].
        + apply elem_of_union. right. apply elem_of_union. now right.
        + apply elem_of_union. right. apply elem_of_union. left.
          now apply elem_of_singleton.
        + apply elem_of_union. left.
          apply elem_of_list_to_set, list_elem_of_fmap.
          exists ia. split; [reflexivity|].
          subst added. unfold absorbed. apply list_elem_of_filter. auto. }
    repeat split; simpl.
    + rewrite fmap_app, concat_app. simpl. rewrite app_nil_r.
      rewrite Hperm, Hreg. unfold pick.
      rewrite (filter_ext_in _ _ ixs HinV').
      rewrite filter_or_Permutation.
      * rewrite fmap_app. apply Permutation_app_head.
        rewrite filter_or_Permutation.
        -- rewrite fmap_app.
           rewrite (filter_index_singleton ixs i region)
             by first [exact (indexed_NoDup all) | exact Hin].
           reflexivity.
        -- intros ia _ Hi [Hni _]. apply Hni. set_solver.
      * intros ia _ HV [Hi|[Hni _]]; [congruence|]. apply Hni. set_solver.
    + intros ia Hia. apply elem_of_app in Hia as [Hia|Hia].
      * rewrite HV'. specialize (Hpre ia Hia). set_solver.
      * apply list_elem_of_singleton in Hia. subst ia. simpl.
        rewrite HV'. set_solver.
    + apply Forall_app. split; [exact Havg|]. constructor; [|constructor].
      unfold avg_ok, finish. simpl. rewrite Hreg, Htot. simpl.
      rewrite !length_fmap. reflexivity.
    + apply Forall_app. split; [exact Hne|]. constructor; [|constructor].
      unfold finish. simpl. rewrite Hreg. discriminate.
Qed.

Lemma groupRegions_invariant :
  Inv ixs (fold_left (fun s ia => groupStep all maxDistance s (snd ia) (fst ia))
             ixs ([], ∅)).
Proof.
  assert (E : forall l post, ixs = l ++ post ->
    Inv l (fold_left (fun s ia => groupStep all maxDistance s (snd ia) (fst ia))
             l ([], ∅))).
  { induction l as [|[i region] l IH] using rev_ind; intros post Hsplit.
    - unfold Inv. simpl. split; [|split; [|split; constructor]].
      + unfold pick. clear. induction ixs as [|x l IHl]; [reflexivity|].
        rewrite filter_cons_False by set_solver. exact IHl.
      + intros ia Hia. inversion Hia.
    - rewrite fold_left_app. simpl.
      apply groupStep_invariant.
      + rewrite Hsplit. apply elem_of_app. left. apply elem_of_app. right. left.
      + apply (IH ([(i, region)] ++ post)). rewrite Hsplit.
        now rewrite <- app_assoc. }
  apply (E ixs []). now rewrite app_nil_r.
Qed.
End GroupRegions.

(** C10.  [groupRegions] partitions its input: the members of the returned
    clusters, taken together, are the input points, each once; no cluster
    is empty; and the [averageScore] of every cluster is the arithmetic
    mean of the scores of its members. *)
Theorem groupRegions_partition_and_mean
    (regions : list AdvancedImageAnalysis.Sample) (maxDistance : float) :
  let groups := AdvancedImageAnalysis.groupRegions regions maxDistance in
  concat (AdvancedImageAnalysis.regions <$> groups) ≡ₚ regions /\
  Forall (fun g => AdvancedImageAnalysis.regions g <> []) groups /\
  Forall (fun g =>
    AdvancedImageAnalysis.averageScore g
    = Some (mean (AdvancedImageAnalysis.score
                    <$> AdvancedImageAnalysis.regions g))) groups.
Proof.
  intros groups. subst groups.
  unfold AdvancedImageAnalysis.groupRegions, JS.forEach_i.
  fold (indexed regions).
  destruct (groupRegions_invariant regions maxDistance)
    as (Hperm & Hall & Havg & Hne).
  repeat split; auto.
  rewrite Hperm, pick_all by exact Hall.
  now rewrite indexed_snd.
Qed.

(* ===================================================================== *)
(** * Worked examples *)
(* ===================================================================== *)

(** A crop whose centre is a thirds intersection scores 1. *)
Example ruleOfThirds_on_intersection :
  AIComposer.ruleOfThirdsAnalysis (uniform 3 3 0 0 0)
    (Some (AIComposer.mkCrop 0 0 2 2)) = 1%float.
Proof. vm_compute. reflexivity. Qed.

(** A crop of zero width and height makes the golden-ratio rule divide 0
    by 0. *)
Example goldenRatio_empty_crop_is_NaN :
  AIComposer.goldenRatioAnalysis (uniform 3 3 0 0 0)
    (Some (AIComposer.mkCrop 0 0 0 0)) = nan.
Proof. vm_compute. reflexivity. Qed.

(** On a 2x3 buffer the row stride [Math.sqrt(6)] is not an integer: the
    second row is read at fractional indices, and the weight is NaN. *)
Example balance_nonsquare_is_NaN :
  AIComposer.calculateVisualWeight (data (uniform 2 3 10 20 30)) 0 0 1 3 = nan /\
  subScore "balance" (uniform 2 3 10 20 30) None = Some nan.
Proof. split; vm_compute; reflexivity. Qed.

(** Scores of the suggestions for a bright and for a dark 3x3 buffer. *)
Example cropSuggestions_bright_and_dark :
  map AISuggestions.score
    (AISuggestions.generateCropSuggestions (uniform 3 3 200 200 200) 3 3)
  = [90; 80; 75]%float /\
  map AISuggestions.score
    (AISuggestions.generateCropSuggestions (uniform 3 3 20 20 20) 3 3)
  = [90; 80; 75; 70]%float.
Proof. split; vm_compute; reflexivity. Qed.

(** Greedy grouping in scan order: the point at 40 joins the seed at 0, the
    point at 80 is left to the seed at 100, although 40 and 80 are 40
    apart. *)
Example groupRegions_scan_order :
  map (fun g => (AdvancedImageAnalysis.x <$> AdvancedImageAnalysis.regions g,
                 AdvancedImageAnalysis.averageScore g))
    (AdvancedImageAnalysis.groupRegions
       [AdvancedImageAnalysis.mkSample 0 0 0.8;
        AdvancedImageAnalysis.mkSample 100 0 0.5;
        AdvancedImageAnalysis.mkSample 40 0 0.6;
        AdvancedImageAnalysis.mkSample 80 0 0.1] 50)
  = [([0; 40]%float, Some ((0.8 + 0.6) / 2)%float);
     ([100; 80]%float, Some ((0.5 + 0.1) / 2)%float)].
Proof. vm_compute. reflexivity. Qed.
(* ===================================================================== *)
(** * Order and NaN on Numbers *)
(* ===================================================================== *)

(** The comparison of two finite values of the same sign. *)
Lemma fin_cmp_spec (e1 e2 : Z) (m1 m2 : positive) :
  CompareSpec (e1 = e2 /\ m1 = m2)
    (e1 < e2 \/ e1 = e2 /\ Z.pos m1 < Z.pos m2)
    (e2 < e1 \/ e1 = e2 /\ Z.pos m2 < Z.pos m1)
    (match e1 ?= e2 with
     | Eq => Pos.compare_cont Eq m1 m2
     | Lt => Lt
     | Gt => Gt
     end).
Proof.
  destruct (Z.compare_spec e1 e2) as [E|L|G].
  - change (Pos.compare_cont Eq m1 m2) with (m1 ?= m2)%positive.
    destruct (Pos.compare_spec m1 m2) as [E'|L'|G']; constructor; auto; right; split; auto; lia.
  - constructor. now left.
  - constructor. now left.
Qed.

Lemma SFcompare_finite s1 m1 e1 s2 m2 e2 :
  SFcompare (S754_finite s1 m1 e1) (S754_finite s2 m2 e2)
  = Some (if s1
          then if s2
               then CompOpp (match e1 ?= e2 with
                             | Eq => Pos.compare_cont Eq m1 m2
                             | Lt => Lt
                             | Gt => Gt
                             end)
               else Lt
          else if s2 then Gt
               else match e1 ?= e2 with
                    | Eq => Pos.compare_cont Eq m1 m2
                    | Lt => Lt
                    | Gt => Gt
                    end).
Proof.
  simpl. destruct s1, s2; try reflexivity. destruct (e1 ?= e2); reflexivity.
Qed.

Lemma SFcompare_refl s : s <> S754_nan -> SFcompare s s = Some Eq.
Proof.
  destruct s as [s|s| |s m e]; intros H; try congruence.
  - reflexivity.
  - destruct s; reflexivity.
  - rewrite SFcompare_finite.
    destruct (fin_cmp_spec e e m m); destruct s; simpl; try reflexivity; lia.
Qed.

Lemma SFcompare_antisym x y :
  SFcompare y x = option_map CompOpp (SFcompare x y).
Proof.
  destruct x as [s1|s1| |s1 m1 e1], y as [s2|s2| |s2 m2 e2];
    try (simpl; repeat match goal with s : bool |- _ => destruct s end; reflexivity).
  rewrite !SFcompare_finite. simpl.
  destruct (fin_cmp_spec e1 e2 m1 m2), (fin_cmp_spec e2 e1 m2 m1);
    destruct s1, s2; simpl; try reflexivity; exfalso; lia.
Qed.

Lemma SFle_trans x y z : SFle x y -> SFle y z -> SFle x z.
Proof.
  unfold SFle.
  destruct x as [s1|s1| |s1 m1 e1], y as [s2|s2| |s2 m2 e2],
           z as [s3|s3| |s3 m3 e3];
    try (simpl; repeat match goal with s : bool |- _ => destruct s end;
         simpl; tauto).
  rewrite !SFcompare_finite.
  destruct s1, s2, s3; simpl; try tauto;
    destruct (fin_cmp_spec e1 e2 m1 m2), (fin_cmp_spec e2 e3 m2 m3),
             (fin_cmp_spec e1 e3 m1 m3); simpl; try tauto; intros; exfalso; lia.
Qed.

Lemma Prim2SF_nan : Prim2SF nan = S754_nan.
Proof. reflexivity. Qed.

Lemma is_nan_false x : is_nan x = false <-> Prim2SF x <> S754_nan.
Proof.
  unfold is_nan. rewrite FloatAxioms.eqb_spec. unfold SFeqb.
  destruct (Prim2SF x) as [s|s| |s m e] eqn:E.
  - simpl. split; [congruence|reflexivity].
  - rewrite SFcompare_refl by congruence. simpl. split; [congruence|reflexivity].
  - simpl. split; [discriminate|congruence].
  - rewrite SFcompare_refl by congruence. simpl. split; [congruence|reflexivity].
Qed.

Lemma is_nan_true x : is_nan x = true <-> x = nan.
Proof.
  split.
  - intros H. apply Prim2SF_inj. rewrite Prim2SF_nan.
    destruct (Prim2SF x) eqn:E; try reflexivity;
      assert (N : is_nan x = false) by (apply is_nan_false; congruence);
      congruence.
  - intros ->. reflexivity.
Qed.

Lemma leb_SFle x y : (x <=? y)%float = true <-> SFle (Prim2SF x) (Prim2SF y).
Proof.
  rewrite FloatAxioms.leb_spec. unfold SFleb, SFle.
  destruct (SFcompare (Prim2SF x) (Prim2SF y)) as [[]|]; simpl;
    split; auto; discriminate.
Qed.

Lemma ltb_SFlt x y : (x <? y)%float = true <-> SFlt (Prim2SF x) (Prim2SF y).
Proof.
  rewrite FloatAxioms.ltb_spec. unfold SFltb, SFlt.
  destruct (SFcompare (Prim2SF x) (Prim2SF y)) as [[]|]; simpl;
    split; auto; discriminate.
Qed.

Lemma ltb_irrefl x : (x <? x)%float = false.
Proof.
  rewrite FloatAxioms.ltb_spec. unfold SFltb.
  destruct (Prim2SF x) as [s|s| |s m e] eqn:E; try reflexivity;
    rewrite SFcompare_refl by congruence; reflexivity.
Qed.

Lemma ltb_asym x y : (x <? y)%float = true -> (y <? x)%float = false.
Proof.
  rewrite !FloatAxioms.ltb_spec. unfold SFltb.
  rewrite (SFcompare_antisym (Prim2SF x) (Prim2SF y)).
  destruct (SFcompare (Prim2SF x) (Prim2SF y)) as [[]|]; simpl; congruence.
Qed.

Lemma ltb_nan_r x : (x <? nan)%float = false.
Proof.
  rewrite FloatAxioms.ltb_spec, Prim2SF_nan. unfold SFltb.
  destruct (Prim2SF x); reflexivity.
Qed.

Lemma ltb_nan_l x : (nan <? x)%float = false.
Proof. rewrite FloatAxioms.ltb_spec, Prim2SF_nan. reflexivity. Qed.

Lemma leb_nan_r x : (x <=? nan)%float = false.
Proof.
  rewrite FloatAxioms.leb_spec, Prim2SF_nan. unfold SFleb.
  destruct (Prim2SF x); reflexivity.
Qed.

Lemma leb_nan_l x : (nan <=? x)%float = false.
Proof. rewrite FloatAxioms.leb_spec, Prim2SF_nan. reflexivity. Qed.

Lemma ltb_leb x y : (x <? y)%float = true -> (x <=? y)%float = true.
Proof.
  rewrite FloatAxioms.ltb_spec, FloatAxioms.leb_spec. unfold SFltb, SFleb.
  destruct (SFcompare (Prim2SF x) (Prim2SF y)) as [[]|]; congruence.
Qed.

Lemma leb_refl x : is_nan x = false -> (x <=? x)%float = true.
Proof.
  intros H. apply is_nan_false in H.
  rewrite FloatAxioms.leb_spec. unfold SFleb. now rewrite SFcompare_refl.
Qed.

(** Two Numbers that are not NaN are comparable. *)
Lemma leb_total x y :
  is_nan x = false -> is_nan y = false ->
  (x <? y)%float = false -> (y <=? x)%float = true.
Proof.
  intros Hx Hy. apply is_nan_false in Hx, Hy.
  rewrite FloatAxioms.ltb_spec, FloatAxioms.leb_spec. unfold SFltb, SFleb.
  rewrite (SFcompare_antisym (Prim2SF x) (Prim2SF y)).
  destruct (Prim2SF x) as [s1|s1| |s1 m1 e1], (Prim2SF y) as [s2|s2| |s2 m2 e2];
    try congruence;
    try (simpl; repeat match goal with s : bool |- _ => destruct s end;
         simpl; congruence).
  rewrite SFcompare_finite.
  destruct s1, s2; simpl; try congruence;
    destruct (fin_cmp_spec e1 e2 m1 m2); simpl; congruence.
Qed.

Lemma leb_trans x y z :
  (x <=? y)%float = true -> (y <=? z)%float = true -> (x <=? z)%float = true.
Proof. rewrite !leb_SFle. apply SFle_trans. Qed.

(** ** [Math.min] and [Math.max] *)

Lemma Math_min_cases a b :
  JS.Math_min a b = nan \/
  (JS.Math_min a b = a /\ (b <? a)%float = false) \/
  (JS.Math_min a b = b /\ (a <? b)%float = false).
Proof.
  unfold JS.Math_min.
  destruct (is_nan a || is_nan b); [now left|].
  destruct (a <? b)%float eqn:E1.
  - right. left. split; [reflexivity|]. now apply ltb_asym.
  - destruct (b <? a)%float eqn:E2.
    + right. right. now split.
    + destruct (get_sign a); [right; left | right; right]; now split.
Qed.

Lemma Math_max_cases a b :
  JS.Math_max a b = nan \/
  (JS.Math_max a b = a /\ (a <? b)%float = false) \/
  (JS.Math_max a b = b /\ (b <? a)%float = false).
Proof.
  unfold JS.Math_max.
  destruct (is_nan a || is_nan b); [now left|].
  destruct (a <? b)%float eqn:E1.
  - right. right. split; [reflexivity|]. now apply ltb_asym.
  - destruct (b <? a)%float eqn:E2.
    + right. left. now split.
    + destruct (get_sign a); [right; right | right; left]; now split.
Qed.

(** [Math.min(a, b)] is above neither argument. *)
Lemma Math_min_not_above a b :
  (a <? JS.Math_min a b)%float = false /\ (b <? JS.Math_min a b)%float = false.
Proof.
  destruct (Math_min_cases a b) as [->|[[-> H]|[-> H]]];
    rewrite ?ltb_nan_r, ?ltb_irrefl; auto.
Qed.

(** [Math.max(a, b)] is below neither argument. *)
Lemma Math_max_not_below a b :
  (JS.Math_max a b <? a)%float = false /\ (JS.Math_max a b <? b)%float = false.
Proof.
  destruct (Math_max_cases a b) as [->|[[-> H]|[-> H]]];
    rewrite ?ltb_nan_l, ?ltb_irrefl; auto.
Qed.

Lemma Math_min_le a b :
  is_nan a = false -> is_nan b = false ->
  is_nan (JS.Math_min a b) = false /\
  (JS.Math_min a b <=? a)%float = true /\ (JS.Math_min a b <=? b)%float = true.
Proof.
  intros Ha Hb. unfold JS.Math_min. rewrite Ha, Hb. simpl.
  destruct (a <? b)%float eqn:E1.
  - repeat split; auto using leb_refl, ltb_leb.
  - destruct (b <? a)%float eqn:E2.
    + repeat split; auto using leb_refl, ltb_leb.
    + destruct (get_sign a); repeat split; auto using leb_refl, leb_total.
Qed.

Lemma Math_max_ge a b :
  is_nan a = false -> is_nan b = false ->
  is_nan (JS.Math_max a b) = false /\
  (a <=? JS.Math_max a b)%float = true /\ (b <=? JS.Math_max a b)%float = true.
Proof.
  intros Ha Hb. unfold JS.Math_max. rewrite Ha, Hb. simpl.
  destruct (a <? b)%float eqn:E1.
  - repeat split; auto using leb_refl, ltb_leb.
  - destruct (b <? a)%float eqn:E2.
    + repeat split; auto using leb_refl, ltb_leb.
    + destruct (get_sign a); repeat split; auto using leb_refl, leb_total.
Qed.

(** ** NaN is contagious *)

Lemma add_nan_r x : (x + nan)%float = nan.
Proof.
  apply Prim2SF_inj. rewrite FloatAxioms.add_spec, Prim2SF_nan.
  destruct (Prim2SF x); reflexivity.
Qed.

Lemma add_nan_l x : (nan + x)%float = nan.
Proof. apply Prim2SF_inj. rewrite FloatAxioms.add_spec, Prim2SF_nan. reflexivity. Qed.

Lemma mul_nan_l x : (nan * x)%float = nan.
Proof. apply Prim2SF_inj. rewrite FloatAxioms.mul_spec, Prim2SF_nan. reflexivity. Qed.

Lemma div_nan_l x : (nan / x)%float = nan.
Proof. apply Prim2SF_inj. rewrite FloatAxioms.div_spec, Prim2SF_nan. reflexivity. Qed.



Lemma SFlt_trans x y z : SFlt x y -> SFlt y z -> SFlt x z.
Proof.
  unfold SFlt.
  destruct x as [s1|s1| |s1 m1 e1], y as [s2|s2| |s2 m2 e2],
           z as [s3|s3| |s3 m3 e3];
    try (simpl; repeat match goal with s : bool |- _ => destruct s end;
         simpl; congruence).
  rewrite !SFcompare_finite.
  destruct s1, s2, s3; simpl; try congruence;
    destruct (fin_cmp_spec e1 e2 m1 m2), (fin_cmp_spec e2 e3 m2 m3),
             (fin_cmp_spec e1 e3 m1 m3); simpl; try congruence;
    intros; exfalso; lia.
Qed.

Lemma ltb_trans x y z :
  (x <? y)%float = true -> (y <? z)%float = true -> (x <? z)%float = true.
Proof. rewrite !ltb_SFlt. apply SFlt_trans. Qed.
(* ===================================================================== *)
(** * Stepped loops *)
(* ===================================================================== *)

Lemma counters_nil start stop step :
  1 <= step -> stop <= start -> counters start stop step = [].
Proof.
  intros Hs Hle. unfold counters. rewrite seqZ_nil; [reflexivity|].
  apply Z.lt_succ_r. apply Z.div_lt_upper_bound; lia.
Qed.

Lemma counters_cons start stop step :
  1 <= step -> start < stop ->
  counters start stop step = start :: counters (start + step) stop step.
Proof.
  intros Hs Hlt. unfold counters.
  replace (stop - start + step - 1) with ((stop - (start + step) + step - 1) + 1 * step) by lia.
  rewrite Z.div_add by lia.
  set (n := (stop - (start + step) + step - 1) / step).
  assert (Hn : 0 <= n) by (apply Z.div_pos; lia).
  rewrite seqZ_cons by lia. simpl.
  f_equal; [lia|].
  replace (Z.pred (n + 1)) with n by lia.
  change (Z.succ 0) with (1 + 0). rewrite <- fmap_add_seqZ.
  rewrite <- list_fmap_compose. apply list_fmap_ext.
  intros _ k _. simpl. lia.
Qed.

Lemma elem_of_counters start stop step i :
  1 <= step ->
  i ∈ counters start stop step <->
  exists k, 0 <= k /\ i = start + k * step /\ i < stop.
Proof.
  intros Hs. unfold counters. rewrite list_elem_of_fmap. split.
  - intros (k & -> & Hk). apply elem_of_seqZ in Hk. exists k.
    repeat split; try lia.
    destruct Hk as [Hk0 Hk1]. rewrite Z.add_0_l in Hk1.
    assert (H : k * step <= stop - start - 1); [|lia].
    assert (H1 : k + 1 <= (stop - start + step - 1) / step) by lia.
    apply (Z.mul_le_mono_nonneg_r _ _ step) in H1; [|lia].
    pose proof (Z.mul_div_le (stop - start + step - 1) step ltac:(lia)). lia.
  - intros (k & Hk & -> & Hlt). exists k. split; [reflexivity|].
    apply elem_of_seqZ. split; [lia|]. rewrite Z.add_0_l.
    assert (k + 1 <= (stop - start + step - 1) / step); [|lia].
    apply Z.div_le_lower_bound; lia.
Qed.

Section SteppedLoops.
Context {S : Type}.
Implicit Types (body : Z -> S -> S) (s : S).

(** A [for (i = start; i < stop; i += step)] loop is a fold over its
    counter values. *)
Lemma for_lt_counters body start stop step s :
  1 <= step ->
  JS.for_lt start stop step body s
  = fold_left (fun s i => body i s) (counters start stop step) s.
Proof.
  intros Hs. unfold JS.for_lt.
  assert (E : forall (n : nat) a s0, stop - a <= Z.of_nat n ->
    JS.for_fuel n (fun i => i <? stop) step body a s0
    = fold_left (fun s i => body i s) (counters a stop step) s0).
  { induction n as [|n IH]; intros a s0 Hn; simpl.
    - rewrite counters_nil by lia. reflexivity.
    - destruct (Z.ltb_spec a stop) as [Hlt|Hge].
      + rewrite counters_cons by lia. simpl. apply IH. lia.
      + rewrite counters_nil by lia. reflexivity. }
  apply E. lia.
Qed.


Lemma forF_fuel_preserves (P : S -> Prop) stop step (body : float -> S -> S) :
  (forall i s, (i <? stop)%float = true -> P s -> P (body i s)) ->
  forall fuel i s, P s -> P (JS.forF_fuel fuel stop step body i s).
Proof.
  intros Hbody. induction fuel as [|fuel IH]; intros i s Hs; simpl; [exact Hs|].
  destruct (i <? stop)%float eqn:G; [|exact Hs]. apply IH, Hbody; auto.
Qed.

(** The same with a fact [Q] about the counter that every step
    preserves. *)
Lemma for_fuel_counter (Q : Z -> Prop) (P : S -> Prop) guard step body :
  (forall i, Q i -> Q (i + step)) ->
  (forall i s, Q i -> guard i = true -> P s -> P (body i s)) ->
  forall fuel i s, Q i -> P s -> P (JS.for_fuel fuel guard step body i s).
Proof.
  intros HQ Hbody. induction fuel as [|fuel IH]; intros i s Hi Hs; simpl; [exact Hs|].
  destruct (guard i) eqn:G; [|exact Hs]. apply IH; auto.
Qed.

Lemma fold_left_preserves {K} (P : S -> Prop) (f : S -> K -> S) (ks : list K) :
  (forall s k, k ∈ ks -> P s -> P (f s k)) ->
  forall s, P s -> P (fold_left f ks s).
Proof.
  induction ks as [|k ks IH]; intros Hf s Hs; simpl; [exact Hs|].
  apply IH.
  - intros s' k' Hk'. apply Hf. now right.
  - apply Hf; [left|exact Hs].
Qed.
End SteppedLoops.
(* ===================================================================== *)
(** * The comparator [b - a] *)
(* ===================================================================== *)

(** ** Rounding does not reach zero above the smallest exponent *)

Lemma shl_align_min mx ex ex' :
  let '(mz, ez) := shl_align mx ex ex' in
  ez = Z.min ex ex' /\ Z.pos mz = Z.pos mx * 2 ^ (ex - ez).
Proof.
  pose proof (shl_align_spec mx ex ex') as H.
  unfold shl_align in *. destruct (ex' - ex) as [|d|d] eqn:Ed.
  - destruct H as (_ & H & _). split; [lia|exact H].
  - destruct H as (_ & H & _). split; [lia|exact H].
  - destruct H as (_ & H & _). split; [lia|exact H].
Qed.

Lemma shr_fexp_pos m e l :
  0 < m -> -1074 <= e ->
  let '(mrs, e') := shr_fexp prec emax m e l in
  0 < shr_m mrs /\ -1074 <= e'.
Proof.
  intros Hm He. unfold shr_fexp, shr.
  set (n := fexp prec emax (Zdigits2 m + e) - e).
  destruct n as [|p|p] eqn:En.
  - rewrite shr_record_of_loc_m. split; lia.
  - rewrite iter_pos_shr_1_m by (rewrite shr_record_of_loc_m; lia).
    rewrite shr_record_of_loc_m.
    unfold fexp, SpecFloat.emin, prec, emax in n.
    assert (Hp : Z.pos p = Zdigits2 m - 53) by lia.
    split; [|lia].
    destruct m as [|q|q]; try lia.
    pose proof (digits2_pos_bounds q) as [Hlo _]. simpl Zdigits2 in Hp.
    assert (H2 : 2 ^ Z.pos p <= Z.pos q).
    { etransitivity; [|exact Hlo]. apply Z.pow_le_mono_r; lia. }
    assert (0 < 2 ^ Z.pos p) by (apply Z.pow_pos_nonneg; lia).
    apply Z.div_str_pos. lia.
  - rewrite shr_record_of_loc_m. split; lia.
Qed.

Lemma binary_round_aux_strictly s m e l :
  0 < m -> -1074 <= e -> strictly s (binary_round_aux prec emax s m e l).
Proof.
  intros Hm He. unfold binary_round_aux.
  pose proof (shr_fexp_pos m e l Hm He) as H1.
  destruct (shr_fexp prec emax m e l) as [mrs' e'].
  destruct H1 as [Hm' He'].
  pose proof (round_nearest_even_bounds (shr_m mrs') (loc_of_shr_record mrs')) as Hr.
  pose proof (shr_fexp_pos (round_nearest_even (shr_m mrs') (loc_of_shr_record mrs'))
                e' loc_Exact ltac:(lia) He') as H2.
  destruct (shr_fexp prec emax _ e' loc_Exact) as [mrs'' e''].
  destruct H2 as [Hm'' _].
  destruct (shr_m mrs'') as [|p|p]; try lia.
  destruct (e'' <=? emax - prec); reflexivity.
Qed.

Lemma binary_round_strictly s m e :
  -1074 <= e -> strictly s (binary_round prec emax s m e).
Proof.
  intros He. unfold binary_round.
  pose proof (shl_align_min m e (fexp prec emax (Z.pos (digits2_pos m) + e))) as H.
  destruct (shl_align m e _) as [mz ez]. destruct H as [Hez _].
  apply binary_round_aux_strictly; [lia|].
  unfold fexp, SpecFloat.emin, prec, emax in Hez. lia.
Qed.

(** The sign of [binary_normalize]: a non-zero integer does not round to
    zero. *)
Lemma binary_normalize_positive D e :
  -1074 <= e ->
  SFltb (S754_zero false) (binary_normalize prec emax D e false) = (0 <? D).
Proof.
  intros He. destruct D as [|p|p]; simpl binary_normalize.
  - reflexivity.
  - pose proof (binary_round_strictly false p e He) as H.
    destruct (binary_round prec emax false p e) as [| [] | | [] ? ?];
      simpl in H; try contradiction; try discriminate; reflexivity.
  - pose proof (binary_round_strictly true p e He) as H.
    destruct (binary_round prec emax true p e) as [| [] | | [] ? ?];
      simpl in H; try contradiction; try discriminate; reflexivity.
Qed.

(** ** Aligned mantissas compare as the values do *)

Lemma valid_mantissa s m e :
  valid_binary (S754_finite s m e) = true ->
  -1074 <= e /\ Z.pos m < 2 ^ 53 /\ (-1074 < e -> 2 ^ 52 <= Z.pos m).
Proof.
  intros V. apply valid_exponent in V as [_ V].
  pose proof (digits2_pos_bounds m) as [Hlo Hhi]. simpl Zdigits2 in V.
  split; [lia|]. split.
  - eapply Z.lt_le_trans; [exact Hhi|]. apply Z.pow_le_mono_r; lia.
  - intros He. replace (Z.pos (digits2_pos m)) with 53 in Hlo by lia. exact Hlo.
Qed.

Lemma aligned_compare mx ex my ey :
  valid_binary (S754_finite false mx ex) = true ->
  valid_binary (S754_finite false my ey) = true ->
  let ez := Z.min ey ex in
  (Z.pos my * 2 ^ (ey - ez) ?= Z.pos mx * 2 ^ (ex - ez))
  = CompOpp (match ex ?= ey with
             | Eq => Pos.compare_cont Eq mx my
             | Lt => Lt
             | Gt => Gt
             end).
Proof.
  intros Vx Vy ez.
  destruct (valid_mantissa _ _ _ Vx) as (Hex & Hmx & Hnx).
  destruct (valid_mantissa _ _ _ Vy) as (Hey & Hmy & Hny).
  destruct (fin_cmp_spec ex ey mx my) as [[E1 E2]|H|H]; simpl CompOpp.
  - subst. apply Z.compare_eq_iff. reflexivity.
  - apply Z.compare_gt_iff. destruct H as [H|[H1 H2]].
    + subst ez. rewrite Z.min_r by lia. rewrite Z.sub_diag, Z.mul_1_r.
      assert (2 * 1 <= 2 ^ (ey - ex)).
      { change (2 * 1) with (2 ^ 1). apply Z.pow_le_mono_r; lia. }
      specialize (Hny ltac:(lia)). nia.
    + subst ez. subst ey. rewrite Z.min_id, Z.sub_diag, !Z.mul_1_r. exact H2.
  - apply Z.compare_lt_iff. destruct H as [H|[H1 H2]].
    + subst ez. rewrite Z.min_l by lia. rewrite Z.sub_diag, Z.mul_1_r.
      assert (2 * 1 <= 2 ^ (ex - ey)).
      { change (2 * 1) with (2 ^ 1). apply Z.pow_le_mono_r; lia. }
      specialize (Hnx ltac:(lia)). nia.
    + subst ez. subst ey. rewrite Z.min_id, Z.sub_diag, !Z.mul_1_r. exact H2.
Qed.

Lemma valid_binary_sign s s' m e :
  valid_binary (S754_finite s m e) = valid_binary (S754_finite s' m e).
Proof. reflexivity. Qed.

(** ** The comparator *)

Lemma SFsub_positive X Y :
  valid_binary X = true -> valid_binary Y = true ->
  SFltb (S754_zero false) (SF64sub Y X) = SFltb X Y.
Proof.
  intros Vx Vy. unfold SF64sub.
  destruct X as [sx|sx| |sx mx ex], Y as [sy|sy| |sy my ey];
    try (unfold SFltb; simpl; repeat match goal with s : bool |- _ => destruct s end;
         reflexivity).
  unfold SFsub.
  pose proof (shl_align_min my ey (Z.min ey ex)) as Hy.
  pose proof (shl_align_min mx ex (Z.min ey ex)) as Hx.
  change (IntDef.Z.min ey ex) with (Z.min ey ex).
  destruct (shl_align my ey (Z.min ey ex)) as [my' ez1].
  destruct (shl_align mx ex (Z.min ey ex)) as [mx' ez2].
  destruct Hy as [Hez1 Hmy']. destruct Hx as [Hez2 Hmx'].
  assert (Ez1 : ez1 = Z.min ey ex) by lia.
  assert (Ez2 : ez2 = Z.min ey ex) by lia.
  rewrite Ez1 in Hmy'. rewrite Ez2 in Hmx'. clear Hez1 Hez2 Ez1 Ez2.
  cbn [fst].
  rewrite (valid_binary_sign sx false) in Vx.
  rewrite (valid_binary_sign sy false) in Vy.
  destruct (valid_mantissa _ _ _ Vx) as (Hex & _ & _).
  destruct (valid_mantissa _ _ _ Vy) as (Hey & _ & _).
  rewrite binary_normalize_positive by lia.
  pose proof (aligned_compare mx ex my ey Vx Vy) as Hc. cbv zeta in Hc.
  rewrite <- Hmy', <- Hmx' in Hc.
  unfold SFltb. rewrite SFcompare_finite.
  destruct (match ex ?= ey with
            | Eq => Pos.compare_cont Eq mx my | Lt => Lt | Gt => Gt end);
    cbn [CompOpp] in Hc;
    pose proof (Z.compare_spec (Z.pos my') (Z.pos mx')) as Hs;
    rewrite Hc in Hs; inversion Hs;
    destruct sx, sy; simpl;
    first [apply Z.ltb_lt; lia | apply Z.ltb_ge; lia].
Qed.

(** On all Numbers, NaN and the infinities included: [y - x > 0] exactly
    when [x < y]. *)
Lemma sub_gt_zero x y : JS.gt (y - x)%float 0 = (x <? y)%float.
Proof.
  unfold JS.gt. rewrite !FloatAxioms.ltb_spec, FloatAxioms.sub_spec.
  change (Prim2SF 0) with (S754_zero false).
  apply SFsub_positive; apply Prim2SF_valid.
Qed.

(** ** Counts and votes as Numbers keep their order *)

Lemma binary_round_exact_mantissa s m :
  Zdigits2 (Z.pos m) <= 53 ->
  exists mz, binary_round prec emax s m 0
             = S754_finite s mz (Zdigits2 (Z.pos m) - 53)
    /\ Z.pos mz = Z.pos m * 2 ^ (53 - Zdigits2 (Z.pos m)).
Proof.
  intros Hd. unfold binary_round.
  assert (Hd1 : 1 <= Zdigits2 (Z.pos m)).
  { simpl. lia. }
  assert (Hf : fexp prec emax (Z.pos (digits2_pos m) + 0) = Zdigits2 (Z.pos m) - 53).
  { unfold fexp, SpecFloat.emin, prec, emax. simpl Zdigits2 in *. lia. }
  rewrite Hf.
  pose proof (shl_align_spec m 0 (Zdigits2 (Z.pos m) - 53)) as H.
  destruct (shl_align m 0 (Zdigits2 (Z.pos m) - 53)) as [mz ez].
  destruct H as (_ & Hmz & Hdig & Hez).
  specialize (Hez ltac:(lia)). subst ez.
  exists mz. split; [|rewrite Hmz; f_equal; f_equal; lia].
  unfold binary_round_aux, shr_fexp.
  rewrite Hdig, Z.add_0_r.
  assert (Hf' : fexp prec emax (Zdigits2 (Z.pos m))
                - (Zdigits2 (Z.pos m) - 53) = 0).
  { unfold fexp, SpecFloat.emin, prec, emax. lia. }
  rewrite Hf'. cbn [shr shr_record_of_loc loc_of_shr_record shr_m shr_r shr_s
                     round_nearest_even].
  rewrite Hdig, Z.add_0_r, Hf'. cbn [shr shr_record_of_loc shr_m].
  destruct (Z.leb_spec (Zdigits2 (Z.pos m) - 53) (emax - prec)) as [_|Hgt];
    [reflexivity|]. unfold emax, prec in Hgt. lia.
Qed.

Lemma Z2F_shape n :
  1 <= n < 2 ^ 53 ->
  exists m, Prim2SF (JS.Z2F n) = S754_finite false m (Zdigits2 n - 53)
            /\ Z.pos m = n * 2 ^ (53 - Zdigits2 n).
Proof.
  intros Hn. unfold JS.Z2F.
  destruct (Z.ltb_spec n 0); [lia|].
  rewrite of_uint63_spec, Uint63.of_Z_spec.
  rewrite Z.mod_small by (change Uint63.wB with (2 ^ 63); lia).
  destruct n as [|p|p]; try lia. simpl binary_normalize.
  apply binary_round_exact_mantissa. apply Zdigits2_le; lia.
Qed.

(* ===================================================================== *)
(** * The composer: feedback and NaN *)
(* ===================================================================== *)

(** [generateFeedback] leaves the four scores alone. *)
Lemma generateFeedback_scores a :
  let a' := AIComposer.generateFeedback a in
  AIComposer.overallScore a' = AIComposer.overallScore a /\
  AIComposer.technicalScore a' = AIComposer.technicalScore a /\
  AIComposer.artisticScore a' = AIComposer.artisticScore a /\
  AIComposer.compositionScore a' = AIComposer.compositionScore a.
Proof.
  destruct a as [o st we su t ar c]. unfold AIComposer.generateFeedback.
  cbv zeta. simpl.
  repeat match goal with
  | |- context [if ?c then _ else _] => destruct c; simpl
  end; repeat split.
Qed.

(** The scores of the analysis in terms of the three analysers. *)
Lemma analyzeComposition_scores img crop :
  let a := AIComposer.analyzeComposition img crop in
  AIComposer.compositionScore a = AIComposer.analyzeCompositionRules img crop /\
  AIComposer.overallScore a
  = (AIComposer.analyzeTechnicalAspects img * 0.3
     + AIComposer.analyzeArtisticAspects img * 0.3
     + AIComposer.analyzeCompositionRules img crop * 0.4)%float.
Proof.
  unfold AIComposer.analyzeComposition. cbv zeta.
  match goal with |- context [AIComposer.generateFeedback ?a] =>
    destruct (generateFeedback_scores a) as (Ho & _ & _ & Hc) end.
  split; [exact Hc | exact Ho].
Qed.

(** The running total of [analyzeCompositionRules]: the six results added
    to 0 in registry order. *)
Lemma ruleScores_total img crop :
  snd (AIComposer.ruleScores img crop)
  = (0 + AIComposer.ruleOfThirdsAnalysis img crop
     + AIComposer.goldenRatioAnalysis img crop
     + AIComposer.symmetryAnalysis img crop
     + AIComposer.leadingLinesAnalysis img crop
     + AIComposer.balanceAnalysis img crop
     + AIComposer.depthAnalysis img crop)%float.
Proof. reflexivity. Qed.

Lemma composition_NaN img crop rule :
  subScore rule img crop = Some nan ->
  AIComposer.analyzeCompositionRules img crop = nan.
Proof.
  unfold subScore. rewrite ruleScores_entries.
  unfold AIComposer.analyzeCompositionRules. rewrite ruleScores_total.
  cbn [JS.obj_get].
  repeat match goal with
  | |- context [String.eqb ?k rule] => destruct (String.eqb k rule)
  end; intros H; try discriminate; injection H as H; rewrite H;
    rewrite ?add_nan_r, ?add_nan_l; apply div_nan_l.
Qed.

Lemma overall_NaN img crop :
  AIComposer.analyzeCompositionRules img crop = nan ->
  AIComposer.overallScore (AIComposer.analyzeComposition img crop) = nan.
Proof.
  intros H. destruct (analyzeComposition_scores img crop) as [_ ->].
  rewrite H, mul_nan_l. apply add_nan_r.
Qed.

(** X1.  NaN is contagious in [analyzeComposition]: as soon as one of the
    six rule analysers returns NaN, the composition score and the overall
    score of the analysis are NaN. *)
Theorem analyzeComposition_NaN_contagious img crop rule :
  subScore rule img crop = Some nan ->
  AIComposer.compositionScore (AIComposer.analyzeComposition img crop) = nan /\
  AIComposer.overallScore (AIComposer.analyzeComposition img crop) = nan.
Proof.
  intros H. apply composition_NaN in H. split.
  - destruct (analyzeComposition_scores img crop) as [-> _]. exact H.
  - now apply overall_NaN.
Qed.

Lemma analyzeComposition_NaN_contagious_witness :
  subScore "balance" black4 None = Some nan /\
  AIComposer.compositionScore (AIComposer.analyzeComposition black4 None) = nan /\
  AIComposer.overallScore (AIComposer.analyzeComposition black4 None) = nan.
Proof.
  split; [vm_compute; reflexivity|].
  apply (analyzeComposition_NaN_contagious black4 None "balance").
  vm_compute. reflexivity.
Defined.

(** X2.  A crop selection of zero width and zero height, wherever it is
    and whatever the image, makes the golden-ratio rule divide 0 by 0: that
    score, the composition score and the overall score are NaN. *)
Theorem zero_size_crop_is_NaN img x y :
  let crop := Some (AIComposer.mkCrop x y 0 0) in
  AIComposer.goldenRatioAnalysis img crop = nan /\
  AIComposer.compositionScore (AIComposer.analyzeComposition img crop) = nan /\
  AIComposer.overallScore (AIComposer.analyzeComposition img crop) = nan.
Proof.
  intros crop.
  assert (G : AIComposer.goldenRatioAnalysis img crop = nan) by reflexivity.
  assert (C : AIComposer.analyzeCompositionRules img crop = nan).
  { apply (composition_NaN img crop "goldenRatio").
    unfold subScore. rewrite ruleScores_entries. cbn [JS.obj_get].
    change ("ruleOfThirds" =? "goldenRatio")%string with false.
    change ("goldenRatio" =? "goldenRatio")%string with true.
    cbv iota. now rewrite G. }
  repeat split; auto.
  - destruct (analyzeComposition_scores img crop) as [-> _]. exact C.
  - now apply overall_NaN.
Qed.

(** X3.  The feedback of [analyzeComposition]: each of the three scores
    gives either a strength or a weakness, every weakness comes with one
    suggestion, and one overall remark closes the suggestions. *)
Theorem analyzeComposition_feedback_shape img crop :
  let a := AIComposer.analyzeComposition img crop in
  (length (AIComposer.strengths a) + length (AIComposer.weaknesses a) = 3)%nat /\
  length (AIComposer.suggestions a) = S (length (AIComposer.weaknesses a)) /\
  exists remark,
    last (AIComposer.suggestions a) = Some remark /\
    (remark = "This is a well-composed image!"
     \/ remark = "Good image with room for improvement"
     \/ remark = "Consider recomposing or editing the image")%string.
Proof.
  unfold AIComposer.analyzeComposition. cbv zeta.
  generalize (AIComposer.analyzeTechnicalAspects img) as t.
  generalize (AIComposer.analyzeArtisticAspects img) as ar.
  generalize (AIComposer.analyzeCompositionRules img crop) as c.
  intros c ar t.
  generalize (t * 0.3 + ar * 0.3 + c * 0.4)%float as o. intros o.
  unfold AIComposer.generateFeedback. cbv zeta. simpl.
  repeat match goal with
  | |- context [if ?c then _ else _] => destruct c; simpl
  end;
    (split; [reflexivity|split; [reflexivity|eexists; split; [reflexivity|tauto]]]).
Qed.

(** X4.  A NaN composition score is praised: every comparison with NaN is
    false, so the analysis lists "Excellent composition" among the
    strengths while its overall remark advises to recompose. *)
Theorem analyzeComposition_NaN_is_praised img crop :
  AIComposer.compositionScore (AIComposer.analyzeComposition img crop) = nan ->
  let a := AIComposer.analyzeComposition img crop in
  ("Excellent composition"%string ∈ AIComposer.strengths a) /\
  ("Composition could be enhanced"%string ∉ AIComposer.weaknesses a) /\
  last (AIComposer.suggestions a)
  = Some "Consider recomposing or editing the image"%string.
Proof.
  intros H a.
  destruct (analyzeComposition_scores img crop) as [Hc Ho].
  rewrite Hc in H. pose proof (overall_NaN img crop H) as Hn.
  subst a. revert Hn. clear Hc Ho.
  unfold AIComposer.analyzeComposition. cbv zeta. rewrite H.
  generalize (AIComposer.analyzeTechnicalAspects img) as t.
  generalize (AIComposer.analyzeArtisticAspects img) as ar.
  intros ar t.
  generalize (t * 0.3 + ar * 0.3 + nan * 0.4)%float as o. intros o.
  destruct (generateFeedback_scores (AIComposer.mkAnalysis o [] [] [] t ar nan))
    as (-> & _).
  simpl. intros ->.
  unfold AIComposer.generateFeedback. cbv zeta. simpl.
  destruct (t <? 0.6)%float; simpl; destruct (ar <? 0.6)%float; simpl;
    (split; [repeat first [left; reflexivity | right]
            |split; [|reflexivity]]);
    intros Hin;
    repeat (apply elem_of_cons in Hin as [Hin|Hin]; [discriminate|]);
    inversion Hin.
Qed.

Lemma analyzeComposition_NaN_is_praised_witness :
  AIComposer.compositionScore (AIComposer.analyzeComposition black4 None) = nan /\
  ("Excellent composition"%string
     ∈ AIComposer.strengths (AIComposer.analyzeComposition black4 None)).
Proof.
  split; [vm_compute; reflexivity|].
  apply (analyzeComposition_NaN_is_praised black4 None).
  vm_compute. reflexivity.
Defined.
(* ===================================================================== *)
(** * The composer's crop suggestions *)
(* ===================================================================== *)

(** X5.  [getIntelligentCropSuggestions] reads [analysis.balance], a
    property the analysis does not have: the "Balanced Crop" suggestion is
    never made.  The result is the golden-ratio crop (score 90, 60% of the
    width, that width over 1.618 high), followed by the rule-of-thirds crop
    exactly when the composition score is below 0.5. *)
Theorem intelligentCrops_never_balanced (img : ImageData) :
  let out := AIComposer.getIntelligentCropSuggestions img in
  let w := JS.Z2F (width img) in
  let h := JS.Z2F (height img) in
  let low :=
    (AIComposer.compositionScore (AIComposer.analyzeComposition img None)
     <? 0.5)%float in
  ("Balanced Crop"%string ∉ map AISuggestions.name out) /\
  map AISuggestions.name out
  = ("Golden Ratio Crop" :: if low then ["Rule of Thirds Crop"] else [])%string /\
  map AISuggestions.score out = (90 :: if low then [85] else [])%float /\
  (AISuggestions.crop <$> head out)
  = Some (AISuggestions.plainCrop (w * 0.2) (h * 0.2) (w * 0.6)
            (w * 0.6 / 1.618))%float.
Proof.
  unfold AIComposer.getIntelligentCropSuggestions. cbv zeta.
  generalize (AIComposer.compositionScore (AIComposer.analyzeComposition img None)).
  generalize (JS.Z2F (width img)). generalize (JS.Z2F (height img)).
  intros h w c.
  change (JS.num None <? 0.6)%float with false. cbv iota.
  destruct (c <? 0.5)%float; vm_compute;
    (split; [|repeat split]);
    intros Hin;
    repeat (apply elem_of_cons in Hin as [Hin|Hin]; [discriminate|]);
    inversion Hin.
Qed.
(* ===================================================================== *)
(** * Dominant colours *)
(* ===================================================================== *)

Lemma sf_eqb_eq a b : sf_eqb a b = true -> a = b.
Proof.
  destruct a as [s1|s1| |s1 m1 e1], b as [s2|s2| |s2 m2 e2]; simpl;
    try discriminate; try reflexivity.
  - intros H. apply Bool.eqb_prop in H. congruence.
  - intros H. apply Bool.eqb_prop in H. congruence.
  - intros H. apply andb_prop in H as [H He]. apply andb_prop in H as [Hs Hm].
    apply Bool.eqb_prop in Hs. apply Pos.eqb_eq in Hm. apply Z.eqb_eq in He.
    congruence.
Qed.

Lemma same_eq x y : same x y = true -> x = y.
Proof. intros H. apply Prim2SF_inj. now apply sf_eqb_eq. Qed.

(** ** Objects as dictionaries *)

Section ObjFacts.
Context {V : Type}.
Implicit Types (o : JS.obj V) (k : string).

Lemma obj_get_None o k : JS.obj_get o k = None <-> k ∉ (fst <$> o).
Proof.
  induction o as [|[k' v'] o IH]; simpl.
  - split; [intros _; apply not_elem_of_nil | reflexivity].
  - destruct (String.eqb_spec k' k) as [->|Hne].
    + split; [discriminate|]. intros H. exfalso. apply H. left.
    + rewrite IH. rewrite not_elem_of_cons. naive_solver.
Qed.

Lemma obj_set_keys o k v :
  fst <$> JS.obj_set o k v
  = match JS.obj_get o k with
    | Some _ => fst <$> o
    | None => (fst <$> o) ++ [k]
    end.
Proof.
  induction o as [|[k' v'] o IH]; cbn [JS.obj_set JS.obj_get]; [reflexivity|].
  destruct (String.eqb_spec k' k) as [->|Hne]; [reflexivity|].
  rewrite !fmap_cons, IH. destruct (JS.obj_get o k); reflexivity.
Qed.
End ObjFacts.

Lemma total_cons k v (o : JS.obj Z) : total ((k, v) :: o) = v + total o.
Proof. reflexivity. Qed.

(** Counting one more occurrence of [k]. *)
Lemma obj_count (o : JS.obj Z) k :
  let o' := JS.obj_set o k (default 0 (JS.obj_get o k) + 1) in
  total o' = total o + 1 /\
  (Forall (fun e => 1 <= snd e) o -> Forall (fun e => 1 <= snd e) o').
Proof.
  cbv zeta. induction o as [|[k' v'] o IH]; cbn [JS.obj_set JS.obj_get].
  - split; [reflexivity|]. intros _. constructor; [simpl; lia|constructor].
  - destruct (String.eqb_spec k' k) as [->|Hne].
    + rewrite !total_cons. change (default 0 (Some v')) with v'. split; [lia|].
      intros H. apply Forall_cons in H as [H1 H2]. simpl in H1.
      constructor; [simpl; lia|exact H2].
    + destruct IH as [IH1 IH2]. rewrite !total_cons, IH1. split; [lia|].
      intros H. apply Forall_cons in H as [H1 H2]. constructor; auto.
Qed.

Section Histogram.
Variable img : ImageData.
Let d := data img.
Let samples := counters 0 (Z.of_nat (length d)) 40.

Lemma colorCounts_fold :
  ImageUtils.colorCounts img
  = fold_left (fun counts i =>
      JS.obj_set counts (sampleKey d i)
        (default 0 (JS.obj_get counts (sampleKey d i)) + 1)) samples [].
Proof.
  unfold ImageUtils.colorCounts. cbv zeta.
  now rewrite for_lt_counters by lia.
Qed.

Lemma colorCounts_invariant :
  let counts := ImageUtils.colorCounts img in
  NoDup (fst <$> counts) /\
  Forall (fun e => 1 <= snd e) counts /\
  total counts = Z.of_nat (length samples) /\
  forall key, key ∈ (fst <$> counts) ->
    exists i, i ∈ samples /\ key = sampleKey d i.
Proof.
  rewrite colorCounts_fold. cbv zeta.
  assert (E : forall (l : list Z) (counts : JS.obj Z) (n : Z),
    (forall i, i ∈ l -> i ∈ samples) ->
    NoDup (fst <$> counts) /\
    Forall (fun e => 1 <= snd e) counts /\
    total counts = n /\
    (forall key, key ∈ (fst <$> counts) ->
       exists i, i ∈ samples /\ key = sampleKey d i) ->
    let counts' :=
      fold_left (fun counts i =>
        JS.obj_set counts (sampleKey d i)
          (default 0 (JS.obj_get counts (sampleKey d i)) + 1)) l counts in
    NoDup (fst <$> counts') /\
    Forall (fun e => 1 <= snd e) counts' /\
    total counts' = n + Z.of_nat (length l) /\
    (forall key, key ∈ (fst <$> counts') ->
       exists i, i ∈ samples /\ key = sampleKey d i)).
  { induction l as [|i l IH]; intros counts n Hl (Hnd & Hpos & Htot & Hkeys).
    - simpl. repeat split; auto. lia.
    - simpl. 
      destruct (obj_count counts (sampleKey d i)) as [Ht Hp].
      specialize (IH (JS.obj_set counts (sampleKey d i)
                        (default 0 (JS.obj_get counts (sampleKey d i)) + 1))
                     (n + 1)).
      cbv zeta in IH.
      replace (n + Z.of_nat (S (length l))) with (n + 1 + Z.of_nat (length l)) by lia.
      apply IH.
      + intros j Hj. apply Hl. now right.
      + rewrite obj_set_keys.
        destruct (JS.obj_get counts (sampleKey d i)) eqn:G.
        * repeat split; auto. lia.
        * apply obj_get_None in G. repeat split; auto; try lia.
          -- apply NoDup_app. repeat split; auto.
             ++ intros x Hx Hx'. apply list_elem_of_singleton in Hx'. now subst.
             ++ apply NoDup_singleton.
          -- intros key Hkey. apply elem_of_app in Hkey as [Hkey|Hkey]; auto.
             apply list_elem_of_singleton in Hkey. subst.
             exists i. split; [apply Hl; left | reflexivity]. }
  specialize (E samples [] 0). cbv zeta in E.
  apply E; [auto|]. repeat split.
  - constructor.
  - constructor.
  - intros key Hkey. inversion Hkey.
Qed.
End Histogram.

(** X6.  The histogram of [getDominantColors]: whatever the buffer, one
    entry per colour key, every count at least 1, and the counts add up to
    the number of samples, one per 40 bytes of data. *)
Theorem colorCounts_histogram (img : ImageData) :
  let counts := ImageUtils.colorCounts img in
  NoDup (fst <$> counts) /\
  Forall (fun e => 1 <= snd e) counts /\
  total counts = (Z.of_nat (length (data img)) + 39) / 40 /\
  Z.of_nat (length counts) <= (Z.of_nat (length (data img)) + 39) / 40.
Proof.
  destruct (colorCounts_invariant img) as (Hnd & Hpos & Htot & _).
  assert (Hlen : Z.of_nat (length (counters 0 (Z.of_nat (length (data img))) 40))
                 = (Z.of_nat (length (data img)) + 39) / 40).
  { unfold counters. rewrite length_fmap, length_seqZ.
    replace (Z.of_nat (length (data img)) - 0 + 40 - 1)
      with (Z.of_nat (length (data img)) + 39) by lia.
    apply Z2Nat.id. apply Z.div_pos; lia. }
  cbv zeta. rewrite <- Hlen, <- Htot. repeat split; auto.
  clear - Hpos. induction Hpos as [|[k v] o H1 H2 IH]; [reflexivity|].
  rewrite total_cons. simpl in *. lia.
Qed.
(** ** The colours returned *)

Lemma forallb_seqZ (f : Z -> bool) a n x :
  forallb f (seqZ a n) = true -> a <= x < a + n -> f x = true.
Proof.
  intros H Hx. rewrite forallb_forall in H. apply H.
  apply list_elem_of_In, elem_of_seqZ. lia.
Qed.

(** Quantizing a byte, done on Numbers, is the integer [c / 32 * 32]. *)
Lemma quantize_byte c :
  0 <= c <= 255 -> ImageUtils.quantize (JS.Z2F c) = JS.Z2F (step32 c).
Proof.
  intros Hc. apply same_eq.
  apply (forallb_seqZ
           (fun c => same (ImageUtils.quantize (JS.Z2F c)) (JS.Z2F (step32 c)))
           0 256); [vm_compute; reflexivity | lia].
Qed.

(** A key made of three multiples of 32 splits and parses back into them. *)
Lemma parseColor_colorKey a b c :
  0 <= a < 8 -> 0 <= b < 8 -> 0 <= c < 8 ->
  ImageUtils.parseColor
    (ImageUtils.colorKey (JS.Z2F (a * 32)) (JS.Z2F (b * 32)) (JS.Z2F (c * 32)))
  = ImageUtils.mkRGB (JS.Z2F (a * 32)) (JS.Z2F (b * 32)) (JS.Z2F (c * 32)).
Proof.
  intros Ha Hb Hc.
  set (ok := fun a b c =>
    let p := ImageUtils.parseColor
               (ImageUtils.colorKey (JS.Z2F (a * 32)) (JS.Z2F (b * 32))
                  (JS.Z2F (c * 32))) in
    same (ImageUtils.r p) (JS.Z2F (a * 32))
    && same (ImageUtils.g p) (JS.Z2F (b * 32))
    && same (ImageUtils.b p) (JS.Z2F (c * 32))).
  assert (H : forallb (fun a => forallb (fun b => forallb (ok a b) (seqZ 0 8))
                                  (seqZ 0 8)) (seqZ 0 8) = true)
    by (vm_compute; reflexivity).
  apply (forallb_seqZ _ 0 8 a) in H; [|lia].
  apply (forallb_seqZ _ 0 8 b) in H; [|lia].
  apply (forallb_seqZ _ 0 8 c) in H; [|lia].
  unfold ok in H. cbv zeta in H.
  apply andb_prop in H as [H H3]. apply andb_prop in H as [H1 H2].
  apply same_eq in H1, H2, H3.
  destruct (ImageUtils.parseColor _) as [r g b']. simpl in *. congruence.
Qed.

Lemma valid_byte img i :
  valid_buffer img -> 0 <= i < width img * height img * 4 ->
  exists c, JS.get (data img) i = Some c /\ 0 <= c <= 255.
Proof.
  intros (Hw & Hh & Hlen & Hbytes) Hi.
  unfold JS.get. destruct (Z.ltb_spec i 0); [lia|].
  destruct (lookup_lt_is_Some_2 (data img) (Z.to_nat i)) as [c Hc]; [lia|].
  exists c. split; [exact Hc|].
  rewrite Forall_lookup in Hbytes. exact (Hbytes _ _ Hc).
Qed.

(** X7.  On a valid buffer [getDominantColors] returns at most
    [numColors] colours, and each of them is a sampled pixel (one pixel in
    ten, in buffer order) with its three channels cut down to multiples of
    32. *)
Theorem dominantColors_quantized_samples (img : ImageData) (numColors : nat) :
  valid_buffer img ->
  (length (ImageUtils.getDominantColors img numColors) <= numColors)%nat /\
  forall c, c ∈ ImageUtils.getDominantColors img numColors ->
    exists p r g b,
      0 <= p < width img * height img /\ p mod 10 = 0 /\
      JS.get (data img) (4 * p) = Some r /\
      JS.get (data img) (4 * p + 1) = Some g /\
      JS.get (data img) (4 * p + 2) = Some b /\
      c = ImageUtils.mkRGB (JS.Z2F (step32 r)) (JS.Z2F (step32 g))
            (JS.Z2F (step32 b)).
Proof.
  intros Hv. unfold ImageUtils.getDominantColors, JS.slice0. split.
  - rewrite length_map, length_take. lia.
  - intros c Hc. apply list_elem_of_In in Hc. apply in_map_iff in Hc.
    destruct Hc as ([key n] & <- & He). apply list_elem_of_In in He.
    apply elem_of_take in He as (j & He & _).
    apply list_elem_of_lookup_2 in He.
    rewrite sort_Permutation in He.
    destruct (colorCounts_invariant img) as (_ & _ & _ & Hkeys).
    destruct (Hkeys key) as (i & Hi & ->).
    { apply list_elem_of_fmap. exists (key, n). auto. }
    apply elem_of_counters in Hi; [|lia].
    destruct Hi as (k & Hk & -> & Hlt). simpl.
    pose proof Hv as (Hw & Hh & Hlen & _). rewrite Hlen in Hlt.
    destruct (valid_byte img (0 + k * 40) Hv) as (r & Hr & Hr'); [lia|].
    destruct (valid_byte img (0 + k * 40 + 1) Hv) as (g & Hg & Hg'); [lia|].
    destruct (valid_byte img (0 + k * 40 + 2) Hv) as (b & Hb & Hb'); [lia|].
    exists (k * 10), r, g, b.
    replace (4 * (k * 10)) with (0 + k * 40) by lia.
    repeat split; auto; try lia.
    { rewrite Z.mod_mul; lia. }
    unfold sampleKey, byte_at. rewrite Hr, Hg, Hb. simpl.
    rewrite !quantize_byte by lia. unfold step32.
    apply parseColor_colorKey.
    + split; [apply Z.div_pos; lia | apply Z.div_lt_upper_bound; lia].
    + split; [apply Z.div_pos; lia | apply Z.div_lt_upper_bound; lia].
    + split; [apply Z.div_pos; lia | apply Z.div_lt_upper_bound; lia].
Qed.

Lemma dominantColors_quantized_samples_witness :
  valid_buffer img3 /\
  (length (ImageUtils.getDominantColors img3 5) <= 5)%nat.
Proof.
  split; [exact img3_valid|].
  exact (proj1 (dominantColors_quantized_samples img3 5 img3_valid)).
Defined.
(* ===================================================================== *)
(** * Regions of interest *)
(* ===================================================================== *)

(** X8.  Whatever the buffer, [findRegionsOfInterest] returns at most five
    regions; each carries an edge density above 10 as its score and has
    the size of the scan window, a quarter of the smaller dimension,
    relative to the image. *)
Theorem regionsOfInterest_dense (img : ImageData) :
  let w := JS.Z2F (width img) in
  let h := JS.Z2F (height img) in
  let windowSize := (JS.Math_min w h / 4)%float in
  (length (ImageUtils.findRegionsOfInterest img) <= 5)%nat /\
  Forall (fun roi =>
    (exists density, ImageUtils.reg_score roi = Some density /\
                     JS.gt density 10 = true) /\
    ImageUtils.reg_width roi = (windowSize / w)%float /\
    ImageUtils.reg_height roi = (windowSize / h)%float)
    (ImageUtils.findRegionsOfInterest img).
Proof.
  intros w h windowSize. unfold ImageUtils.findRegionsOfInterest, JS.slice0.
  cbv zeta. fold w h windowSize. split.
  - rewrite length_take. lia.
  - apply Forall_take. rewrite sort_Permutation.
    apply forF_fuel_preserves; [|constructor].
    intros y rois _ Hrois.
    apply forF_fuel_preserves; [|exact Hrois].
    intros x rois' _ Hrois'.
    destruct (JS.gt _ 10) eqn:G; [|exact Hrois'].
    apply Forall_app. split; [exact Hrois'|].
    constructor; [|constructor]. simpl. eauto.
Qed.






(** X10.  The two conditional suggestions of [generateCropSuggestions]:
    "Focus on Interest" is made exactly when a region of interest was
    found, with score 85 and the first region as its crop; "Dark Image
    Enhancement" exactly when the brightness is below 0.4.  The result has
    three to five entries. *)
Theorem cropSuggestions_conditional (img : ImageData) (w h : float) :
  let out := AISuggestions.generateCropSuggestions img w h in
  let rois := ImageUtils.findRegionsOfInterest img in
  ("Focus on Interest"%string ∈ map AISuggestions.name out <-> rois <> []) /\
  ("Dark Image Enhancement"%string ∈ map AISuggestions.name out
   <-> (ImageUtils.getBrightness img <? 0.4)%float = true) /\
  (forall s, s ∈ out -> AISuggestions.name s = "Focus on Interest"%string ->
     AISuggestions.score s = 85%float /\ head rois = Some (AISuggestions.crop s)) /\
  (3 <= length out <= 5)%nat.
Proof.
  unfold AISuggestions.generateCropSuggestions, AISuggestions.pushedSuggestions.
  cbv zeta.
  generalize (ImageUtils.getBrightness img).
  generalize (ImageUtils.findRegionsOfInterest img).
  intros rois brightness.
  destruct rois as [|bestROI rois]; destruct (brightness <? 0.4)%float;
    vm_compute JS.sort; cbn [map AISuggestions.name length head];
    (split; [|split; [|split; [|lia]]]).
  all: try (split; [intros Hin | intros Hback]).
  all: try (intros s Hin Hname).
  all: repeat match goal with
       | H : _ ∈ _ :: _ |- _ => apply elem_of_cons in H as [H|H]
       | H : _ ∈ [] |- _ => inversion H
       end; try discriminate; try congruence; subst; try (simpl in *; discriminate).
  all: try (split; reflexivity).
  all: try (repeat first [left; reflexivity | right]; fail).
Qed.
(* ===================================================================== *)
(** * Leading lines by vote *)
(* ===================================================================== *)

Lemma strides_eq n step :
  1 <= step -> 0 <= n -> strides n step = (n + step - 1) / step.
Proof.
  intros Hs Hn. unfold strides, counters. rewrite length_fmap, length_seqZ.
  rewrite Z.sub_0_r. apply Z2Nat.id. apply Z.div_pos; lia.
Qed.

(** A counter that goes up by at most [c] per element. *)
Lemma fold_left_bounded {K} (f : Z -> K -> Z) (c : Z) (ks : list K) :
  (forall s k, s <= f s k <= s + c) ->
  forall s, s <= fold_left f ks s <= s + c * Z.of_nat (length ks).
Proof.
  intros Hf. induction ks as [|k ks IH]; intros s; simpl length.
  - simpl. lia.
  - simpl fold_left. specialize (IH (f s k)). specialize (Hf s k). lia.
Qed.

Section Votes.
Variables Math_cos Math_sin : float -> float.
Variable img : ImageData.

(** A line gets at most one vote per sampled pixel (every second pixel of
    every second row). *)
Lemma lineVotes_bounds edges angle distance :
  0 <= AdvancedImageAnalysis.lineVotes Math_cos Math_sin img edges angle distance
    <= strides (height img) 2 * strides (width img) 2.
Proof.
  unfold AdvancedImageAnalysis.lineVotes.
  rewrite for_lt_counters by lia.
  match goal with |- _ <= fold_left ?f _ 0 <= _ =>
    pose proof (fold_left_bounded f (strides (width img) 2)
                  (counters 0 (height img) 2)) as H
  end.
  unfold strides at 2. unfold strides at 1.
  rewrite Z.mul_comm. apply H. clear H.
  intros s y. rewrite for_lt_counters by lia.
  match goal with |- _ <= fold_left ?f _ s <= _ =>
    pose proof (fold_left_bounded f 1 (counters 0 (width img) 2)) as H
  end.
  unfold strides. rewrite <- (Z.mul_1_l (Z.of_nat _)). apply H. clear H.
  intros s' x.
  destruct (AIComposer.edge_gt _ _ 20); [|lia].
  destruct (_ <? 5)%float; lia.
Qed.

Lemma votedLines_voted :
  Forall (voted img) (AdvancedImageAnalysis.votedLines Math_cos Math_sin img).
Proof.
  unfold AdvancedImageAnalysis.votedLines. cbv zeta.
  rewrite for_lt_counters by lia.
  apply fold_left_preserves; [|constructor].
  intros lines angle Hangle Hlines.
  apply elem_of_counters in Hangle as (k & Hk & -> & Hlt); [|lia].
  apply (for_fuel_counter (fun distance => 0 <= distance /\ distance mod 10 = 0));
    [| |split; [lia|reflexivity]|exact Hlines].
  - intros i [Hi Hm]. split; [lia|].
    rewrite <- Zplus_mod_idemp_l, Hm. reflexivity.
  - intros distance lines' [Hd Hm] _ Hlines'.
    destruct (_ >? 50) eqn:G; [|exact Hlines'].
    apply Forall_app. split; [exact Hlines'|].
    constructor; [|constructor].
    unfold voted. simpl.
    pose proof (lineVotes_bounds (AdvancedImageAnalysis.detectEdges img)
                  (0 + k * 5) distance) as Hb.
    apply Z.gtb_lt in G.
    repeat split; try lia.
    rewrite Z.add_0_l. apply Z.mod_mul. lia.
Qed.
End Votes.

(** X11.  [detectLeadingLines], whatever [Math.cos] and [Math.sin] return:
    at most five lines; each has more than 50 votes, and no more than there
    are sampled pixels; its angle is a multiple of 5 in [0, 180), its
    distance a non-negative multiple of 10; the score is never above 1 and
    is 0 when there is no line. *)
Theorem leadingLines_by_vote (Math_cos Math_sin : float -> float)
    (img : ImageData) :
  let found := AdvancedImageAnalysis.detectLeadingLines Math_cos Math_sin img in
  (length (AdvancedImageAnalysis.lines found) <= 5)%nat /\
  Forall (fun l =>
    50 < AdvancedImageAnalysis.votes l
       <= strides (height img) 2 * strides (width img) 2 /\
    0 <= AdvancedImageAnalysis.angle l < 180 /\
    AdvancedImageAnalysis.angle l mod 5 = 0 /\
    0 <= AdvancedImageAnalysis.distance l /\
    AdvancedImageAnalysis.distance l mod 10 = 0)
    (AdvancedImageAnalysis.lines found) /\
  (1 <? AdvancedImageAnalysis.lscore found)%float = false /\
  (AdvancedImageAnalysis.lines found = [] ->
   AdvancedImageAnalysis.lscore found = 0%float).
Proof.
  unfold AdvancedImageAnalysis.detectLeadingLines, JS.slice0. cbv zeta. simpl.
  pose proof (votedLines_voted Math_cos Math_sin img) as Hv.
  set (sorted := JS.sort _ _).
  assert (Hs : Forall (voted img) sorted).
  { subst sorted. now rewrite sort_Permutation. }
  repeat split.
  - rewrite length_take. lia.
  - apply Forall_take. exact Hs.
  - destruct sorted as [|top rest]; [reflexivity|].
    apply Math_min_not_above.
  - destruct sorted as [|top rest]; [reflexivity|discriminate].
Qed.

(** X12.  The threshold of 50 votes does not scale with the image: a
    buffer with at most 50 sampled pixels (14 by 14, say) never yields a
    line, and its leading-line score is 0. *)
Theorem small_image_has_no_lines (Math_cos Math_sin : float -> float)
    (img : ImageData) :
  strides (height img) 2 * strides (width img) 2 <= 50 ->
  AdvancedImageAnalysis.detectLeadingLines Math_cos Math_sin img
  = AdvancedImageAnalysis.mkLeadingLines [] 0.
Proof.
  intros Hsmall.
  pose proof (votedLines_voted Math_cos Math_sin img) as Hv.
  unfold AdvancedImageAnalysis.detectLeadingLines. cbv zeta.
  destruct (AdvancedImageAnalysis.votedLines Math_cos Math_sin img) as [|l ls].
  - reflexivity.
  - apply Forall_cons in Hv as [(Hl & _) _]. lia.
Qed.

Lemma small_image_has_no_lines_witness :
  strides 14 2 * strides 14 2 <= 50 /\
  AdvancedImageAnalysis.detectLeadingLines (fun _ => 1%float) (fun _ => 0%float)
    (uniform 14 14 0 0 0)
  = AdvancedImageAnalysis.mkLeadingLines [] 0.
Proof.
  split; [vm_compute; discriminate|].
  apply (small_image_has_no_lines (fun _ => 1%float) (fun _ => 0%float)
           (uniform 14 14 0 0 0)).
  vm_compute. discriminate.
Defined.
(* ===================================================================== *)
(** * Subjects *)
(* ===================================================================== *)

(** No grey passes the skin-tone test. *)
Lemma grey_is_not_skin v :
  0 <= v <= 255 ->
  AdvancedImageAnalysis.calculateSkinToneScore (JS.Z2F v) (JS.Z2F v) (JS.Z2F v)
  = 0.1%float.
Proof.
  intros Hv. apply same_eq.
  apply (forallb_seqZ
           (fun v => same (AdvancedImageAnalysis.calculateSkinToneScore
                             (JS.Z2F v) (JS.Z2F v) (JS.Z2F v)) 0.1)
           0 256); [vm_compute; reflexivity | lia].
Qed.

Lemma greyscale_skinToneRegions img :
  greyscale img -> AdvancedImageAnalysis.skinToneRegions img = [].
Proof.
  intros Hgrey. unfold AdvancedImageAnalysis.skinToneRegions. cbv zeta.
  rewrite for_lt_counters by lia.
  apply (fold_left_preserves (fun regions => regions = [])); [|reflexivity].
  intros regions y Hy ->.
  rewrite for_lt_counters by lia.
  apply (fold_left_preserves (fun regions => regions = [])); [|reflexivity].
  intros regions x Hx ->.
  apply elem_of_counters in Hy as (ky & Hky & -> & Hylt); [|lia].
  apply elem_of_counters in Hx as (kx & Hkx & -> & Hxlt); [|lia].
  destruct (Hgrey ((0 + ky * 4) * width img + (0 + kx * 4)))
    as (v & Hv & Hr & Hg & Hb); [nia|].
  replace (4 * ((0 + ky * 4) * width img + (0 + kx * 4)))
    with (((0 + ky * 4) * width img + (0 + kx * 4)) * 4) in * by lia.
  unfold byte_at. rewrite Hr, Hg, Hb. simpl.
  rewrite grey_is_not_skin by exact Hv. reflexivity.
Qed.

(** X13.  [detectSubjects] finds no subject in a greyscale image, whatever
    its size: no sampled pixel passes the skin-tone test. *)
Theorem greyscale_has_no_subjects (Math_cos Math_sin : float -> float)
    (img : ImageData) :
  greyscale img ->
  AdvancedImageAnalysis.skinToneRegions img = [] /\
  AdvancedImageAnalysis.subjects
    (AdvancedImageAnalysis.detectSubjects Math_cos Math_sin img) = [].
Proof.
  intros Hgrey. pose proof (greyscale_skinToneRegions img Hgrey) as E.
  split; [exact E|].
  unfold AdvancedImageAnalysis.detectSubjects. cbv zeta. simpl.
  rewrite E. reflexivity.
Qed.

Lemma greyscale_has_no_subjects_witness :
  greyscale (uniform 8 8 180 180 180) /\
  AdvancedImageAnalysis.subjects
    (AdvancedImageAnalysis.detectSubjects (fun _ => 1%float) (fun _ => 0%float)
       (uniform 8 8 180 180 180)) = [].
Proof.
  assert (G : greyscale (uniform 8 8 180 180 180)).
  { intros p Hp. exists 180. split; [lia|].
    apply (uniform_all_pixels 8 8 180 180 180); [lia|exact Hp]. }
  split; [exact G|].
  exact (proj2 (greyscale_has_no_subjects (fun _ => 1%float) (fun _ => 0%float)
                  (uniform 8 8 180 180 180) G)).
Defined.

(** ** Bounding boxes *)

Section Boxes.
Import AdvancedImageAnalysis.
Variable all : list Sample.
Variable maxDistance : float.
Hypothesis Hall : Forall located all.

(** The bounds are numbers and hold every member. *)
Let boxed (g : Group) : Prop :=
  (is_nan (minX (bounds g)) = false /\ is_nan (maxX (bounds g)) = false /\
   is_nan (minY (bounds g)) = false /\ is_nan (maxY (bounds g)) = false) /\
  Forall (in_box (bounds g)) (regions g).

Lemma in_box_grow bd m a :
  (is_nan (minX bd) = false /\ is_nan (maxX bd) = false /\
   is_nan (minY bd) = false /\ is_nan (maxY bd) = false) ->
  located a ->
  in_box bd m ->
  in_box (mkBounds (JS.Math_min (minX bd) (x a)) (JS.Math_min (minY bd) (y a))
            (JS.Math_max (maxX bd) (x a)) (JS.Math_max (maxY bd) (y a))) m.
Proof.
  intros (N1 & N2 & N3 & N4) [Ax Ay] (B1 & B2 & B3 & B4).
  destruct (Math_min_le (minX bd) (x a) N1 Ax) as (_ & L1 & _).
  destruct (Math_min_le (minY bd) (y a) N3 Ay) as (_ & L2 & _).
  destruct (Math_max_ge (maxX bd) (x a) N2 Ax) as (_ & L3 & _).
  destruct (Math_max_ge (maxY bd) (y a) N4 Ay) as (_ & L4 & _).
  unfold in_box. simpl. repeat split; eapply leb_trans; eauto.
Qed.

Lemma absorbStep_boxed region st a j :
  located a -> boxed (fst st) ->
  boxed (fst (absorbStep maxDistance region st a j)).
Proof.
  intros Ha Hb. destruct st as [g V]. unfold absorbStep.
  destruct (decide (j ∈ V)); [exact Hb|].
  destruct (_ <=? maxDistance)%float; [|exact Hb].
  simpl in *. destruct Hb as [HN Hin]. pose proof HN as (N1 & N2 & N3 & N4).
  pose proof Ha as [Ax Ay].
  destruct (Math_min_le (minX (bounds g)) (x a) N1 Ax) as (M1 & _ & R1).
  destruct (Math_min_le (minY (bounds g)) (y a) N3 Ay) as (M2 & _ & R2).
  destruct (Math_max_ge (maxX (bounds g)) (x a) N2 Ax) as (M3 & _ & R3).
  destruct (Math_max_ge (maxY (bounds g)) (y a) N4 Ay) as (M4 & _ & R4).
  split; simpl; [auto|].
  apply Forall_app. split.
  - eapply Forall_impl; [exact Hin|]. intros m Hm. now apply in_box_grow.
  - constructor; [|constructor]. unfold in_box. simpl. auto.
Qed.

Lemma absorb_boxed region st :
  boxed (fst st) -> boxed (fst (absorb all maxDistance region st)).
Proof.
  unfold absorb, JS.forEach_i.
  apply (fold_left_preserves (fun st => boxed (fst st))).
  intros s [j a] Hja Hs. simpl. apply absorbStep_boxed; [|exact Hs].
  apply list_elem_of_In, in_combine_r in Hja.
  rewrite Forall_forall in Hall. apply Hall. now apply list_elem_of_In.
Qed.

Lemma groupRegions_boxed :
  Forall boxed (groupRegions all maxDistance).
Proof.
  unfold groupRegions, JS.forEach_i.
  apply (fold_left_preserves (fun st : list Group * gset nat => Forall boxed (fst st)));
    [|constructor].
  intros [groups V] [i region] Hin Hgroups. simpl in *. unfold groupStep.
  destruct (decide (i ∈ V)); [exact Hgroups|].
  match goal with |- context [absorb all maxDistance region ?st] =>
    pose proof (absorb_boxed region st) as Hb;
    destruct (absorb all maxDistance region st) as [g V'] end.
  simpl. apply Forall_app. split; [exact Hgroups|].
  constructor; [|constructor].
  assert (Hr : located region).
  { apply list_elem_of_In, in_combine_r in Hin.
    rewrite Forall_forall in Hall. apply Hall. now apply list_elem_of_In. }
  destruct Hr as [Rx Ry].
  unfold finish, boxed. simpl. apply Hb. simpl.
  split; [auto|]. constructor; [|constructor].
  unfold in_box. simpl. auto using leb_refl.
Qed.
End Boxes.

(** X14.  The bounding box of every cluster of [groupRegions] holds all
    the members of the cluster, provided the coordinates of the points are
    numbers. *)
Theorem groupRegions_bounding_boxes
    (regions : list AdvancedImageAnalysis.Sample) (maxDistance : float) :
  Forall located regions ->
  Forall (fun g =>
    Forall (in_box (AdvancedImageAnalysis.bounds g))
      (AdvancedImageAnalysis.regions g))
    (AdvancedImageAnalysis.groupRegions regions maxDistance).
Proof.
  intros Hall.
  eapply Forall_impl; [apply groupRegions_boxed; exact Hall|].
  intros g [_ Hg]. exact Hg.
Qed.

Lemma groupRegions_bounding_boxes_witness :
  let pts := [AdvancedImageAnalysis.mkSample 0 0 0.8;
              AdvancedImageAnalysis.mkSample 100 8 0.5;
              AdvancedImageAnalysis.mkSample 40 4 0.6] in
  Forall located pts /\
  Forall (fun g =>
    Forall (in_box (AdvancedImageAnalysis.bounds g))
      (AdvancedImageAnalysis.regions g))
    (AdvancedImageAnalysis.groupRegions pts 50).
Proof.
  intros pts.
  assert (H : Forall located pts).
  { repeat constructor. }
  split; [exact H|].
  exact (groupRegions_bounding_boxes pts 50 H).
Defined.

(** ** Seeds *)

Section Seeds.
Import AdvancedImageAnalysis.
Variable all : list Sample.
Variable maxDistance : float.

(** The group starts with [region] and every other member is near it. *)
Let seeded (region : Sample) (g : Group) : Prop :=
  exists rest, regions g = region :: rest /\
    Forall (fun m => near maxDistance region m = true) rest.

Lemma absorb_seeded region st :
  seeded region (fst st) -> seeded region (fst (absorb all maxDistance region st)).
Proof.
  unfold absorb, JS.forEach_i.
  apply (fold_left_preserves (fun st => seeded region (fst st))).
  intros [g V] [j a] _ Hs. simpl in *. unfold absorbStep.
  destruct (decide (j ∈ V)); [exact Hs|].
  fold (near maxDistance region a).
  destruct (near maxDistance region a) eqn:Hnear; [|exact Hs].
  destruct Hs as (rest & Hr & Hn). simpl. exists (rest ++ [a]). split.
  - rewrite Hr. reflexivity.
  - apply Forall_app. split; [exact Hn|]. constructor; [exact Hnear|constructor].
Qed.

Lemma groupRegions_seeded :
  Forall (fun g =>
    (exists seed, seed ∈ all /\ seeded seed g) /\
    center g = (((minX (bounds g) + maxX (bounds g)) / 2)%float,
                ((minY (bounds g) + maxY (bounds g)) / 2)%float))
    (groupRegions all maxDistance).
Proof.
  unfold groupRegions, JS.forEach_i.
  match goal with |- Forall ?P _ =>
    apply (fold_left_preserves (fun st : list Group * gset nat => Forall P (fst st)));
      [|constructor]
  end.
  intros [groups V] [i region] Hin Hgroups. simpl in *. unfold groupStep.
  destruct (decide (i ∈ V)); [exact Hgroups|].
  match goal with |- context [absorb all maxDistance region ?st] =>
    pose proof (absorb_seeded region st) as Hb;
    destruct (absorb all maxDistance region st) as [g V'] end.
  simpl. apply Forall_app. split; [exact Hgroups|].
  constructor; [|constructor]. split; [|reflexivity].
  exists region. split.
  - apply list_elem_of_In, in_combine_r in Hin. now apply list_elem_of_In.
  - unfold finish, seeded. simpl. apply Hb. simpl.
    exists []. split; [reflexivity|constructor].
Qed.
End Seeds.

(** X29.  Every cluster of [groupRegions] is built around its first
    member, a point of the input: each other member lies within
    [maxDistance] of that seed (not necessarily of one another), and the
    centre of the cluster is the midpoint of its bounding box. *)
Theorem groupRegions_clusters_around_seed
    (regions : list AdvancedImageAnalysis.Sample) (maxDistance : float) :
  Forall (fun g =>
    (exists seed rest,
       seed ∈ regions /\
       AdvancedImageAnalysis.regions g = seed :: rest /\
       Forall (fun m => near maxDistance seed m = true) rest) /\
    AdvancedImageAnalysis.center g
    = (((AdvancedImageAnalysis.minX (AdvancedImageAnalysis.bounds g)
         + AdvancedImageAnalysis.maxX (AdvancedImageAnalysis.bounds g)) / 2)%float,
       ((AdvancedImageAnalysis.minY (AdvancedImageAnalysis.bounds g)
         + AdvancedImageAnalysis.maxY (AdvancedImageAnalysis.bounds g)) / 2)%float))
    (AdvancedImageAnalysis.groupRegions regions maxDistance).
Proof.
  eapply Forall_impl; [apply groupRegions_seeded|].
  intros g [(seed & Hseed & rest & Hr & Hn) Hc]. split; [|exact Hc].
  exists seed, rest. auto.
Qed.
(* ===================================================================== *)
(** * Composition guides *)
(* ===================================================================== *)

Section FloatLoops.
Context {S : Type}.

Lemma forF_fuel_counters (body : float -> S -> S) stop step :
  forall fuel i s,
  JS.forF_fuel fuel stop step body i s
  = fold_left (fun s i => body i s) (forF_counters fuel stop step i) s.
Proof.
  induction fuel as [|fuel IH]; intros i s; simpl; [reflexivity|].
  destruct (i <? stop)%float; [|reflexivity]. simpl. apply IH.
Qed.
End FloatLoops.

(** Once the guard has ended the loop, more fuel changes nothing. *)
Lemma forF_counters_stable stop step : forall n m i,
  (length (forF_counters n stop step i) < n)%nat -> (n <= m)%nat ->
  forF_counters m stop step i = forF_counters n stop step i.
Proof.
  induction n as [|n IH]; intros m i Hlen Hle; [simpl in Hlen; lia|].
  destruct m as [|m]; [lia|]. simpl in *.
  destruct (i <? stop)%float; [|reflexivity].
  simpl in Hlen. f_equal. apply IH; lia.
Qed.

Lemma fold_left_length_le {A K} (f : list A -> K -> list A) (ks : list K) :
  (forall l k, (length (f l k) <= S (length l))%nat) ->
  forall l, (length (fold_left f ks l) <= length l + length ks)%nat.
Proof.
  intros Hf. induction ks as [|k ks IH]; intros l; simpl; [lia|].
  specialize (IH (f l k)). specialize (Hf l k). lia.
Qed.

(** X15.  [generateGoldenSpiral], whatever [Math.exp], [Math.cos] and
    [Math.sin] return: the loop ends after 126 steps of 0.1 (more fuel
    changes nothing), at most 126 points are returned, and every one lies
    on the canvas, [0 <= x <= width] and [0 <= y <= height]. *)
Theorem goldenSpiral_on_canvas (Math_exp Math_cos Math_sin : float -> float)
    (width height : float) :
  let points :=
    CompositionUtils.generateGoldenSpiral Math_exp Math_cos Math_sin width height in
  (forall fuel, (126 <= fuel)%nat ->
     JS.forF_fuel fuel (4 * JS.Math_PI)%float 0.1%float
       (CompositionUtils.spiralStep Math_exp Math_cos Math_sin width height)
       0%float [] = points) /\
  (length points <= 126)%nat /\
  Forall (fun p =>
    (0 <=? CompositionUtils.pt_x p)%float = true /\
    (CompositionUtils.pt_x p <=? width)%float = true /\
    (0 <=? CompositionUtils.pt_y p)%float = true /\
    (CompositionUtils.pt_y p <=? height)%float = true /\
    CompositionUtils.pt_type p = "spiral"%string) points.
Proof.
  intros points. subst points. unfold CompositionUtils.generateGoldenSpiral.
  assert (H127 : length (forF_counters 127 (4 * JS.Math_PI) 0.1 0) = 126%nat)
    by (vm_compute; reflexivity).
  assert (Hfuel : forall fuel, (126 <= fuel)%nat ->
    forF_counters fuel (4 * JS.Math_PI) 0.1 0
    = forF_counters 127 (4 * JS.Math_PI) 0.1 0).
  { intros fuel Hf. destruct (decide (fuel = 126%nat)) as [->|Hne].
    - vm_compute. reflexivity.
    - apply forF_counters_stable; lia. }
  split; [|split].
  - intros fuel Hf. rewrite !forF_fuel_counters.
    rewrite (Hfuel fuel Hf), (Hfuel 200%nat) by lia. reflexivity.
  - rewrite forF_fuel_counters, (Hfuel 200%nat) by lia.
    rewrite <- H127.
    apply (fold_left_length_le
             (fun s i => CompositionUtils.spiralStep Math_exp Math_cos Math_sin
                           width height i s)).
    intros l k. unfold CompositionUtils.spiralStep. cbv zeta.
    destruct (_ && _); [rewrite length_app; simpl; lia | lia].
  - apply forF_fuel_preserves; [|constructor].
    intros angle pts _ Hpts. unfold CompositionUtils.spiralStep. cbv zeta.
    destruct (_ && _) eqn:G; [|exact Hpts].
    apply Forall_app. split; [exact Hpts|].
    constructor; [|constructor]. simpl.
    apply andb_prop in G as [G G4]. apply andb_prop in G as [G G3].
    apply andb_prop in G as [G1 G2]. unfold JS.ge in *. auto.
Qed.

(** X16.  [calculateCompositionScore] returns 0 without a crop selection
    or without guide points, and never a Number above 100. *)
Theorem compositionScore_bounds
    (cropSelection : option CompositionUtils.Rect)
    (points : list CompositionUtils.Point) :
  let score := CompositionUtils.calculateCompositionScore cropSelection points in
  (100 <? score)%float = false /\
  (cropSelection = None \/ points = [] -> score = 0%float).
Proof.
  unfold CompositionUtils.calculateCompositionScore. split.
  - destruct cropSelection as [c|]; [|reflexivity].
    destruct (length points =? 0)%nat; [reflexivity|].
    cbv zeta. apply Math_min_not_above.
  - intros [->| ->]; [reflexivity|]. destruct cropSelection; reflexivity.
Qed.

(* ===================================================================== *)
(** * Social media presets *)
(* ===================================================================== *)

(** X17.  [applyPreset] with a platform and format of which neither names
    an inherited property: outside the fifteen presets of [getPresets] the
    crop selection comes back unchanged; in every case the new selection
    keeps the width or the height of the old one. *)
Theorem applyPreset_unknown_or_one_side
    (crop : AIComposer.CropSelection) (platform format : string) :
  JS.inherited platform = false -> JS.inherited format = false ->
  let out := SocialMediaPresets.applyPreset crop platform format in
  ((platform, format) ∉ preset_names -> out = crop) /\
  (AIComposer.sel_width out = AIComposer.sel_width crop
   \/ AIComposer.sel_height out = AIComposer.sel_height crop).
Proof.
  intros _ _ out. subst out. unfold SocialMediaPresets.applyPreset. cbv zeta.
  destruct (JS.obj_get SocialMediaPresets.getPresets platform
              ≫= fun p => JS.obj_get p format) as [preset|] eqn:E.
  - split.
    + intros Hnot. exfalso. apply Hnot. revert E.
      unfold SocialMediaPresets.getPresets.
      cbn [JS.obj_get mbind option_bind].
      repeat match goal with
      | |- context [String.eqb ?a platform] =>
          destruct (String.eqb_spec a platform) as [<-|_];
          cbn [JS.obj_get mbind option_bind]
      end;
      repeat match goal with
      | |- context [String.eqb ?a format] =>
          destruct (String.eqb_spec a format) as [<-|_]
      end;
      intros E; try discriminate;
      unfold preset_names; repeat first [left; reflexivity | right].
    + destruct (JS.gt _ _); simpl; auto.
  - split; auto.
Qed.

Lemma applyPreset_unknown_or_one_side_witness :
  JS.inherited "tiktok" = false /\ JS.inherited "video" = false /\
  SocialMediaPresets.applyPreset (AIComposer.mkCrop 10 20 300 200) "tiktok" "video"
  = AIComposer.mkCrop 10 20 300 200.
Proof.
  split; [reflexivity|]. split; [reflexivity|].
  apply (applyPreset_unknown_or_one_side (AIComposer.mkCrop 10 20 300 200)
           "tiktok" "video" eq_refl eq_refl).
  intros Hin.
  repeat (apply elem_of_cons in Hin as [Hin|Hin]; [discriminate|]).
  inversion Hin.
Defined.
(* ===================================================================== *)
(** * Creative filters *)
(* ===================================================================== *)

Lemma toZ_Z2F_byte k : 0 <= k <= 255 -> JS.toZ (JS.Z2F k) = k.
Proof.
  intros Hk. apply Z.eqb_eq.
  apply (forallb_seqZ (fun k => JS.toZ (JS.Z2F k) =? k) 0 256);
    [vm_compute; reflexivity | lia].
Qed.

(** The floor of a Number strictly between 0 and 255. *)
Lemma floor_below_255 x :
  is_nan x = false -> (x <=? 0)%float = false -> (255 <=? x)%float = false ->
  exists k, 0 <= k <= 254 /\ JS.Math_floor x = JS.Z2F k.
Proof.
  intros N L0 L255. apply is_nan_false in N.
  rewrite FloatAxioms.leb_spec in L0, L255. unfold JS.Math_floor.
  change (Prim2SF 0) with (S754_zero false) in L0.
  change (Prim2SF 255) with (S754_finite false 8972014882652160 (-45)) in L255.
  pose proof (Prim2SF_valid x) as V.
  destruct (Prim2SF x) as [s|s| |s m e] eqn:E.
  - discriminate L0.
  - destruct s; [discriminate L0 | discriminate L255].
  - congruence.
  - destruct s; [discriminate L0|].
    apply valid_exponent in V as [_ V].
    assert (Hm : Z.pos m < 2 ^ 53).
    { apply Zdigits2_le; lia. }
    unfold SFleb in L255. rewrite SFcompare_finite in L255.
    destruct (fin_cmp_spec (-45) e 8972014882652160 m) as [H|H|H];
      try discriminate L255.
    destruct (Z.leb_spec 0 e) as [He|He]; [lia|].
    simpl cond_Zopp.
    exists (Z.pos m / 2 ^ (- e)). split; [|reflexivity].
    split; [apply Z.div_pos; [lia|apply Z.pow_pos_nonneg; lia]|].
    assert (Z.pos m / 2 ^ (- e) < 255); [|lia].
    apply Z.div_lt_upper_bound; [apply Z.pow_pos_nonneg; lia|].
    destruct H as [H|[H1 H2]].
    + assert (2 ^ 46 <= 2 ^ (- e)) by (apply Z.pow_le_mono_r; lia). lia.
    + replace (- e) with 45 by lia. lia.
Qed.

(** What is stored in a [Uint8ClampedArray] is a byte. *)
Lemma toUint8Clamp_range x : 0 <= JS.toUint8Clamp x <= 255.
Proof.
  unfold JS.toUint8Clamp.
  destruct (is_nan x) eqn:N; [lia|].
  destruct (x <=? 0)%float eqn:L0; [lia|].
  destruct (255 <=? x)%float eqn:L255; [lia|].
  destruct (floor_below_255 x N L0 L255) as (k & Hk & ->).
  cbv zeta. rewrite toZ_Z2F_byte by lia.
  destruct (_ <? x)%float; [lia|].
  destruct (x <? _)%float; [lia|].
  destruct (Z.even k); lia.
Qed.

(** ** Stores *)

Lemma length_store d i v : length (JS.store d i v) = length d.
Proof. unfold JS.store. destruct (i <? 0); [reflexivity|apply length_insert]. Qed.

Lemma get_store_ne d i j v : i <> j -> JS.get (JS.store d i v) j = JS.get d j.
Proof.
  intros Hne. unfold JS.store, JS.get.
  destruct (Z.ltb_spec i 0); [reflexivity|].
  destruct (Z.ltb_spec j 0); [reflexivity|].
  apply list_lookup_insert_ne. lia.
Qed.

Lemma get_store_eq d i v :
  0 <= i < Z.of_nat (length d) ->
  JS.get (JS.store d i v) i = Some (JS.toUint8Clamp v).
Proof.
  intros Hi. unfold JS.store, JS.get.
  destruct (Z.ltb_spec i 0); [lia|].
  apply list_lookup_insert_eq. lia.
Qed.

Lemma Forall_store d i v :
  Forall (fun b => 0 <= b <= 255) d ->
  Forall (fun b => 0 <= b <= 255) (JS.store d i v).
Proof.
  intros H. unfold JS.store. destruct (i <? 0); [exact H|].
  apply Forall_insert; [exact H|apply toUint8Clamp_range].
Qed.

(** What a store outside the alpha channel keeps of a buffer [d]. *)
Section Kept.
Variable d : list Z.

Let kept (s : list Z) : Prop :=
  length s = length d /\
  (forall j, j mod 4 = 3 -> JS.get s j = JS.get d j) /\
  (Forall (fun b => 0 <= b <= 255) d -> Forall (fun b => 0 <= b <= 255) s).

Lemma kept_refl : kept d.
Proof. repeat split; auto. Qed.

Lemma store_kept s k v : k mod 4 <> 3 -> kept s -> kept (JS.store s k v).
Proof.
  intros Hk (Hlen & Halpha & Hbytes). repeat split.
  - now rewrite length_store.
  - intros j Hj. rewrite get_store_ne by congruence. auto.
  - intros H. apply Forall_store. auto.
Qed.

Lemma storePixel_kept s i rgb :
  i mod 4 = 0 -> kept s -> kept (CreativeFilters.storePixel s i rgb).
Proof.
  intros Hi Hs. destruct rgb as [[r g] b]. unfold CreativeFilters.storePixel.
  assert (H1 : (i + 1) mod 4 <> 3) by (rewrite <- Zplus_mod_idemp_l, Hi; discriminate).
  assert (H2 : (i + 2) mod 4 <> 3) by (rewrite <- Zplus_mod_idemp_l, Hi; discriminate).
  assert (H0 : i mod 4 <> 3) by (rewrite Hi; discriminate).
  auto using store_kept.
Qed.

Lemma vintageStep_kept Math_random w h sepia vignette grain i s :
  i mod 4 = 0 -> kept s ->
  kept (CreativeFilters.vintageStep Math_random w h sepia vignette grain i s).
Proof.
  intros Hi Hs. unfold CreativeFilters.vintageStep. cbv zeta.
  destruct (CreativeFilters.pixelAt s i) as [[r g] b].
  assert (H1 : (i + 1) mod 4 <> 3) by (rewrite <- Zplus_mod_idemp_l, Hi; discriminate).
  assert (H2 : (i + 2) mod 4 <> 3) by (rewrite <- Zplus_mod_idemp_l, Hi; discriminate).
  assert (H0 : i mod 4 <> 3) by (rewrite Hi; discriminate).
  destruct (JS.gt grain 0);
    repeat first [apply store_kept; [assumption|] | apply storePixel_kept; [assumption|]];
    exact Hs.
Qed.

(** A loop over the pixels whose iterations keep these. *)
Lemma pixel_loop_kept (body : Z -> list Z -> list Z) :
  (forall i s, i mod 4 = 0 -> kept s -> kept (body i s)) ->
  kept (JS.for_lt 0 (Z.of_nat (length d)) 4 body d).
Proof.
  intros Hbody. rewrite for_lt_counters by lia.
  apply fold_left_preserves; [|exact kept_refl].
  intros s i Hi Hs. apply Hbody; [|exact Hs].
  apply elem_of_counters in Hi as (k & _ & -> & _); [|lia].
  rewrite Z.add_0_l. apply Z.mod_mul. lia.
Qed.

(** ** A loop that recolours pixel by pixel *)

Variable f : float * float * float -> float * float * float.
Variable n : Z.
Hypothesis Hlen : Z.of_nat (length d) = 4 * n.

Let recoloured (p : Z) (s : list Z) : Prop :=
  JS.get s (4 * p + 3) = JS.get d (4 * p + 3) /\
  let '(r, g, b) := f (CreativeFilters.pixelAt d (4 * p)) in
  JS.get s (4 * p) = Some (JS.toUint8Clamp r) /\
  JS.get s (4 * p + 1) = Some (JS.toUint8Clamp g) /\
  JS.get s (4 * p + 2) = Some (JS.toUint8Clamp b).

Lemma get_storePixel_ne s i j rgb :
  j <> i -> j <> i + 1 -> j <> i + 2 ->
  JS.get (CreativeFilters.storePixel s i rgb) j = JS.get s j.
Proof.
  intros H0 H1 H2. destruct rgb as [[r g] b]. unfold CreativeFilters.storePixel.
  rewrite !get_store_ne by congruence. reflexivity.
Qed.

Lemma length_storePixel s i rgb :
  length (CreativeFilters.storePixel s i rgb) = length s.
Proof.
  destruct rgb as [[r g] b]. unfold CreativeFilters.storePixel.
  now rewrite !length_store.
Qed.

Lemma pixel_loop_recoloured :
  let out :=
    JS.for_lt 0 (Z.of_nat (length d)) 4 (fun i data =>
      CreativeFilters.storePixel data i (f (CreativeFilters.pixelAt data i))) d in
  length out = length d /\ forall p, 0 <= p < n -> recoloured p out.
Proof.
  intros out. subst out.
  set (body := fun i data =>
    CreativeFilters.storePixel data i (f (CreativeFilters.pixelAt data i))).
  set (P := fun (i : Z) (s : list Z) =>
    i mod 4 = 0 /\ length s = length d /\
    (forall j, i <= j -> JS.get s j = JS.get d j) /\
    (forall p, 0 <= p -> 4 * p < i -> recoloured p s)).
  destruct (for_lt_invariant P body 0 (Z.of_nat (length d)) 4 d) as (i & _ & Hi & _ & HP).
  - lia.
  - unfold P. split; [reflexivity|]. split; [reflexivity|].
    split; [auto|]. intros q Hq Hlt. lia.
  - intros i s Hi (Hmod & Hl & Hrest & Hdone). unfold P, body.
    assert (Hpx : CreativeFilters.pixelAt s i = CreativeFilters.pixelAt d i).
    { unfold CreativeFilters.pixelAt, byte_at. rewrite !Hrest by lia. reflexivity. }
    assert (Hq : i = 4 * (i / 4)).
    { pose proof (Z.div_mod i 4 ltac:(lia)). lia. }
    assert (Hi3 : i + 3 < Z.of_nat (length d)) by lia.
    split; [|split; [|split]].
    + rewrite <- Zplus_mod_idemp_l, Hmod. reflexivity.
    + now rewrite length_storePixel.
    + intros j Hj. rewrite get_storePixel_ne by lia. apply Hrest. lia.
    + intros p Hp Hlt.
      destruct (Z.ltb_spec (4 * p) i) as [Hold|Hnew].
      * destruct (Hdone p Hp Hold) as [Ha Hc]. split.
        -- rewrite get_storePixel_ne by lia. exact Ha.
        -- destruct (f (CreativeFilters.pixelAt d (4 * p))) as [[r g] b].
           rewrite !get_storePixel_ne by lia. exact Hc.
      * assert (E : 4 * p = i) by lia.
        unfold recoloured. rewrite E. split.
        -- rewrite get_storePixel_ne by lia. apply Hrest. lia.
        -- rewrite Hpx. destruct (f (CreativeFilters.pixelAt d i)) as [[r g] b].
           unfold CreativeFilters.storePixel.
           repeat split.
           ++ rewrite !get_store_ne by lia. apply get_store_eq. lia.
           ++ rewrite get_store_ne by lia. apply get_store_eq.
              rewrite length_store. lia.
           ++ apply get_store_eq. rewrite !length_store. lia.
  - destruct HP as (_ & Hl & _ & Hdone). split; [exact Hl|].
    intros p Hp. apply Hdone; lia.
Qed.
End Kept.

Lemma kept_valid (img : ImageData) (s : list Z) :
  valid_buffer img ->
  length s = length (data img) ->
  (Forall (fun b => 0 <= b <= 255) (data img) -> Forall (fun b => 0 <= b <= 255) s) ->
  valid_buffer (mkImageData (width img) (height img) s).
Proof.
  intros (Hw & Hh & Hlen & Hb) Hl Hs. unfold valid_buffer. simpl.
  rewrite Hl. auto.
Qed.

Lemma recolour_pixelwise f img :
  valid_buffer img ->
  let out :=
    mkImageData (width img) (height img)
      (JS.for_lt 0 (Z.of_nat (length (data img))) 4 (fun i data =>
         CreativeFilters.storePixel data i (f (CreativeFilters.pixelAt data i)))
         (data img)) in
  valid_buffer out /\ pixelwise f img out.
Proof.
  intros Hv out. pose proof Hv as (Hw & Hh & Hlen & Hb).
  destruct (pixel_loop_recoloured (data img) f (width img * height img))
    as [Hl Hp]; [lia|].
  split.
  - apply kept_valid; auto.
    apply (pixel_loop_kept (data img)).
    intros i s Hi Hs. now apply storePixel_kept.
  - unfold pixelwise. subst out. cbn [data width height].
    split; [reflexivity|]. split; [reflexivity|]. split; [exact Hl|].
    intros p Hp'. exact (Hp p Hp').
Qed.

(** X18.  [applyDramaticLighting] on a valid buffer, whatever the options:
    the result is a valid buffer of the same size in which every pixel is
    the lighting formula applied to the pixel that was there, stored as
    bytes; the alpha channel is untouched. *)
Theorem dramaticLighting_pixelwise (img : ImageData)
    (options : CreativeFilters.LightingOptions) :
  valid_buffer img ->
  let out := CreativeFilters.applyDramaticLighting img options in
  valid_buffer out /\
  pixelwise
    (CreativeFilters.lightPixel
       (default 1.3%float (CreativeFilters.contrast options))
       (default 0.1%float (CreativeFilters.brightness options))
       (default 0.2%float (CreativeFilters.highlights options))
       (default (-0.3)%float (CreativeFilters.shadows options)))
    img out.
Proof.
  intros Hv. unfold CreativeFilters.applyDramaticLighting. cbv zeta.
  exact (recolour_pixelwise _ img Hv).
Qed.

Lemma dramaticLighting_pixelwise_witness :
  valid_buffer img3 /\
  valid_buffer
    (CreativeFilters.applyDramaticLighting img3
       (CreativeFilters.mkLightingOptions None None None None)).
Proof.
  split; [exact img3_valid|].
  exact (proj1 (dramaticLighting_pixelwise img3
                  (CreativeFilters.mkLightingOptions None None None None)
                  img3_valid)).
Defined.



(** X20.  [applyVintageEffect] on a valid buffer, whatever the options and
    whatever [Math.random] returns: the result is a valid buffer of the
    same dimensions and every alpha byte is untouched. *)
Theorem vintageEffect_keeps_alpha (Math_random : Z -> float) (img : ImageData)
    (options : CreativeFilters.VintageOptions) :
  valid_buffer img ->
  let out := CreativeFilters.applyVintageEffect Math_random img options in
  valid_buffer out /\
  width out = width img /\ height out = height img /\
  forall p, 0 <= p < width img * height img ->
    JS.get (data out) (4 * p + 3) = JS.get (data img) (4 * p + 3).
Proof.
  intros Hv. unfold CreativeFilters.applyVintageEffect. cbv zeta.
  match goal with |- context [JS.for_lt 0 _ 4 ?body (data img)] =>
    destruct (pixel_loop_kept (data img) body) as (Hl & Ha & Hb)
  end.
  { intros i s Hi Hs. now apply vintageStep_kept. }
  split; [now apply kept_valid|]. simpl. repeat split.
  intros p Hp. apply Ha.
  rewrite Z.add_comm, Z.mul_comm. rewrite Z.mod_add by lia. reflexivity.
Qed.

Lemma vintageEffect_keeps_alpha_witness :
  valid_buffer img3 /\
  valid_buffer
    (CreativeFilters.applyVintageEffect (fun _ => 0.25%float) img3
       (CreativeFilters.mkVintageOptions None None None)).
Proof.
  split; [exact img3_valid|].
  exact (proj1 (vintageEffect_keeps_alpha (fun _ => 0.25%float) img3
                  (CreativeFilters.mkVintageOptions None None None)
                  img3_valid)).
Defined.
(* ===================================================================== *)
(** * Clamped scores, and the blank canvas *)
(* ===================================================================== *)

(** X21.  The clamps of the composer hold on their side, NaN apart: the
    rule-of-thirds and golden-ratio scores are never below 0; the
    leading-lines, colour-harmony and visual-interest scores are never
    above 1. *)
Theorem clamped_scores_hold (img : ImageData)
    (crop : option AIComposer.CropSelection) :
  (AIComposer.ruleOfThirdsAnalysis img crop <? 0)%float = false /\
  (AIComposer.goldenRatioAnalysis img crop <? 0)%float = false /\
  (1 <? AIComposer.leadingLinesAnalysis img crop)%float = false /\
  (1 <? AIComposer.analyzeColorHarmony (data img))%float = false /\
  (1 <? AIComposer.analyzeVisualInterest img)%float = false.
Proof.
  repeat split.
  - unfold AIComposer.ruleOfThirdsAnalysis.
    destruct crop as [c|]; [|reflexivity]. cbv zeta.
    apply (fold_left_preserves (fun s => (s <? 0)%float = false)); [|reflexivity].
    intros best p _ Hbest.
    match goal with |- (JS.Math_max best ?s <? 0)%float = false =>
      destruct (Math_max_cases best s) as [->|[[-> _]|[-> _]]] end.
    + reflexivity.
    + exact Hbest.
    + apply Math_max_not_below.
  - unfold AIComposer.goldenRatioAnalysis.
    destruct crop as [c|]; [|reflexivity]. cbv zeta.
    apply Math_max_not_below.
  - unfold AIComposer.leadingLinesAnalysis. cbv zeta.
    destruct (AIComposer.countAbove _ _ _). apply Math_min_not_above.
  - unfold AIComposer.analyzeColorHarmony. cbv zeta. apply Math_min_not_above.
  - unfold AIComposer.analyzeVisualInterest. cbv zeta.
    destruct (AIComposer.countAbove _ _ _). apply Math_min_not_above.
Qed.

(** ** A buffer of zeros *)

Section Blank.
Variable d : list Z.
Hypothesis Hblank : Forall (fun b => b = 0) d.

Lemma blank_byte_atF idx : zero_or_nan (AIComposer.byte_atF d idx).
Proof.
  unfold AIComposer.byte_atF, JS.getF, JS.get, zero_or_nan.
  destruct (JS.F2Z idx) as [i|]; [|now right].
  destruct (i <? 0); [now right|].
  destruct (d !! Z.to_nat i) as [b|] eqn:E; [|now right].
  rewrite Forall_lookup in Hblank. rewrite (Hblank _ _ E). now left.
Qed.

Lemma blank_brightness idx :
  zero_or_nan ((AIComposer.byte_atF d idx + AIComposer.byte_atF d (idx + 1)
                + AIComposer.byte_atF d (idx + 2)) / 3)%float.
Proof.
  destruct (blank_byte_atF idx) as [-> | ->],
           (blank_byte_atF (idx + 1)) as [-> | ->],
           (blank_byte_atF (idx + 2)) as [-> | ->];
    first [left; reflexivity | right; reflexivity].
Qed.

Lemma zero_or_nan_add x y : zero_or_nan x -> zero_or_nan y -> zero_or_nan (x + y)%float.
Proof.
  intros [-> | ->] [-> | ->]; first [left; reflexivity | right; reflexivity].
Qed.

Lemma blank_visualWeight x y w h :
  zero_or_nan (AIComposer.calculateVisualWeight d x y w h).
Proof.
  unfold AIComposer.calculateVisualWeight. cbv zeta.
  rewrite for_lt_counters by lia.
  apply fold_left_preserves; [|now left].
  intros weight py _ Hweight. rewrite for_lt_counters by lia.
  apply fold_left_preserves; [|exact Hweight].
  intros weight' px _ Hweight'.
  destruct (_ <? _)%float; [|exact Hweight'].
  apply zero_or_nan_add; [exact Hweight'|apply blank_brightness].
Qed.
End Blank.

Lemma blank_balance_term l r :
  zero_or_nan l -> zero_or_nan r ->
  (1 - JS.Math_abs (l - r) / JS.Math_max l r)%float = nan.
Proof. intros [-> | ->] [-> | ->]; reflexivity. Qed.

Lemma blank_quadrantWeight img qx qy qw qh :
  Forall (fun b => b = 0) (data img) ->
  zero_or_nan (AdvancedImageAnalysis.quadrantWeight img qx qy qw qh).
Proof.
  intros Hblank. unfold AdvancedImageAnalysis.quadrantWeight. cbv zeta.
  apply forF_fuel_preserves; [|now left].
  intros y weight _ Hweight.
  apply forF_fuel_preserves; [|exact Hweight].
  intros x weight' _ Hweight'.
  apply zero_or_nan_add; [exact Hweight'|now apply blank_brightness].
Qed.

(** X22.  A buffer of zeros (a blank canvas: transparent black), of any
    size: both balance measures divide 0 by 0.  The quadrant balance of the
    advanced analysis is NaN, and with it the overall score of its
    composition analysis; the balance rule of the composer is NaN, and
    with it the composition score and the overall score, whatever the
    crop. *)
Theorem blank_canvas_is_NaN (img : ImageData)
    (crop : option AIComposer.CropSelection) :
  Forall (fun b => b = 0) (data img) ->
  AdvancedImageAnalysis.calculateBalance img = nan /\
  (forall Math_cos Math_sin,
     AdvancedImageAnalysis.overallScore
       (AdvancedImageAnalysis.analyzeComposition Math_cos Math_sin img) = nan) /\
  AIComposer.balanceAnalysis img crop = nan /\
  AIComposer.compositionScore (AIComposer.analyzeComposition img crop) = nan /\
  AIComposer.overallScore (AIComposer.analyzeComposition img crop) = nan.
Proof.
  intros Hblank.
  assert (B : AIComposer.balanceAnalysis img crop = nan).
  { unfold AIComposer.balanceAnalysis. cbv zeta.
    rewrite !blank_balance_term by (apply blank_visualWeight; exact Hblank).
    reflexivity. }
  assert (C : AIComposer.analyzeCompositionRules img crop = nan).
  { apply (composition_NaN img crop "balance").
    unfold subScore. rewrite ruleScores_entries. cbn [JS.obj_get].
    change ("balance" =? "balance")%string with true.
    change ("ruleOfThirds" =? "balance")%string with false.
    change ("goldenRatio" =? "balance")%string with false.
    change ("symmetry" =? "balance")%string with false.
    change ("leadingLines" =? "balance")%string with false.
    cbv iota. now rewrite B. }
  assert (Q : AdvancedImageAnalysis.calculateBalance img = nan).
  { unfold AdvancedImageAnalysis.calculateBalance. cbv zeta.
    cbn [map fold_left].
    repeat match goal with
    | |- context [AdvancedImageAnalysis.quadrantWeight img ?a ?b ?c ?e] =>
        let H := fresh "Q" in
        pose proof (blank_quadrantWeight img a b c e Hblank) as H;
        generalize dependent (AdvancedImageAnalysis.quadrantWeight img a b c e);
        intros
    end.
    repeat match goal with H : zero_or_nan _ |- _ => destruct H as [-> | ->] end;
      reflexivity. }
  split; [exact Q|]. split; [|split; [exact B|split]].
  - intros Math_cos Math_sin.
    unfold AdvancedImageAnalysis.analyzeComposition. cbv zeta. simpl.
    rewrite Q, add_nan_r, add_nan_l. apply div_nan_l.
  - destruct (analyzeComposition_scores img crop) as [-> _]. exact C.
  - now apply overall_NaN.
Qed.

Lemma blank_canvas_is_NaN_witness :
  Forall (fun b => b = 0) (data (mkImageData 3 2 (replicate 24 0))) /\
  AdvancedImageAnalysis.calculateBalance (mkImageData 3 2 (replicate 24 0)) = nan.
Proof.
  assert (H : Forall (fun b => b = 0) (data (mkImageData 3 2 (replicate 24 0)))).
  { apply Forall_replicate. reflexivity. }
  split; [exact H|].
  exact (proj1 (blank_canvas_is_NaN (mkImageData 3 2 (replicate 24 0)) None H)).
Defined.
(* ===================================================================== *)
(** * Counts as Numbers *)
(* ===================================================================== *)

(** A count between 1 and 2^53 is a positive finite Number. *)
Lemma Z2F_positive n :
  1 <= n < 2 ^ 53 -> exists m e, Prim2SF (JS.Z2F n) = S754_finite false m e.
Proof.
  intros Hn. destruct (Z2F_shape n Hn) as (m & E & _). eauto.
Qed.

Lemma zero_div_count n : 1 <= n < 2 ^ 53 -> (0 / JS.Z2F n)%float = 0%float.
Proof.
  intros Hn. destruct (Z2F_positive n Hn) as (m & e & E).
  apply Prim2SF_inj. rewrite FloatAxioms.div_spec, E. reflexivity.
Qed.

(** ** Greyscale images *)

Lemma grey_contrast v :
  0 <= v <= 255 ->
  JS.gt (JS.Math_abs (JS.Z2F v - JS.Z2F v) + JS.Math_abs (JS.Z2F v - JS.Z2F v)
         + JS.Math_abs (JS.Z2F v - JS.Z2F v))%float 30 = false.
Proof.
  intros Hv.
  refine (proj1 (negb_true_iff _)
    (forallb_seqZ
       (fun v => negb (JS.gt (JS.Math_abs (JS.Z2F v - JS.Z2F v)
                              + JS.Math_abs (JS.Z2F v - JS.Z2F v)
                              + JS.Math_abs (JS.Z2F v - JS.Z2F v))%float 30))
       0 256 v _ _)); [vm_compute; reflexivity | lia].
Qed.

Section Grey.
Variable img : ImageData.
Hypothesis Hv : valid_buffer img.
Hypothesis Hgrey : greyscale img.

Lemma grey_sample i :
  i ∈ counters 0 (Z.of_nat (length (data img))) 4 ->
  exists v, 0 <= v <= 255 /\
    byte_at (data img) i = JS.Z2F v /\
    byte_at (data img) (i + 1) = JS.Z2F v /\
    byte_at (data img) (i + 2) = JS.Z2F v.
Proof.
  intros Hi. apply elem_of_counters in Hi as (k & Hk & -> & Hlt); [|lia].
  destruct Hv as (Hw & Hh & Hlen & _). rewrite Hlen in Hlt.
  destruct (Hgrey k) as (v & Hb & Hr & Hg & Hbl); [lia|].
  exists v. split; [exact Hb|].
  replace (0 + k * 4) with (4 * k) by lia.
  unfold byte_at. rewrite Hr, Hg, Hbl. auto.
Qed.

Lemma pixel_count :
  Z.of_nat (length (counters 0 (Z.of_nat (length (data img))) 4))
  = width img * height img.
Proof.
  destruct Hv as (Hw & Hh & Hlen & _).
  unfold counters. rewrite length_fmap, length_seqZ, Hlen.
  replace (width img * height img * 4 - 0 + 4 - 1)
    with (3 + (width img * height img) * 4) by lia.
  rewrite Z.div_add by lia. change (3 / 4) with 0.
  rewrite Z.add_0_l. apply Z2Nat.id. nia.
Qed.

Lemma grey_depth crop :
  AIComposer.depthAnalysis img crop
  = (JS.Z2F 0 / JS.Z2F (width img * height img))%float.
Proof.
  unfold AIComposer.depthAnalysis. cbv zeta.
  rewrite for_lt_counters by lia. rewrite <- pixel_count.
  generalize (grey_sample).
  generalize (counters 0 (Z.of_nat (length (data img))) 4) as l.
  intros l Hl.
  match goal with |- context [fold_left ?f l (0, 0)] =>
    assert (E : forall total,
      fold_left f l (0, total) = (0, total + Z.of_nat (length l)))
  end.
  { induction l as [|i l IH]; intros total; simpl fold_left.
    - simpl. f_equal. lia.
    - destruct (Hl i ltac:(left)) as (v & Hb & -> & -> & ->).
      rewrite grey_contrast by exact Hb.
      rewrite IH by (intros j Hj; apply Hl; now right).
      simpl length. f_equal. lia. }
  rewrite (E 0). reflexivity.
Qed.

Lemma grey_mood :
  AIComposer.analyzeMood (data img)
  = (1 - JS.Math_abs (JS.Z2F 0 / JS.Z2F (width img * height img)
                      - JS.Z2F 0 / JS.Z2F (width img * height img)))%float.
Proof.
  unfold AIComposer.analyzeMood. cbv zeta.
  rewrite for_lt_counters by lia. rewrite <- pixel_count.
  generalize (grey_sample).
  generalize (counters 0 (Z.of_nat (length (data img))) 4) as l.
  intros l Hl.
  match goal with |- context [fold_left ?f l (0, 0, 0)] =>
    assert (E : forall total,
      fold_left f l (0, 0, total) = (0, 0, total + Z.of_nat (length l)))
  end.
  { induction l as [|i l IH]; intros total; simpl fold_left.
    - simpl. f_equal. lia.
    - destruct (Hl i ltac:(left)) as (v & Hb & -> & -> & ->).
      assert (G : JS.gt (JS.Z2F v) (JS.Z2F v) = false) by apply ltb_irrefl.
      rewrite !G. cbn [andb].
      rewrite IH by (intros j Hj; apply Hl; now right).
      simpl length. f_equal. lia. }
  rewrite (E 0). reflexivity.
Qed.
End Grey.

(** X23.  On a greyscale image (valid, fewer than 2^53 pixels) the depth
    rule scores exactly 0, since it counts the pixels whose channels
    differ, and the mood score is exactly 1, no pixel being warm or
    cool. *)
Theorem greyscale_depth_and_mood (img : ImageData)
    (crop : option AIComposer.CropSelection) :
  valid_buffer img -> greyscale img -> width img * height img < 2 ^ 53 ->
  AIComposer.depthAnalysis img crop = 0%float /\
  AIComposer.analyzeMood (data img) = 1%float.
Proof.
  intros Hv Hgrey Hsize.
  assert (Hn : 1 <= width img * height img < 2 ^ 53).
  { destruct Hv as (Hw & Hh & _). nia. }
  split.
  - rewrite (grey_depth img Hv Hgrey). now apply zero_div_count.
  - rewrite (grey_mood img Hv Hgrey).
    change (JS.Z2F 0) with 0%float.
    rewrite zero_div_count by exact Hn. reflexivity.
Qed.

Lemma greyscale_depth_and_mood_witness :
  valid_buffer (uniform 8 8 180 180 180) /\ greyscale (uniform 8 8 180 180 180) /\
  AIComposer.depthAnalysis (uniform 8 8 180 180 180) None = 0%float /\
  AIComposer.analyzeMood (data (uniform 8 8 180 180 180)) = 1%float.
Proof.
  assert (V : valid_buffer (uniform 8 8 180 180 180)) by (apply uniform_valid; lia).
  assert (G : greyscale (uniform 8 8 180 180 180)).
  { intros p Hp. exists 180. split; [lia|].
    apply (uniform_all_pixels 8 8 180 180 180); [lia|exact Hp]. }
  split; [exact V|]. split; [exact G|].
  apply (greyscale_depth_and_mood (uniform 8 8 180 180 180) None V G).
  reflexivity.
Defined.

(** X24.  The focus score of a buffer less than 3 pixels wide or high
    (valid, fewer than 2^53 pixels) is exactly 0: [forEach] skips the empty
    slots of its edge map, so no pixel counts as sharp. *)
Theorem no_interior_no_focus_score (img : ImageData) :
  valid_buffer img -> width img * height img < 2 ^ 53 ->
  width img < 3 \/ height img < 3 ->
  AdvancedImageAnalysis.calculateFocusScore img = 0%float.
Proof.
  intros Hv Hsize Hsmall.
  assert (Hn : 1 <= width img * height img < 2 ^ 53).
  { destruct Hv as (Hw & Hh & _). nia. }
  unfold AdvancedImageAnalysis.calculateFocusScore. cbv zeta.
  unfold AdvancedImageAnalysis.detectEdges.
  rewrite (detectEdges_degenerate img Hsmall). unfold JS.new_Array.
  rewrite length_replicate, Z2Nat.id by lia.
  assert (E : forall (n : nat) acc,
    fold_left (fun sharpPixels (slot : option float) =>
      match slot with
      | Some edge => if JS.gt edge 30 then sharpPixels + 1 else sharpPixels
      | None => sharpPixels
      end) (replicate n None) acc = acc).
  { induction n as [|n IH]; intros acc; simpl; auto. }
  rewrite E. now apply zero_div_count.
Qed.

Lemma no_interior_no_focus_score_witness :
  valid_buffer (uniform 2 5 10 200 30) /\
  AdvancedImageAnalysis.calculateFocusScore (uniform 2 5 10 200 30) = 0%float.
Proof.
  assert (V : valid_buffer (uniform 2 5 10 200 30)) by (apply uniform_valid; lia).
  split; [exact V|].
  apply (no_interior_no_focus_score (uniform 2 5 10 200 30) V).
  - reflexivity.
  - left. reflexivity.
Defined.

(** ** Black images *)

Lemma black_brightness img :
  valid_buffer img -> all_pixels img 0 0 0 ->
  ImageUtils.getBrightness img
  = (0 / JS.Z2F (width img * height img))%float.
Proof.
  intros Hv Hblack. unfold ImageUtils.getBrightness. cbv zeta.
  rewrite for_lt_counters by lia. rewrite <- (pixel_count img Hv).
  assert (Hs : forall i, i ∈ counters 0 (Z.of_nat (length (data img))) 4 ->
    byte_at (data img) i = 0%float /\ byte_at (data img) (i + 1) = 0%float /\
    byte_at (data img) (i + 2) = 0%float).
  { intros i Hi. apply elem_of_counters in Hi as (k & Hk & -> & Hlt); [|lia].
    destruct Hv as (Hw & Hh & Hlen & _). rewrite Hlen in Hlt.
    destruct (Hblack k) as (Hr & Hg & Hb); [lia|].
    replace (0 + k * 4) with (4 * k) by lia.
    unfold byte_at. rewrite Hr, Hg, Hb. auto. }
  revert Hs. generalize (counters 0 (Z.of_nat (length (data img))) 4) as l.
  intros l Hl.
  match goal with |- context [fold_left ?f l (0%float, 0)] =>
    assert (E : forall count,
      fold_left f l (0%float, count) = (0%float, count + Z.of_nat (length l)))
  end.
  { induction l as [|i l IH]; intros count; simpl fold_left.
    - simpl. f_equal. lia.
    - destruct (Hl i ltac:(left)) as (-> & -> & ->).
      change (0 + (0.299 * 0 + 0.587 * 0 + 0.114 * 0) / 255)%float with 0%float.
      rewrite IH by (intros j Hj; apply Hl; now right).
      simpl length. f_equal. lia. }
  rewrite (E 0). reflexivity.
Qed.

(** X28.  A black image (valid, fewer than 2^53 pixels) has brightness
    exactly 0, so [generateCropSuggestions] makes the "Dark Image
    Enhancement" suggestion for it. *)
Theorem black_image_is_dark (img : ImageData) (w h : float) :
  valid_buffer img -> all_pixels img 0 0 0 -> width img * height img < 2 ^ 53 ->
  ImageUtils.getBrightness img = 0%float /\
  exists s, s ∈ AISuggestions.generateCropSuggestions img w h /\
    AISuggestions.name s = "Dark Image Enhancement"%string /\
    AISuggestions.score s = 70%float /\
    AISuggestions.crop s = AISuggestions.plainCrop 0.1 0.1 0.8 0.8.
Proof.
  intros Hv Hblack Hsize.
  assert (Hn : 1 <= width img * height img < 2 ^ 53).
  { destruct Hv as (Hw & Hh & _). nia. }
  assert (B : ImageUtils.getBrightness img = 0%float).
  { rewrite black_brightness by assumption. now apply zero_div_count. }
  split; [exact B|].
  eexists. split.
  - unfold AISuggestions.generateCropSuggestions.
    rewrite sort_Permutation. unfold AISuggestions.pushedSuggestions.
    cbv zeta. rewrite B. change (0 <? 0.4)%float with true. cbv iota.
    apply elem_of_app. left. apply elem_of_app. left.
    apply elem_of_app. right. left.
  - repeat split.
Qed.

Lemma black_image_is_dark_witness :
  valid_buffer black4 /\ ImageUtils.getBrightness black4 = 0%float.
Proof.
  assert (V : valid_buffer black4) by (apply uniform_valid; lia).
  split; [exact V|].
  apply (black_image_is_dark black4 4 4 V).
  - apply (uniform_all_pixels 4 4 0 0 0). lia.
  - reflexivity.
Defined.
(* ===================================================================== *)
(** * Sorting by a key, largest first *)
(* ===================================================================== *)

Lemma StronglySorted_take {A} (R : A -> A -> Prop) (n : nat) (l : list A) :
  StronglySorted R l -> StronglySorted R (take n l).
Proof.
  revert n. induction l as [|a l IH]; intros n Hs.
  - destruct n; constructor.
  - destruct n as [|n]; [constructor|]. simpl.
    apply StronglySorted_inv in Hs as [Hs Ha].
    constructor; [apply IH, Hs|]. apply Forall_take. exact Ha.
Qed.


(** ** Integer keys *)

Section SortByKey.
Context {A : Type} (cmp : A -> A -> float) (kz : A -> Z) (l : list A).
(** The comparator tells which of two elements of [l] has the larger
    key. *)
Hypothesis Htest : forall x y, x ∈ l -> y ∈ l ->
  JS.gt (cmp y x) 0 = (kz y <? kz x).

Let descending := StronglySorted (fun a b => kz b <= kz a).


End SortByKey.

(** ** Number keys *)

Section SortByNumber.
Context {A : Type} (key : A -> float).

Let cmp := fun a b : A => (key b - key a)%float.
Let descending := StronglySorted (fun a b => (key a <? key b)%float = false).

Lemma sort_insert_by_number x : forall acc,
  descending acc -> descending (JS.sort_insert cmp x acc).
Proof.
  induction acc as [|y acc IH]; intros Hs.
  - simpl. repeat constructor.
  - apply StronglySorted_inv in Hs as [Hs Hy]. simpl JS.sort_insert.
    unfold cmp at 1. rewrite sub_gt_zero.
    destruct (key y <? key x)%float eqn:Hlt.
    + constructor; [constructor; assumption|].
      constructor; [now apply ltb_asym|].
      eapply Forall_impl; [exact Hy|]. simpl. intros b Hb.
      destruct (key x <? key b)%float eqn:Hxb; [|reflexivity].
      rewrite (ltb_trans _ _ _ Hlt Hxb) in Hb. discriminate.
    + constructor; [apply IH, Hs|].
      rewrite sort_insert_Permutation. constructor; assumption.
Qed.

(** With the comparator [key b - key a], no element of the result is
    followed by one of larger key. *)
Lemma sort_by_number (l : list A) : descending (JS.sort cmp l).
Proof.
  unfold JS.sort.
  apply (fold_left_preserves descending); [|constructor].
  intros acc x _ Hacc. now apply sort_insert_by_number.
Qed.
End SortByNumber.

(** X25.  The regions of [findRegionsOfInterest] come best first: no
    region is followed by one of higher score. *)
Theorem regionsOfInterest_best_first (img : ImageData) :
  StronglySorted
    (fun a b =>
       (JS.num (ImageUtils.reg_score a) <? JS.num (ImageUtils.reg_score b))%float
       = false)
    (ImageUtils.findRegionsOfInterest img).
Proof.
  unfold ImageUtils.findRegionsOfInterest, JS.slice0. cbv zeta.
  apply StronglySorted_take.
  apply (sort_by_number (fun a => JS.num (ImageUtils.reg_score a))).
Qed.

(** ** The most frequent colours *)




(** ** The strongest lines *)


